(** * theme-hybrid-workflow: the segmentation and consolidation engine

    A shallow embedding of the cue parser and formatter ([src/utils/srt.ts]),
    the timestamp arithmetic ([src/utils/format.ts]), the theme consolidator
    ([src/utils/file.ts]), the chunk planner and recursive extraction driver
    ([processLargeSrt], [splitAndProcessChunk]) and the silent-cut segment
    planner ([src/services/video.ts]), together with the helpers around
    them: [combineSrtFiles], [convertSrtTimeToAss], [cleanJsonString], the
    bracket search that cuts the JSON array out of a model's answer, the
    naming of the cut video and the refinement of segments by scene changes.

    JavaScript strings are sequences of UTF-16 code units and JavaScript
    numbers are IEEE 754 binary64 values; both are modelled as such. *)

From Stdlib Require Import ZArith NArith Ascii String List Lia Bool.
From Stdlib Require Import Floats Permutation Sorted.
Import ListNotations.

Set Implicit Arguments.
Set Warnings "-inexact-float".

(* ================================================================== *)
(** * JavaScript strings *)
(* ================================================================== *)

Module JSString.

(** A code unit and a string.  [js] reads an ASCII literal. *)
Definition char := N.
Definition jsstring := list char.

Definition js (s : string) : jsstring :=
  List.map N_of_ascii (list_ascii_of_string s).

Definition LF : char := 10%N.

Definition char_eqb (a b : char) : bool := N.eqb a b.

Fixpoint str_eqb (a b : jsstring) : bool :=
  match a, b with
  | [], [] => true
  | x :: a', y :: b' => char_eqb x y && str_eqb a' b'
  | _, _ => false
  end.

(** ECMAScript [WhiteSpace] and [LineTerminator]: what [trim], [parseInt]
    and the regular expression class [\s] all strip or match. *)
Definition isWhiteSpace (c : char) : bool :=
  ((9 <=? c) && (c <=? 13) || (c =? 32) || (c =? 160) || (c =? 5760)
   || (8192 <=? c) && (c <=? 8202) || (c =? 8232) || (c =? 8233)
   || (c =? 8239) || (c =? 8287) || (c =? 12288) || (c =? 65279))%N.

(** The regular expression class [\d]. *)
Definition isDigit (c : char) : bool := ((48 <=? c) && (c <=? 57))%N.

Fixpoint trimStart (s : jsstring) : jsstring :=
  match s with
  | c :: s' => if isWhiteSpace c then trimStart s' else s
  | [] => []
  end.

Fixpoint trimEnd (s : jsstring) : jsstring :=
  match s with
  | [] => []
  | c :: s' =>
      match trimEnd s' with
      | [] => if isWhiteSpace c then [] else [c]
      | t => c :: t
      end
  end.

(** [String.prototype.trim]. *)
Definition trim (s : jsstring) : jsstring := trimEnd (trimStart s).

(** [s.split(sep)] for a one-unit separator: never the empty array. *)
Fixpoint split (sep : char) (s : jsstring) : list jsstring :=
  match s with
  | [] => [[]]
  | c :: s' =>
      if char_eqb c sep then [] :: split sep s'
      else match split sep s' with
           | w :: ws => (c :: w) :: ws
           | [] => [[c]]
           end
  end.

(** [Array.prototype.join]. *)
Fixpoint join (sep : jsstring) (l : list jsstring) : jsstring :=
  match l with
  | [] => []
  | [x] => x
  | x :: l' => x ++ sep ++ join sep l'
  end.

(** [s.split(/\s+/)]: the pieces between maximal runs of white space; the
    empty pieces at a leading or trailing run are kept, and the empty string
    splits into one empty piece. *)
Fixpoint splitWs (s : jsstring) : list jsstring :=
  match s with
  | [] => [[]]
  | c :: s' =>
      if isWhiteSpace c then
        match s' with
        | c' :: _ => if isWhiteSpace c' then splitWs s' else [] :: splitWs s'
        | [] => [[]; []]
        end
      else match splitWs s' with
           | w :: ws => (c :: w) :: ws
           | [] => [[c]]
           end
  end.

(** [Array.prototype.includes] on strings. *)
Definition includes (l : list jsstring) (w : jsstring) : bool :=
  existsb (str_eqb w) l.

(** [s.padStart(n, '0')]. *)
Definition padStart0 (n : nat) (s : jsstring) : jsstring :=
  repeat 48%N (n - length s) ++ s.

(** Decimal digits of a natural number, most significant first. *)
Fixpoint digitsFuel (fuel : nat) (n : N) (acc : jsstring) : jsstring :=
  match fuel with
  | O => acc
  | S f =>
      let acc' := (48 + n mod 10)%N :: acc in
      if (n <? 10)%N then acc' else digitsFuel f (n / 10)%N acc'
  end.

Definition digitsOfN (n : N) : jsstring :=
  digitsFuel (S (N.to_nat (N.log2 n))) n [].

(** [String(z)] for an integer of magnitude below 2^53: the digits of [z],
    all of them.  (From 2^53 on not every integer is a number, and
    JavaScript prints the shortest digits that read back as the number.) *)
Definition stringOfZ (z : Z) : jsstring :=
  match z with
  | Z0 => [48%N]
  | Zpos p => digitsOfN (Npos p)
  | Zneg p => 45%N :: digitsOfN (Npos p)
  end.

(** Value of a digit in radix 10 or 16. *)
Definition digitValue (radix : Z) (c : char) : option Z :=
  if isDigit c then Some (Z.of_N c - 48)%Z
  else if (radix =? 16)%Z && (97 <=? c)%N && (c <=? 102)%N then Some (Z.of_N c - 87)%Z
  else if (radix =? 16)%Z && (65 <=? c)%N && (c <=? 70)%N then Some (Z.of_N c - 55)%Z
  else None.

(** The longest prefix of digits, read in [radix]; [None] when it is empty. *)
Fixpoint readDigits (radix : Z) (acc : option Z) (s : jsstring) : option Z :=
  match s with
  | [] => acc
  | c :: s' =>
      match digitValue radix c with
      | Some d =>
          readDigits radix
            (Some (match acc with Some a => a * radix + d | None => d end)%Z) s'
      | None => acc
      end
  end.

(** [parseInt(s)] without a radix: leading white space is skipped, a sign is
    read, a [0x]/[0X] prefix selects radix 16, and the longest digit prefix
    is the value; [None] is NaN.  The value is the integer the digits
    denote; the number JavaScript returns is the nearest one, which is that
    integer when its magnitude is below 2^53. *)
Definition parseInt (s : jsstring) : option Z :=
  let s1 := trimStart s in
  let '(neg, s2) :=
    match s1 with
    | 45%N :: r => (true, r)
    | 43%N :: r => (false, r)
    | _ => (false, s1)
    end in
  let '(radix, s3) :=
    match s2 with
    | 48%N :: 120%N :: r => (16%Z, r)
    | 48%N :: 88%N :: r => (16%Z, r)
    | _ => (10%Z, s2)
    end in
  match readDigits radix None s3 with
  | Some v => Some (if neg then (- v)%Z else v)
  | None => None
  end.

(** A fixed-length pattern: a sequence of single-unit classes. *)
Inductive cls := D | L (c : char).

Definition clsMatch (k : cls) (c : char) : bool :=
  match k with
  | D => isDigit c
  | L x => char_eqb c x
  end.

(** Does [s] start with a match of [p]? *)
Fixpoint matchHere (p : list cls) (s : jsstring) : bool :=
  match p, s with
  | [], _ => true
  | k :: p', c :: s' => clsMatch k c && matchHere p' s'
  | _ :: _, [] => false
  end.

(** The leftmost match of [p] in [s]: the string from the match on. *)
Fixpoint search (p : list cls) (s : jsstring) : option jsstring :=
  if matchHere p s then Some s
  else match s with
       | [] => None
       | _ :: s' => search p s'
       end.

Definition substr (from len : nat) (s : jsstring) : jsstring :=
  firstn len (skipn from s).

(** [s.indexOf(c)] and [s.lastIndexOf(c)] for a string [c] of one unit: the
    index of the first and of the last occurrence, -1 when there is none. *)
Fixpoint indexOf (c : char) (s : jsstring) : Z :=
  match s with
  | [] => (-1)%Z
  | x :: s' =>
      if char_eqb x c then 0%Z
      else let i := indexOf c s' in if (i <? 0)%Z then (-1)%Z else (i + 1)%Z
  end.

Fixpoint lastIndexOf (c : char) (s : jsstring) : Z :=
  match s with
  | [] => (-1)%Z
  | x :: s' =>
      let i := lastIndexOf c s' in
      if (0 <=? i)%Z then (i + 1)%Z
      else if char_eqb x c then 0%Z else (-1)%Z
  end.

(** [s.substring(from, to)] on integers: both are brought into the range
    from 0 to the length, and the smaller one is the start. *)
Definition substring (s : jsstring) (from to : Z) : jsstring :=
  let len := Z.of_nat (length s) in
  let a := Z.max 0 (Z.min from len) in
  let b := Z.max 0 (Z.min to len) in
  substr (Z.to_nat (Z.min a b)) (Z.to_nat (Z.max a b - Z.min a b)) s.

(** [s.substring(from)]. *)
Definition substringFrom (s : jsstring) (from : Z) : jsstring :=
  substring s from (Z.of_nat (length s)).

(** The regular expression class [\w]. *)
Definition isWordChar (c : char) : bool :=
  (isDigit c || (65 <=? c) && (c <=? 90) || (97 <=? c) && (c <=? 122)
   || (c =? 95))%N.

(** The longest prefix of units of a class and what is behind it: what a
    greedy repetition of [\s] or [\w] takes. *)
Fixpoint span (p : char -> bool) (s : jsstring) : jsstring * jsstring :=
  match s with
  | [] => ([], [])
  | c :: s' =>
      if p c then let (taken, rest) := span p s' in (c :: taken, rest)
      else ([], s)
  end.

End JSString.
Import JSString.

(* ================================================================== *)
(** * JavaScript numbers *)
(* ================================================================== *)

Module JSNumber.

(** The exact value [m * 2^e] of a finite number. *)
Definition decode (x : float) : option (Z * Z) :=
  match Prim2SF x with
  | S754_zero _ => Some (0, 0)%Z
  | S754_finite s m e => Some (if s then Zneg m else Zpos m, e)
  | S754_infinity _ | S754_nan => None
  end.

(** The number nearest to [m * 2^e] (ties to even), zero signed by [neg]. *)
Definition encode (m e : Z) (neg : bool) : float :=
  SF2Prim (binary_normalize prec emax m e neg).

(** An integer as a number, as [parseInt] or a literal yields it. *)
Definition ofZ (z : Z) : float := encode z 0 false.

(** The greatest integer not above a finite number. *)
Definition floorZ (x : float) : option Z :=
  match decode x with
  | Some (m, e) => Some (if (0 <=? e)%Z then m * 2 ^ e else m / 2 ^ (- e))%Z
  | None => None
  end.

(** [Math.floor]: zeros, infinities and NaN are returned as they are. *)
Definition Math_floor (x : float) : float :=
  if is_zero x then x
  else match floorZ x with
       | Some z => ofZ z
       | None => x
       end.

(** [Math.ceil], by way of [Math.floor]. *)
Definition Math_ceil (x : float) : float := (- Math_floor (- x))%float.

(** [x % y]: the exact remainder of the truncating division, signed like
    the dividend. *)
Definition rem (x y : float) : float :=
  if is_nan x || is_nan y || is_infinity x || is_zero y then nan
  else if is_infinity y || is_zero x then x
  else match decode x, decode y with
       | Some (mx, ex), Some (my, ey) =>
           let e := Z.min ex ey in
           encode (Z.rem (mx * 2 ^ (ex - e)) (my * 2 ^ (ey - e))) e (get_sign x)
       | _, _ => nan
       end.

(** [Math.max] and [Math.min] of two numbers: NaN wins, and +0 is above -0. *)
Definition Math_max (x y : float) : float :=
  if is_nan x then x else if is_nan y then y
  else if (x <? y)%float then y
  else if (y <? x)%float then x
  else if get_sign x then y else x.

Definition Math_min (x y : float) : float :=
  if is_nan x then x else if is_nan y then y
  else if (x <? y)%float then x
  else if (y <? x)%float then y
  else if get_sign x then x else y.

(** [String(x)] for the values [Math.floor] returns: NaN, the infinities and
    integers; [None] stands for the cases not modelled: an integer of
    magnitude 2^53 or more, of which JavaScript prints the shortest digits
    that read back as the same number, with an exponent from 1e21 on, and
    numbers with a fraction. *)
Definition toString (x : float) : option jsstring :=
  if is_nan x then Some (js "NaN")
  else if is_infinity x then
    Some (if get_sign x then js "-Infinity" else js "Infinity")
  else match decode x with
       | Some (m, e) =>
           if (0 <=? e)%Z || (m mod 2 ^ (- e) =? 0)%Z then
             let z := (if (0 <=? e) then m * 2 ^ e else m / 2 ^ (- e))%Z in
             if (Z.abs z <? 2 ^ 53)%Z then Some (stringOfZ z) else None
           else None
       | None => None
       end.

End JSNumber.
Import JSNumber.

(* ================================================================== *)
(** * Timestamps: src/utils/format.ts *)
(* ================================================================== *)

Module Format.

(** [\d{2}:\d{2}:\d{2},\d{3}] *)
Definition timePattern : list cls :=
  [D; D; L 58; D; D; L 58; D; D; L 44; D; D; D]%N.

(** [\d{2}:\d{2}:\d{2},\d{3} --> \d{2}:\d{2}:\d{2},\d{3}] *)
Definition timeRegex : list cls :=
  timePattern ++ [L 32; L 45; L 45; L 62; L 32]%N ++ timePattern.

(** [parseInt] of a captured group, as a number. *)
Definition parseIntNum (s : jsstring) : float :=
  match parseInt s with
  | Some z => ofZ z
  | None => nan
  end.

(** [hours * 3600 + minutes * 60 + seconds + milliseconds / 1000] over the
    four groups of a match of [timePattern] that starts [m]. *)
Definition secondsOfMatch (m : jsstring) : float :=
  (parseIntNum (substr 0 2 m) * 3600 + parseIntNum (substr 3 2 m) * 60
   + parseIntNum (substr 6 2 m) + parseIntNum (substr 9 3 m) / 1000)%float.

Definition timeToSeconds (timeStr : jsstring) : float :=
  match search timePattern timeStr with
  | None => 0%float
  | Some m => secondsOfMatch m
  end.

(** The inner [formatTimestamp] of [adjustSrtTimestamps]. *)
Definition formatTimestamp (time : float) : option jsstring :=
  let hours := Math_floor (time / 3600) in
  let minutes := Math_floor (rem time 3600 / 60) in
  let seconds := Math_floor (rem time 60) in
  let milliseconds := Math_floor (rem time 1 * 1000) in
  match toString hours, toString minutes, toString seconds,
        toString milliseconds with
  | Some h, Some m, Some s, Some ms =>
      Some (padStart0 2 h ++ js ":" ++ padStart0 2 m ++ js ":"
            ++ padStart0 2 s ++ js "," ++ padStart0 3 ms)
  | _, _, _, _ => None
  end.

(** The replacement callback: [m] starts with a match of [timeRegex]. *)
Definition replacement (m : jsstring) (offsetSeconds : float)
  : option jsstring :=
  let startTime := (secondsOfMatch m + offsetSeconds)%float in
  let endTime := (secondsOfMatch (skipn 17 m) + offsetSeconds)%float in
  match formatTimestamp startTime, formatTimestamp endTime with
  | Some a, Some b => Some (a ++ js " --> " ++ b)
  | _, _ => None
  end.

(** [srtContent.replace(timeRegex, ...)] with the global flag: matches are
    found left to right and do not overlap; [skip] counts the units of the
    current match still to be dropped.  [None] only where [toString] is. *)
Fixpoint replaceFrom (skip : nat) (offsetSeconds : float) (s : jsstring)
  : option jsstring :=
  match s with
  | [] => Some []
  | c :: s' =>
      match skip with
      | S k => replaceFrom k offsetSeconds s'
      | O =>
          if matchHere timeRegex s then
            match replacement s offsetSeconds,
                  replaceFrom 28 offsetSeconds s' with
            | Some r, Some out => Some (r ++ out)
            | _, _ => None
            end
          else option_map (cons c) (replaceFrom 0 offsetSeconds s')
      end
  end.

Definition adjustSrtTimestamps (srtContent : jsstring) (offsetSeconds : float)
  : option jsstring :=
  replaceFrom 0 offsetSeconds srtContent.

(** [String(n)] and [n.toString()] of what [parseInt] returns. *)
Definition intToString (n : option Z) : jsstring :=
  match n with
  | Some z => stringOfZ z
  | None => js "NaN"
  end.

(** [convertSrtTimeToAss]: the hours are written as a number, the minutes
    and the seconds padded to two digits, and the last field is read from
    the first two digits of the milliseconds. *)
Definition convertSrtTimeToAss (srtTime : jsstring) : jsstring :=
  match search timePattern srtTime with
  | None => js "0:00:00.00"
  | Some m =>
      let hours := parseInt (substr 0 2 m) in
      let minutes := padStart0 2 (intToString (parseInt (substr 3 2 m))) in
      let seconds := padStart0 2 (intToString (parseInt (substr 6 2 m))) in
      let milliseconds :=
        padStart0 2 (intToString (parseInt (substring (substr 9 3 m) 0 2))) in
      intToString hours ++ js ":" ++ minutes ++ js ":" ++ seconds
        ++ js "." ++ milliseconds
  end.

End Format.

(* ================================================================== *)
(** * Cue text: src/utils/srt.ts *)
(* ================================================================== *)

Module Srt.

Record Subtitle := mkSubtitle
  { id : Z; start : jsstring; end_ : jsstring; text : jsstring }.

(** [/^\d+$/.test(line.trim())] *)
Definition isIndexLine (line : jsstring) : bool :=
  match trim line with
  | [] => false
  | t => forallb isDigit t
  end.

Definition isBlank (line : jsstring) : bool :=
  match trim line with [] => true | _ => false end.

(** The two groups of [timestampMatch]. *)
Definition timestampMatch (line : jsstring) : option (jsstring * jsstring) :=
  match search Format.timeRegex line with
  | Some m => Some (substr 0 8 m, substr 17 8 m)
  | None => None
  end.

(** The [while] loop of [parseSrt] from line [i] on, [lines] being the lines
    from [i].  The inner loop gathers the text and hands the first line it
    does not take back to the outer loop. *)
Fixpoint parseLines (lines : list jsstring) : list Subtitle :=
  match lines with
  | [] => []
  | line :: rest =>
      if isBlank line then parseLines rest
      else match parseInt line with
           | None => parseLines rest
           | Some n =>
               match rest with
               | [] => []
               | tsLine :: rest' =>
                   match timestampMatch tsLine with
                   | None => parseLines rest'
                   | Some (st, en) =>
                       (fix gather (txt : jsstring) (ls : list jsstring)
                          {struct ls} : list Subtitle :=
                          match ls with
                          | [] => [mkSubtitle n st en (trim txt)]
                          | l :: ls' =>
                              if negb (isBlank l) && negb (isIndexLine l)
                              then gather (txt ++ l ++ [LF]) ls'
                              else mkSubtitle n st en (trim txt)
                                     :: parseLines ls
                          end) [] rest'
                   end
               end
           end
  end.

Definition parseSrt (srtContent : jsstring) : list Subtitle :=
  parseLines (split LF srtContent).

Definition formatCue (sub : Subtitle) : jsstring :=
  stringOfZ (id sub) ++ [LF] ++ start sub ++ js " --> " ++ end_ sub
    ++ [LF] ++ text sub ++ [LF].

Definition formatSubtitlesToSrt (subtitles : list Subtitle) : jsstring :=
  join [LF] (List.map formatCue subtitles).

(** [/\d{2}:\d{2}:\d{2},\d{3} --> \d{2}:\d{2}:\d{2},\d{3}/.test(line)] *)
Definition hasTimestamp (line : jsstring) : bool :=
  match search Format.timeRegex line with
  | Some _ => true
  | None => false
  end.

(** The [while] loop of [combineSrtFiles] over the lines of one text, from
    line [i] on.  The inner loop gathers the text of a cue and hands the
    first line it does not take back to the outer loop. *)
Fixpoint combineLines (lines : list jsstring) (combinedContent : jsstring)
    (subtitleIndex : Z) : jsstring * Z :=
  match lines with
  | [] => (combinedContent, subtitleIndex)
  | line :: rest =>
      if isBlank line || isIndexLine line
      then combineLines rest combinedContent subtitleIndex
      else if hasTimestamp line then
        (fix gatherText (subtitleText : jsstring) (ls : list jsstring)
           {struct ls} : jsstring * Z :=
           match ls with
           | l :: ls' =>
               if negb (isBlank l) && negb (isIndexLine l)
                  && negb (hasTimestamp l)
               then gatherText (subtitleText ++ l ++ [LF]) ls'
               else combineLines ls
                      (combinedContent ++ stringOfZ subtitleIndex ++ [LF]
                         ++ line ++ [LF] ++ subtitleText ++ [LF])
                      (subtitleIndex + 1)%Z
           | [] =>
               (combinedContent ++ stringOfZ subtitleIndex ++ [LF]
                  ++ line ++ [LF] ++ subtitleText ++ [LF],
                (subtitleIndex + 1)%Z)
           end) [] rest
      else combineLines rest combinedContent subtitleIndex
  end.

(** [combineSrtFiles]: the content and the index are carried from one text
    to the next. *)
Definition combineSrtFiles (srtContents : list jsstring) : jsstring :=
  trim (fst (fold_left
               (fun state content =>
                  combineLines (split LF content) (fst state) (snd state))
               srtContents ([], 1%Z))).

End Srt.

(* ================================================================== *)
(** * Fuzzy consolidator: src/utils/file.ts *)
(* ================================================================== *)

Module Themes.

Record ThemeEntry := mkTheme
  { start : jsstring; end_ : jsstring; theme : jsstring }.

Fixpoint isPrefix (p s : jsstring) : bool :=
  match p, s with
  | [], _ => true
  | x :: p', y :: s' => char_eqb x y && isPrefix p' s'
  | _ :: _, [] => false
  end.

(** The alternatives of the filler expression, in the order it tries them. *)
Definition fillers : list jsstring :=
  [ [12395; 12388; 12356; 12390]; [12395; 38306; 12375; 12390];
    [12392; 12399]; [12398; 26041; 27861] ]%N.

(** [s.replace(/a|b|.../g, '')]: at each position the first alternative that
    matches is dropped, and the scan goes on behind it. *)
Fixpoint removeAll (alts : list jsstring) (skip : nat) (s : jsstring)
  : jsstring :=
  match s with
  | [] => []
  | c :: s' =>
      match skip with
      | S k => removeAll alts k s'
      | O =>
          match find (fun a => isPrefix a s) alts with
          | Some a => removeAll alts (length a - 1) s'
          | None => c :: removeAll alts 0 s'
          end
      end
  end.

(** The punctuation class of the second [replace]: full stop, comma,
    semicolon, colon, exclamation and question mark, both quotes and both
    parentheses. *)
Definition isPunct (c : char) : bool :=
  existsb (char_eqb c) [46; 44; 59; 58; 33; 63; 39; 34; 40; 41]%N.

Definition gtZero (x : float) : bool := (0 <? x)%float.

(** [Array.prototype.sort] with a comparator.  The sort is stable, and for a
    consistent comparator its result is the one stable sorted permutation;
    insertion from the right computes it.  An element moves behind another
    only when the comparator returns a number above zero. *)
Section Sort.
Variables (A : Type) (compareFn : A -> A -> float).

Fixpoint insert (a : A) (l : list A) : list A :=
  match l with
  | [] => [a]
  | b :: l' => if gtZero (compareFn a b) then b :: insert a l' else a :: l
  end.

Definition sort (l : list A) : list A := fold_right insert [] l.
End Sort.

(** The comparator of [mergeOverlappingThemes].  It is consistent:
    [timeToSeconds] returns no NaN ([timeToSeconds_NN] below). *)
Definition byStart (a b : ThemeEntry) : float :=
  (Format.timeToSeconds (start a) - Format.timeToSeconds (start b))%float.

Section Consolidator.
(** [String.prototype.toLowerCase], the Unicode case mapping of the host. *)
Variable toLowerCase : jsstring -> jsstring.

Definition normalizeTheme (t : jsstring) : jsstring :=
  trim (filter (fun c => negb (isPunct c))
          (removeAll fillers 0 (toLowerCase t))).

Definition areSimilarThemes (theme1 theme2 : jsstring) : bool :=
  let words1 := splitWs (normalizeTheme theme1) in
  let words2 := splitWs (normalizeTheme theme2) in
  if (length words1 =? 0)%nat || (length words2 =? 0)%nat then false
  else
    let commonWords := filter (includes words2) words1 in
    let similarityRatio :=
      (ofZ (2 * Z.of_nat (length commonWords))
       / ofZ (Z.of_nat (length words1) + Z.of_nat (length words2)))%float in
    let minWordCount := Nat.min (length words1) (length words2) in
    let similarityThreshold :=
      if (minWordCount <=? 3)%nat then 0.7%float else 0.5%float in
    (similarityThreshold <=? similarityRatio)%float.

(** The merge test of the loop body. *)
Definition mergeable (currentTheme t : ThemeEntry) : bool :=
  let currentEndTime := Format.timeToSeconds (end_ currentTheme) in
  let nextStartTime := Format.timeToSeconds (start t) in
  let similarThemes := areSimilarThemes (theme currentTheme) (theme t) in
  ((nextStartTime - currentEndTime <? 10)%float
   || (nextStartTime <=? currentEndTime)%float) && similarThemes.

(** The update of [currentTheme.end] on a merge. *)
Definition extend (currentTheme t : ThemeEntry) : ThemeEntry :=
  if (Format.timeToSeconds (end_ currentTheme)
      <? Format.timeToSeconds (end_ t))%float
  then mkTheme (start currentTheme) (end_ t) (theme currentTheme)
  else currentTheme.

(** The [for ... of] loop and the final push, on the values of the spans. *)
Fixpoint mergeLoop (mergedThemes : list ThemeEntry)
    (currentTheme : option ThemeEntry) (themes : list ThemeEntry)
  : list ThemeEntry :=
  match themes with
  | [] =>
      match currentTheme with
      | Some c => mergedThemes ++ [c]
      | None => mergedThemes
      end
  | t :: rest =>
      match currentTheme with
      | None => mergeLoop mergedThemes (Some t) rest
      | Some c =>
          if mergeable c t then mergeLoop mergedThemes (Some (extend c t)) rest
          else mergeLoop (mergedThemes ++ [c]) (Some t) rest
      end
  end.

(** The value returned, as a function of the values of the argument. *)
Definition mergeOverlappingThemes (themes : list ThemeEntry)
  : list ThemeEntry :=
  mergeLoop [] None (sort byStart themes).

(** ** The same function on a store of objects

    An array holds references; [{ ...theme }] allocates a copy, and
    [currentTheme.end = theme.end] writes to the object [currentTheme]
    refers to. *)
Definition loc := nat.
Definition store := list ThemeEntry.

Definition deref (h : store) (l : loc) : ThemeEntry :=
  nth l h (mkTheme [] [] []).

Definition alloc (h : store) (v : ThemeEntry) : store * loc :=
  (h ++ [v], length h).

Fixpoint write (h : store) (l : loc) (v : ThemeEntry) : store :=
  match h, l with
  | [], _ => []
  | _ :: h', O => v :: h'
  | x :: h', S l' => x :: write h' l' v
  end.

Fixpoint mergeLoopRef (h : store) (mergedThemes : list loc)
    (currentTheme : option loc) (themes : list loc) : store * list loc :=
  match themes with
  | [] =>
      (h, match currentTheme with
          | Some c => mergedThemes ++ [c]
          | None => mergedThemes
          end)
  | t :: rest =>
      match currentTheme with
      | None =>
          let (h', c) := alloc h (deref h t) in
          mergeLoopRef h' mergedThemes (Some c) rest
      | Some c =>
          if mergeable (deref h c) (deref h t) then
            mergeLoopRef (write h c (extend (deref h c) (deref h t)))
              mergedThemes (Some c) rest
          else
            let (h', c') := alloc h (deref h t) in
            mergeLoopRef h' (mergedThemes ++ [c]) (Some c') rest
      end
  end.

(** The store after the call, the argument array after the call, and the
    array returned. *)
Definition mergeOverlappingThemesRef (h : store) (themes : list loc)
  : store * list loc * list loc :=
  let sorted := sort (fun a b => byStart (deref h a) (deref h b)) themes in
  let (h', merged) := mergeLoopRef h [] None sorted in
  (h', sorted, merged).

End Consolidator.

(** Lower-casing of the letters A to Z; every other unit is kept.  It is
    [toLowerCase] on strings whose other units have no lower-case mapping,
    such as ASCII and kana or kanji text. *)
Definition toLowerCaseAscii (s : jsstring) : jsstring :=
  List.map (fun c => if (65 <=? c)%N && (c <=? 90)%N then (c + 32)%N else c) s.

(** The first two [replace] of [cleanJsonString], with the global flag,
    for a closing unit [X] that is not white space: a comma, the white space
    behind it and [X] are replaced by [X], and the scan goes on behind [X];
    [skip] counts the units of the current match still to be dropped.  The
    white space is taken greedily and is never given back, as [X] is not
    white space. *)
Fixpoint dropCommaBefore (close : char) (skip : nat) (s : jsstring)
  : jsstring :=
  match s with
  | [] => []
  | c :: s' =>
      match skip with
      | S k => dropCommaBefore close k s'
      | O =>
          if char_eqb c 44%N then
            match span isWhiteSpace s' with
            | (ws, d :: _) =>
                if char_eqb d close
                then close :: dropCommaBefore close (length ws + 1) s'
                else c :: dropCommaBefore close 0 s'
            | (_, []) => c :: dropCommaBefore close 0 s'
            end
          else c :: dropCommaBefore close 0 s'
      end
  end.

(** The last [replace] of [cleanJsonString], with the global flag: an
    opening brace or a comma, white space, a word of one or more units of
    [\w], white space and a colon are replaced by the same with the word in
    double quotes.  Each of the three runs is taken greedily and is never
    given back: the unit behind a run is not of its class. *)
Fixpoint quoteKeys (skip : nat) (s : jsstring) : jsstring :=
  match s with
  | [] => []
  | c :: s' =>
      match skip with
      | S k => quoteKeys k s'
      | O =>
          if char_eqb c 123%N || char_eqb c 44%N then
            let (ws1, r1) := span isWhiteSpace s' in
            let (key, r2) := span isWordChar r1 in
            let (ws2, r3) := span isWhiteSpace r2 in
            match key, r3 with
            | _ :: _, 58%N :: _ =>
                c :: ws1 ++ [34%N] ++ key ++ [34%N] ++ ws2 ++ [58%N]
                  ++ quoteKeys (length ws1 + length key + length ws2 + 1) s'
            | _, _ => c :: quoteKeys 0 s'
            end
          else c :: quoteKeys 0 s'
      end
  end.

(** [cleanJsonString]. *)
Definition cleanJsonString (jsonStr : jsstring) : jsstring :=
  let cleaned :=
    dropCommaBefore 93%N 0 (dropCommaBefore 125%N 0 jsonStr) in
  let cleaned :=
    List.map (fun c => if char_eqb c 39%N then 34%N else c) cleaned in
  quoteKeys 0 cleaned.

(** [getModelMaxTokens]: the two tables and their defaults. *)
Definition openaiModelLimits : list (jsstring * Z) :=
  [ (js "gpt-3.5-turbo", 16385); (js "gpt-3.5-turbo-16k", 16385);
    (js "gpt-4", 8192); (js "gpt-4-32k", 32768);
    (js "gpt-4-turbo", 128000) ]%Z.

Definition googleModelLimits : list (jsstring * Z) :=
  [ (js "gemini-pro", 32768); (js "gemini-1.5-flash", 1048576);
    (js "gemini-1.5-pro", 1048576) ]%Z.

Definition lookup (table : list (jsstring * Z)) (key : jsstring) : option Z :=
  option_map snd (find (fun kv => str_eqb (fst kv) key) table).

(** The names of the properties that an object literal inherits from
    [Object.prototype].  Read from a table, each of them gives a function,
    or the prototype itself for [__proto__]: a value that is not a number
    and that counts as true. *)
Definition inheritedNames : list jsstring :=
  [ js "constructor"; js "__defineGetter__"; js "__defineSetter__";
    js "hasOwnProperty"; js "__lookupGetter__"; js "__lookupSetter__";
    js "isPrototypeOf"; js "propertyIsEnumerable"; js "toString";
    js "valueOf"; js "__proto__"; js "toLocaleString" ].

(** [table[model] || fallback]: the limit of the table, all of which are
    above zero; [None] for the function or object found under an inherited
    name; the default for every other name. *)
Definition limitOr (table : list (jsstring * Z)) (model : jsstring)
    (fallback : Z) : option Z :=
  match lookup table model with
  | Some n => Some n
  | None => if includes inheritedNames model then None else Some fallback
  end.

Definition getModelMaxTokens (model provider : jsstring) : option Z :=
  if str_eqb provider (js "google") then
    limitOr googleModelLimits model 32768
  else
    limitOr openaiModelLimits model 16385.

(** What [getModelMaxTokens] returns, as a number: a function or an object
    of [Object.prototype] is NaN in a difference and in a comparison with a
    number. *)
Definition limitAsNumber (maxTokens : option Z) : float :=
  match maxTokens with
  | Some n => ofZ n
  | None => nan
  end.

(** [estimateSrtTokens]. *)
Definition estimateSrtTokens (srtContent : jsstring) : float :=
  let tokenMultiplier := 8%float in
  let wordCount := ofZ (Z.of_nat (length (splitWs srtContent))) in
  let charCount := ofZ (Z.of_nat (length srtContent)) in
  Math_ceil (Math_max (wordCount * tokenMultiplier) (charCount / 3))%float.

End Themes.

(* ================================================================== *)
(** * Chunk planner and recursive extraction driver *)
(* ================================================================== *)

Module Extract.

Import Srt.

(** What a call of [extractThemesWithAI] does: it returns the themes of the
    chunk or throws an [Error] with a message. *)
Inductive Outcome :=
| Returns (themes : list Themes.ThemeEntry)
| Throws (message : jsstring).

Definition FORCE_SPLIT : jsstring := js "FORCE_SPLIT".

(** What [extractThemesWithOpenAI] and [extractThemesWithGemini] make of the
    reply before they parse it: the text from the first opening bracket to the
    last closing bracket, or the reply as it is. *)
Definition extractJsonArray (content : jsstring) : jsstring :=
  let jsonStart := indexOf 91%N content in
  let jsonEnd := (lastIndexOf 93%N content + 1)%Z in
  if (0 <=? jsonStart)%Z && (jsonStart <? jsonEnd)%Z
  then substring content jsonStart jsonEnd
  else content.

(** [for (let i = 0; i < items.length; i += size) chunks.push(items.slice(i, i + size))]
    with [fuel] bounding the number of times the loop test is made: [None]
    when the loop has not ended by then.  The index and the size are
    non-negative integers. *)
Fixpoint sliceLoop (A : Type) (fuel i size : nat) (items : list A)
  : option (list (list A)) :=
  match fuel with
  | O => None
  | S f =>
      if (i <? length items)%nat then
        option_map (cons (firstn size (skipn i items)))
          (sliceLoop f (i + size) size items)
      else Some []
  end.

(** [Math.ceil(n / 4)] of a length. *)
Definition ceilQuarter (n : nat) : nat := (n + 3) / 4.

(** [subChunkSize] of [splitAndProcessChunk]. *)
Definition subChunkSize (subtitles : list Subtitle) : nat :=
  Nat.max 5 (ceilQuarter (length subtitles)).

(** [subtitlesPerChunk] of [processLargeSrt]; the divisions are those of
    the source, on numbers. *)
Definition subtitlesPerChunk (srtContent model provider : jsstring) : float :=
  let subtitles := parseSrt srtContent in
  let maxTokens := Themes.getModelMaxTokens model provider in
  let promptOverhead := 500%float in
  let maxContentTokens :=
    (Themes.limitAsNumber maxTokens - promptOverhead)%float in
  let averageSubtitleLength :=
    (ofZ (Z.of_nat (length srtContent))
     / ofZ (Z.of_nat (length subtitles)))%float in
  let averageSubtitleTokens := (averageSubtitleLength / 4)%float in
  Math_floor (maxContentTokens / averageSubtitleTokens / 4)%float.

(** The partition loop of [processLargeSrt] for a step that is a number.  A
    NaN or infinite step takes the index out of range after one pass; a step
    below zero never takes it out. *)
Definition planChunks (fuel : nat) (step : float) (subtitles : list Subtitle)
  : option (list (list Subtitle)) :=
  match floorZ step with
  | Some z => sliceLoop fuel 0 (Z.to_nat z) subtitles
  | None =>
      match subtitles with
      | [] => Some []
      | _ :: _ =>
          if is_nan step then Some [[]]
          else if get_sign step then None
          else Some [subtitles]
      end
  end.

(** The test of [extractThemes] that sends a transcript to
    [processLargeSrt]. *)
Definition tooLong (srtContent model provider : jsstring) : bool :=
  let estimatedTokens := Themes.estimateSrtTokens srtContent in
  let maxTokens := Themes.getModelMaxTokens model provider in
  let promptOverhead := 500%float in
  (Themes.limitAsNumber maxTokens <? estimatedTokens + promptOverhead)%float.

Section Driver.
(** The theme service: its state and one call of it on a chunk; the key,
    the model and the provider are the same in every call. *)
Variable World : Type.
Variable extractThemesWithAI : jsstring -> World -> Outcome * World.
Variable toLowerCase : jsstring -> jsstring.

(** What a run leaves behind: the outcome, the numbers of the sub-chunks a
    warning was logged for, and the state of the service. *)
Record Run := mkRun
  { outcome : Outcome; warned : list nat; world : World }.

(** The second loop of [splitAndProcessChunk], entered with [i] sub-chunks
    done. *)
Fixpoint subChunkLoop (i : nat) (subChunks : list jsstring)
    (results : list Themes.ThemeEntry) (warnings : list nat) (w : World)
  : Run :=
  match subChunks with
  | [] => mkRun (Returns results) warnings w
  | c :: rest =>
      match extractThemesWithAI c w with
      | (Returns subThemes, w') =>
          subChunkLoop (S i) rest (results ++ subThemes) warnings w'
      | (Throws message, w') =>
          if str_eqb message FORCE_SPLIT
          then subChunkLoop (S i) rest results (warnings ++ [S i]) w'
          else mkRun (Throws message) warnings w'
      end
  end.

(** The sub-chunks [splitAndProcessChunk] formats; the partition loop is
    given one test more than there are subtitles, which is enough
    ([subChunksOf_total] below). *)
Definition subChunksOf (chunk : jsstring) : option (list jsstring) :=
  let subtitles := parseSrt chunk in
  option_map (List.map formatSubtitlesToSrt)
    (sliceLoop (S (length subtitles)) 0 (subChunkSize subtitles) subtitles).

Definition splitAndProcessChunk (chunk : jsstring) (w : World)
  : option Run :=
  match subChunksOf chunk with
  | Some subChunks => Some (subChunkLoop 0 subChunks [] [] w)
  | None => None
  end.

(** The second loop of [processLargeSrt]. *)
Fixpoint chunkLoop (chunks : list jsstring)
    (allThemes : list Themes.ThemeEntry) (warnings : list nat) (w : World)
  : option Run :=
  match chunks with
  | [] => Some (mkRun (Returns allThemes) warnings w)
  | c :: rest =>
      match extractThemesWithAI c w with
      | (Returns chunkThemes, w') =>
          chunkLoop rest (allThemes ++ chunkThemes) warnings w'
      | (Throws message, w') =>
          if str_eqb message FORCE_SPLIT && (1000 <? length c)%nat then
            match splitAndProcessChunk c w' with
            | Some (mkRun (Returns subChunks) ws w'') =>
                chunkLoop rest (allThemes ++ subChunks) (warnings ++ ws) w''
            | Some (mkRun (Throws m) ws w'') =>
                Some (mkRun (Throws m) (warnings ++ ws) w'')
            | None => None
            end
          else Some (mkRun (Throws message) warnings w')
      end
  end.

(** [processLargeSrt]; [None] when its partition loop has not ended
    within [fuel]. *)
Definition processLargeSrt (fuel : nat)
    (srtContent model provider : jsstring) (w : World) : option Run :=
  let subtitles := parseSrt srtContent in
  match planChunks fuel (subtitlesPerChunk srtContent model provider)
          subtitles with
  | None => None
  | Some parts =>
      match chunkLoop (List.map formatSubtitlesToSrt parts) [] [] w with
      | Some (mkRun (Returns allThemes) ws w') =>
          Some (mkRun
                  (Returns (Themes.mergeOverlappingThemes toLowerCase allThemes))
                  ws w')
      | r => r
      end
  end.

End Driver.

End Extract.

(* ================================================================== *)
(** * Silent-cut segment planner: src/services/video.ts *)
(* ================================================================== *)

Module Video.

(** The path [processSilentCut] writes the cut video to: [_cut] goes in
    before the last full stop of the path of the video. *)
Definition processedVideo (originalVideo : jsstring) : jsstring :=
  let fileExt :=
    substringFrom originalVideo (lastIndexOf 46%N originalVideo) in
  let fileNameWithoutExt :=
    substring originalVideo 0 (lastIndexOf 46%N originalVideo) in
  fileNameWithoutExt ++ js "_cut" ++ fileExt.

Record Silence := mkSilence
  { start : float; end_ : float; duration : float }.

(** A segment to keep, [{start, end}] in the source. *)
Record Segment := mkSegment { seg_start : float; seg_end : float }.

(** The [for ... of] loop of [cutSilentParts]. *)
Fixpoint silenceLoop (videoDuration padding minSegmentDuration : float)
    (silences : list Silence) (segments : list Segment) (lastEnd : float)
  : list Segment * float :=
  match silences with
  | [] => (segments, lastEnd)
  | silence :: rest =>
      let silenceStart := Math_max 0 (start silence - padding) in
      let silenceEnd := Math_min videoDuration (end_ silence + padding) in
      let segments' :=
        if (minSegmentDuration <=? silenceStart - lastEnd)%float
        then segments ++ [mkSegment lastEnd silenceStart]
        else segments in
      silenceLoop videoDuration padding minSegmentDuration rest segments'
        silenceEnd
  end.

(** The list [segments] that [cutSilentParts] renders. *)
Definition cutSilentParts (silences : list Silence)
    (videoDuration padding minSegmentDuration : float) : list Segment :=
  let (segments, lastEnd) :=
    silenceLoop videoDuration padding minSegmentDuration silences [] 0 in
  if (minSegmentDuration <=? videoDuration - lastEnd)%float
  then segments ++ [mkSegment lastEnd videoDuration]
  else segments.

(** The inner [for ... of] loop of [refineSegmentsWithSceneInfo], over the
    scene changes of one segment. *)
Fixpoint sceneLoop (minSegmentDuration : float)
    (segmentSceneChanges : list float) (refinedSegments : list Segment)
    (lastSceneTime : float) : list Segment * float :=
  match segmentSceneChanges with
  | [] => (refinedSegments, lastSceneTime)
  | sceneTime :: rest =>
      let subSegmentDuration := (sceneTime - lastSceneTime)%float in
      let refinedSegments' :=
        if (minSegmentDuration <=? subSegmentDuration)%float
        then refinedSegments ++ [mkSegment lastSceneTime sceneTime]
        else refinedSegments in
      sceneLoop minSegmentDuration rest refinedSegments' sceneTime
  end.

(** The body of the outer loop: what one segment adds to
    [refinedSegments]. *)
Definition refineSegment (sceneChanges : list float)
    (minSegmentDuration : float) (refinedSegments : list Segment)
    (segment : Segment) : list Segment :=
  let segmentSceneChanges :=
    filter (fun time => (seg_start segment <=? time)%float
                        && (time <=? seg_end segment)%float) sceneChanges in
  if (length segmentSceneChanges <? 2)%nat then
    if (minSegmentDuration * 2 <=? seg_end segment - seg_start segment)%float
    then refinedSegments ++ [segment]
    else refinedSegments
  else
    let (refinedSegments', lastSceneTime) :=
      sceneLoop minSegmentDuration segmentSceneChanges refinedSegments
        (seg_start segment) in
    if (minSegmentDuration <=? seg_end segment - lastSceneTime)%float
    then refinedSegments' ++ [mkSegment lastSceneTime (seg_end segment)]
    else refinedSegments'.

(** [refineSegmentsWithSceneInfo]. *)
Definition refineSegmentsWithSceneInfo (segments : list Segment)
    (sceneChanges : list float) (minSegmentDuration : float) : list Segment :=
  fold_left (refineSegment sceneChanges minSegmentDuration) segments [].

(** The segments [combineSceneAndSilenceInfo] returns, from the silences, the
    scene changes and the duration it has read.  Its first loop is the loop
    of [cutSilentParts]. *)
Definition combineSceneAndSilenceInfo (silences : list Silence)
    (sceneChanges : list float)
    (videoDuration padding minSegmentDuration : float) : list Segment :=
  refineSegmentsWithSceneInfo
    (cutSilentParts silences videoDuration padding minSegmentDuration)
    sceneChanges minSegmentDuration.

End Video.

(* ================================================================== *)
(** * Facts about numbers

    The operations on numbers are the primitive binary64 operations, which
    the Standard Library specifies by the functions of [SpecFloat].  What is
    needed of them here: rounding keeps the sign of a result, a difference of
    two numbers is above zero exactly when the first is the larger, and the
    comparisons order the numbers that are not NaN by their exact value. *)
(* ================================================================== *)

Module IEEE.

Local Open Scope Z_scope.

(** ** Shifting a mantissa to the right *)

Lemma shr_1_m r : 0 <= shr_m r -> shr_m (shr_1 r) = shr_m r / 2.
Proof.
  destruct r as [m r s]; simpl; intros H.
  destruct m as [|p|p]; [reflexivity| |lia].
  destruct p as [p|p|]; simpl shr_m.
  - rewrite Pos2Z.inj_xI. apply Z.div_unique with 1; lia.
  - rewrite Pos2Z.inj_xO. apply Z.div_unique with 0; lia.
  - reflexivity.
Qed.

Lemma shr_1_nonneg r : 0 <= shr_m r -> 0 <= shr_m (shr_1 r).
Proof. intros H. rewrite shr_1_m by assumption. apply Z.div_pos; lia. Qed.

Lemma iter_shr_m p : forall r, 0 <= shr_m r ->
  shr_m (iter_pos shr_1 p r) = shr_m r / 2 ^ Zpos p.
Proof.
  induction p as [p IH|p IH|]; intros r H; simpl iter_pos.
  - assert (H1 : 0 <= shr_m (shr_1 r)) by now apply shr_1_nonneg.
    assert (H2 : 0 <= shr_m (iter_pos shr_1 p (shr_1 r))).
    { rewrite IH by assumption. apply Z.div_pos; lia. }
    rewrite IH, IH, shr_1_m by assumption.
    rewrite !Z.div_div by lia. f_equal.
    rewrite Pos2Z.inj_xI, <- Z.pow_add_r, <- Z.pow_succ_r by lia. f_equal. lia.
  - assert (H2 : 0 <= shr_m (iter_pos shr_1 p r)).
    { rewrite IH by assumption. apply Z.div_pos; lia. }
    rewrite IH, IH by assumption.
    rewrite !Z.div_div by lia. f_equal.
    rewrite Pos2Z.inj_xO, <- Z.pow_add_r by lia. f_equal. lia.
  - rewrite shr_1_m by assumption. reflexivity.
Qed.

Lemma digits2_bounds m :
  2 ^ (Zpos (digits2_pos m) - 1) <= Zpos m < 2 ^ Zpos (digits2_pos m).
Proof.
  induction m as [m IH|m IH|]; simpl digits2_pos.
  - rewrite Pos2Z.inj_succ.
    replace (Z.succ (Zpos (digits2_pos m)) - 1) with (Z.succ (Zpos (digits2_pos m) - 1)) by lia.
    rewrite !Z.pow_succ_r by lia.
    revert IH. generalize (2 ^ (Z.pos (digits2_pos m) - 1)) (2 ^ Z.pos (digits2_pos m)). lia.
  - rewrite Pos2Z.inj_succ.
    replace (Z.succ (Zpos (digits2_pos m)) - 1) with (Z.succ (Zpos (digits2_pos m) - 1)) by lia.
    rewrite !Z.pow_succ_r by lia.
    revert IH. generalize (2 ^ (Z.pos (digits2_pos m) - 1)) (2 ^ Z.pos (digits2_pos m)). lia.
  - simpl. lia.
Qed.

(** ** Rounding keeps the sign, and a mantissa at or above [emin] is not lost *)

Definition emin64 : Z := SpecFloat.emin prec emax.

Lemma shr_record_of_loc_m m l : shr_m (shr_record_of_loc m l) = m.
Proof. destruct l as [|[ | | ]]; reflexivity. Qed.

Lemma fexp_ge_emin e : emin64 <= fexp prec emax e.
Proof. unfold fexp, emin64. lia. Qed.

Lemma shr_fexp_nonneg m e l :
  0 <= m -> 0 <= shr_m (fst (shr_fexp prec emax m e l)).
Proof.
  intros H. unfold shr_fexp, shr.
  destruct (fexp prec emax (Zdigits2 m + e) - e) as [|p|p]; simpl fst;
    try (rewrite shr_record_of_loc_m; assumption).
  rewrite iter_shr_m by (rewrite shr_record_of_loc_m; assumption).
  rewrite shr_record_of_loc_m. apply Z.div_pos; lia.
Qed.

Lemma shr_fexp_pos m e l :
  0 < m -> emin64 <= e ->
  0 < shr_m (fst (shr_fexp prec emax m e l))
  /\ emin64 <= snd (shr_fexp prec emax m e l).
Proof.
  intros Hm He. unfold shr_fexp, shr.
  destruct m as [|m|m]; try lia. simpl Zdigits2.
  pose proof (digits2_bounds m) as [Hlo _].
  remember (fexp prec emax (Z.pos (digits2_pos m) + e) - e) as n eqn:Hn.
  destruct n as [|p|p]; simpl fst; simpl snd;
    try (rewrite shr_record_of_loc_m; split; lia).
  rewrite iter_shr_m by (rewrite shr_record_of_loc_m; lia).
  rewrite shr_record_of_loc_m.
  assert (Hp : Z.pos p = Z.pos (digits2_pos m) - prec).
  { unfold fexp, emin64 in *. unfold prec in *. lia. }
  split; [|lia].
  apply Z.div_str_pos. split; [lia|].
  eapply Z.le_trans; [|exact Hlo].
  apply Z.pow_le_mono_r; [lia|]. unfold prec in Hp. lia.
Qed.

Lemma round_nearest_even_ge m l : m <= round_nearest_even m l.
Proof.
  destruct l as [|[ | | ]]; simpl; try lia. destruct (Z.even m); lia.
Qed.

(** The results that carry the sign [s]. *)
Definition signed (s : bool) (x : spec_float) : Prop :=
  match x with
  | S754_zero s' | S754_infinity s' | S754_finite s' _ _ => s' = s
  | S754_nan => False
  end.

(** The results above zero in magnitude that carry the sign [s]. *)
Definition strict (s : bool) (x : spec_float) : Prop :=
  match x with
  | S754_infinity s' | S754_finite s' _ _ => s' = s
  | S754_zero _ | S754_nan => False
  end.

Lemma binary_round_aux_signed s m e l :
  0 <= m -> signed s (binary_round_aux prec emax s m e l).
Proof.
  intros Hm. unfold binary_round_aux.
  pose proof (shr_fexp_nonneg e l Hm) as H1.
  destruct (shr_fexp prec emax m e l) as [r1 e1]. simpl fst in H1.
  assert (H2 : 0 <= round_nearest_even (shr_m r1) (loc_of_shr_record r1)).
  { pose proof (round_nearest_even_ge (shr_m r1) (loc_of_shr_record r1)). lia. }
  pose proof (shr_fexp_nonneg e1 loc_Exact H2) as H3.
  destruct (shr_fexp prec emax _ e1 loc_Exact) as [r2 e2]. simpl fst in H3.
  destruct (shr_m r2) as [|p|p]; [reflexivity| |lia].
  destruct (e2 <=? emax - prec); reflexivity.
Qed.

Lemma binary_round_aux_strict s m e l :
  0 < m -> emin64 <= e -> strict s (binary_round_aux prec emax s m e l).
Proof.
  intros Hm He. unfold binary_round_aux.
  pose proof (shr_fexp_pos l Hm He) as [H1 H1e].
  destruct (shr_fexp prec emax m e l) as [r1 e1]. simpl fst in H1; simpl snd in H1e.
  assert (H2 : 0 < round_nearest_even (shr_m r1) (loc_of_shr_record r1)).
  { pose proof (round_nearest_even_ge (shr_m r1) (loc_of_shr_record r1)). lia. }
  pose proof (shr_fexp_pos loc_Exact H2 H1e) as [H3 _].
  destruct (shr_fexp prec emax _ e1 loc_Exact) as [r2 e2]. simpl fst in H3.
  destruct (shr_m r2) as [|p|p]; [lia| |lia].
  destruct (e2 <=? emax - prec); reflexivity.
Qed.

Lemma shl_align_snd m e e' :
  emin64 <= e -> emin64 <= e' -> emin64 <= snd (shl_align m e e').
Proof. intros. unfold shl_align. destruct (e' - e); simpl; lia. Qed.

Lemma binary_round_signed s m e : signed s (binary_round prec emax s m e).
Proof.
  unfold binary_round. destruct (shl_align m e _) as [mz ez].
  apply binary_round_aux_signed. lia.
Qed.

Lemma binary_round_strict s m e :
  emin64 <= e -> strict s (binary_round prec emax s m e).
Proof.
  intros He. unfold binary_round.
  pose proof (@shl_align_snd m e (fexp prec emax (Z.pos (digits2_pos m) + e)) He
                (fexp_ge_emin _)) as H.
  destruct (shl_align m e _) as [mz ez]. simpl snd in H.
  apply binary_round_aux_strict; [lia|assumption].
Qed.

(** ** Numbers that are not NaN and not below zero *)

(** Not NaN, and not below zero. *)
Definition NNs (x : spec_float) : Prop :=
  match x with
  | S754_zero _ => True
  | S754_infinity s | S754_finite s _ _ => s = false
  | S754_nan => False
  end.

(** Finite, and not below zero. *)
Definition FNs (x : spec_float) : Prop :=
  match x with
  | S754_zero _ => True
  | S754_finite s _ _ => s = false
  | _ => False
  end.

(** Finite, and above zero. *)
Definition Poss (x : spec_float) : Prop :=
  match x with
  | S754_finite s _ _ => s = false
  | _ => False
  end.

Lemma signed_NNs x : signed false x -> NNs x.
Proof. destruct x; simpl; auto. Qed.

Lemma FNs_NNs x : FNs x -> NNs x.
Proof. destruct x; simpl; tauto. Qed.

Lemma SFmul_NNs x y : FNs x -> FNs y -> NNs (SFmul prec emax x y).
Proof.
  destruct x as [sx|sx| |sx mx ex], y as [sy|sy| |sy my ey]; simpl;
    try tauto.
  intros -> ->. apply signed_NNs, binary_round_aux_signed. lia.
Qed.

Lemma SFadd_NNs x y : NNs x -> NNs y -> NNs (SFadd prec emax x y).
Proof.
  destruct x as [sx|sx| |sx mx ex], y as [sy|sy| |sy my ey]; simpl;
    try tauto; try (intros; subst; simpl; tauto).
  - destruct sx, sy; simpl; tauto.
  - intros -> ->. simpl cond_Zopp.
    apply signed_NNs. apply binary_round_signed.
Qed.

Lemma SFdiv_NNs x y : FNs x -> Poss y -> NNs (SFdiv prec emax x y).
Proof.
  destruct x as [sx|sx| |sx mx ex], y as [sy|sy| |sy my ey]; simpl;
    try tauto.
  intros -> ->. unfold SFdiv_core_binary.
  set (m' := match _ with Z0 => Z.pos mx | Zpos _ => _ | Zneg _ => 0 end).
  assert (Hm' : 0 <= m').
  { unfold m'. destruct (_ - _ - _); try lia. apply Z.shiftl_nonneg. lia. }
  pose proof (Z.div_pos m' (Z.pos my) Hm' ltac:(lia)) as Hq.
  unfold Z.div in Hq.
  destruct (Z.div_eucl m' (Z.pos my)) as [q r]. simpl fst in Hq.
  apply signed_NNs, binary_round_aux_signed. assumption.
Qed.

(** ** The exact value, in units of the least positive number *)

Definition top : Z := 2 ^ 2098.

Definition rankS (x : spec_float) : Z :=
  match x with
  | S754_zero _ | S754_nan => 0
  | S754_finite _ m e => Z.pos m * 2 ^ (e - emin64)
  | S754_infinity _ => top
  end.

Ltac flia :=
  unfold fexp, emin64, SpecFloat.emin, emax, prec in *; lia.

Lemma valid_finite s m e :
  valid_binary (S754_finite s m e) = true ->
  emin64 <= e <= emax - prec /\ Z.pos m < 2 ^ prec
  /\ (emin64 < e -> 2 ^ (prec - 1) <= Z.pos m).
Proof.
  unfold SpecFloat.valid_binary, bounded, canonical_mantissa. intros H.
  apply andb_true_iff in H as [H1 H2].
  apply Z.eqb_eq in H1. apply Z.leb_le in H2.
  pose proof (digits2_bounds m) as [Hlo Hhi].
  assert (Hd : Z.pos (digits2_pos m) <= prec) by (clear Hlo Hhi; flia).
  split; [clear Hlo Hhi; flia|]. split.
  - eapply Z.lt_le_trans; [exact Hhi|]. apply Z.pow_le_mono_r; lia.
  - intros He.
    assert (Hp : Z.pos (digits2_pos m) = prec) by (clear Hlo Hhi; flia).
    rewrite <- Hp. exact Hlo.
Qed.

Lemma rankS_finite_bounds s m e :
  valid_binary (S754_finite s m e) = true ->
  0 < rankS (S754_finite s m e) < top.
Proof.
  intros H. apply valid_finite in H as [[He1 He2] [Hm _]]. cbn [rankS].
  assert (Hk : 0 < 2 ^ (e - emin64)) by (apply Z.pow_pos_nonneg; lia).
  split; [apply Z.mul_pos_pos; lia|].
  apply Z.lt_le_trans with (2 ^ prec * 2 ^ (e - emin64)).
  - apply Z.mul_lt_mono_pos_r; assumption.
  - unfold top. change 2098 with (prec + (emax - prec - emin64)).
    assert (Hr : 0 <= emax - prec - emin64) by (vm_compute; discriminate).
    rewrite Z.pow_add_r; [|unfold prec; lia|exact Hr].
    apply Z.mul_le_mono_nonneg_l; [apply Z.pow_nonneg; lia|].
    apply Z.pow_le_mono_r; lia.
Qed.

Lemma top_pos : 0 < top.
Proof. unfold top. apply Z.pow_pos_nonneg; lia. Qed.

Lemma rankS_bounds x :
  valid_binary x = true -> 0 <= rankS x <= top.
Proof.
  intros H. pose proof top_pos. destruct x as [s|s| |s m e]; cbn [rankS]; try lia.
  pose proof (rankS_finite_bounds _ _ _ H). cbn [rankS] in *. lia.
Qed.

(** [SFcompare] compares exact values. *)
Lemma SFcompare_rank x y :
  valid_binary x = true -> valid_binary y = true -> NNs x -> NNs y ->
  SFcompare x y = Some (rankS x ?= rankS y).
Proof.
  intros Vx Vy Nx Ny. pose proof top_pos as Ht.
  destruct x as [sx|sx| |sx mx ex], y as [sy|sy| |sy my ey];
    cbn [NNs] in Nx, Ny; try tauto; subst;
    try pose proof (rankS_finite_bounds _ _ _ Vx) as Bx;
    try pose proof (rankS_finite_bounds _ _ _ Vy) as By;
    cbn [SFcompare]; f_equal; symmetry;
    try solve [ apply Z.compare_eq_iff; reflexivity
              | apply Z.compare_lt_iff; cbn [rankS] in *; lia
              | apply Z.compare_gt_iff; cbn [rankS] in *; lia ].
  apply valid_finite in Vx as [[Hx1 Hx2] [Hmx Hnx]].
    apply valid_finite in Vy as [[Hy1 Hy2] [Hmy Hny]].
    clear Bx By. cbn [rankS].
    destruct (Z.compare_spec ex ey) as [He|He|He].
    + subst ey. rewrite Pos.compare_cont_spec. cbn [Pos.switch_Eq].
      change (mx ?= my)%positive with (Z.pos mx ?= Z.pos my).
      symmetry.
      replace (Pos.switch_Eq Eq (Z.pos mx ?= Z.pos my)) with (Z.pos mx ?= Z.pos my)
        by (destruct (Z.pos mx ?= Z.pos my); reflexivity).
      apply Zmult_compare_compat_r.
      apply Z.lt_gt, Z.pow_pos_nonneg; lia.
    + apply Z.compare_lt_iff.
      apply Z.lt_le_trans with (2 ^ prec * 2 ^ (ex - emin64)).
      * apply Z.mul_lt_mono_pos_r; [apply Z.pow_pos_nonneg; lia|assumption].
      * apply Z.le_trans with (2 ^ (prec - 1) * 2 ^ (ey - emin64)).
        -- rewrite <- !Z.pow_add_r by (unfold prec; lia).
           apply Z.pow_le_mono_r; unfold prec; lia.
        -- apply Z.mul_le_mono_nonneg_r; [apply Z.pow_nonneg; lia|].
           apply Hny. lia.
    + apply Z.compare_gt_iff.
      apply Z.lt_le_trans with (2 ^ prec * 2 ^ (ey - emin64)).
      * apply Z.mul_lt_mono_pos_r; [apply Z.pow_pos_nonneg; lia|assumption].
      * apply Z.le_trans with (2 ^ (prec - 1) * 2 ^ (ex - emin64)).
        -- rewrite <- !Z.pow_add_r by (unfold prec; lia).
           apply Z.pow_le_mono_r; unfold prec; lia.
        -- apply Z.mul_le_mono_nonneg_r; [apply Z.pow_nonneg; lia|].
           apply Hnx. lia.
Qed.

Lemma iter_xO m d : Z.pos (Pos.iter xO m d) = Z.pos m * 2 ^ Z.pos d.
Proof.
  induction d as [|d IH] using Pos.peano_ind.
  - simpl. lia.
  - rewrite Pos.iter_succ, Pos2Z.inj_succ, Z.pow_succ_r by lia.
    rewrite Pos2Z.inj_xO, IH. lia.
Qed.

Lemma shl_align_fst m e ez :
  ez <= e -> Z.pos (fst (shl_align m e ez)) = Z.pos m * 2 ^ (e - ez).
Proof.
  intros H. unfold shl_align.
  remember (ez - e) as d eqn:Hd. destruct d as [|d|d]; cbn [fst].
  - replace (e - ez) with 0 by lia. lia.
  - lia.
  - rewrite iter_xO. f_equal. f_equal. lia.
Qed.

(** The sign of a difference is the order of the exact values. *)
Lemma SFsub_gt_zero x y :
  valid_binary x = true -> valid_binary y = true -> NNs x -> NNs y ->
  SFltb (S754_zero false) (SFsub prec emax x y) = (rankS y <? rankS x).
Proof.
  intros Vx Vy Nx Ny. pose proof top_pos as Ht.
  destruct x as [sx|sx| |sx mx ex], y as [sy|sy| |sy my ey];
    cbn [NNs] in Nx, Ny; try tauto; subst;
    try pose proof (rankS_finite_bounds _ _ _ Vx) as Bx;
    try pose proof (rankS_finite_bounds _ _ _ Vy) as By;
    cbn [SFsub]; symmetry;
    try solve [ try destruct sx; try destruct sy;
                cbv [SFltb SFcompare negb]; cbn [rankS] in *;
                first [ apply Z.ltb_lt; lia | apply Z.ltb_ge; lia ] ].
  apply valid_finite in Vx as [[Hx1 Hx2] _].
  apply valid_finite in Vy as [[Hy1 Hy2] _].
  cbn [cond_Zopp]. cbn [rankS] in *.
  set (ez := Z.min ex ey).
  assert (Hez : emin64 <= ez) by (unfold ez; lia).
  rewrite !shl_align_fst by (unfold ez; lia).
  assert (Hx : Z.pos mx * 2 ^ (ex - emin64)
               = Z.pos mx * 2 ^ (ex - ez) * 2 ^ (ez - emin64)).
  { rewrite <- Z.mul_assoc, <- Z.pow_add_r by lia. do 2 f_equal. lia. }
  assert (Hy : Z.pos my * 2 ^ (ey - emin64)
               = Z.pos my * 2 ^ (ey - ez) * 2 ^ (ez - emin64)).
  { rewrite <- Z.mul_assoc, <- Z.pow_add_r by (unfold ez; lia). do 2 f_equal. lia. }
  rewrite Hx, Hy.
  assert (Hk : 0 < 2 ^ (ez - emin64)) by (apply Z.pow_pos_nonneg; lia).
  clear Hx Hy Bx By.
  generalize (Z.pos mx * 2 ^ (ex - ez)) (Z.pos my * 2 ^ (ey - ez)).
  intros X Y.
  remember (X - Y) as M eqn:HM.
  destruct M as [|p|p]; cbn [binary_normalize].
  - cbv [SFltb SFcompare]. apply Z.ltb_ge. nia.
  - pose proof (@binary_round_strict false p ez Hez) as Hs.
    destruct (binary_round prec emax false p ez); cbn in Hs; try tauto; subst;
      cbv [SFltb SFcompare]; apply Z.ltb_lt; nia.
  - pose proof (binary_round_signed true p ez) as Hs.
    destruct (binary_round prec emax true p ez); cbn in Hs; try tauto; subst;
      cbv [SFltb SFcompare]; apply Z.ltb_ge; nia.
Qed.

(** ** The same facts on numbers *)

Definition NN (x : float) : Prop := NNs (Prim2SF x).
Definition FN (x : float) : Prop := FNs (Prim2SF x).
Definition rank (x : float) : Z := rankS (Prim2SF x).

Lemma FN_NN x : FN x -> NN x.
Proof. apply FNs_NNs. Qed.

Lemma add_NN a b : NN a -> NN b -> NN (a + b).
Proof. unfold NN. rewrite add_spec. apply SFadd_NNs. Qed.

Lemma mul_NN a b : FN a -> FN b -> NN (a * b).
Proof. unfold NN, FN. rewrite mul_spec. apply SFmul_NNs. Qed.

Lemma div_NN a b : FN a -> Poss (Prim2SF b) -> NN (a / b).
Proof. unfold NN, FN. rewrite div_spec. apply SFdiv_NNs. Qed.

Lemma ltb_rank a b : NN a -> NN b -> (a <? b)%float = (rank a <? rank b).
Proof.
  intros Ha Hb. rewrite ltb_spec. unfold SFltb, rank.
  rewrite SFcompare_rank by (auto using Prim2SF_valid).
  unfold Z.ltb. destruct (_ ?= _); reflexivity.
Qed.

Lemma leb_rank a b : NN a -> NN b -> (a <=? b)%float = (rank a <=? rank b).
Proof.
  intros Ha Hb. rewrite leb_spec. unfold SFleb, rank.
  rewrite SFcompare_rank by (auto using Prim2SF_valid).
  unfold Z.leb. destruct (_ ?= _); reflexivity.
Qed.

Lemma sub_gt_zero a b :
  NN a -> NN b -> (0 <? a - b)%float = (rank b <? rank a).
Proof.
  intros Ha Hb. rewrite ltb_spec, sub_spec.
  change (Prim2SF 0) with (S754_zero false).
  apply SFsub_gt_zero; auto using Prim2SF_valid.
Qed.

End IEEE.

(* ================================================================== *)
(** * Facts about digits and patterns *)
(* ================================================================== *)

Lemma isDigit_cases c :
  isDigit c = true ->
  (c = 48 \/ c = 49 \/ c = 50 \/ c = 51 \/ c = 52 \/ c = 53 \/ c = 54
   \/ c = 55 \/ c = 56 \/ c = 57)%N.
Proof.
  unfold isDigit. intros H. apply andb_true_iff in H as [H1 H2].
  apply N.leb_le in H1, H2. lia.
Qed.

Ltac digit_cases H :=
  apply isDigit_cases in H;
  destruct H as [H|[H|[H|[H|[H|[H|[H|[H|[H|H]]]]]]]]]; subst.

Lemma digit_not_ws c : isDigit c = true -> isWhiteSpace c = false.
Proof. intros H. digit_cases H; reflexivity. Qed.

Lemma digitValue_digit c :
  isDigit c = true -> digitValue 10 c = Some (Z.of_N c - 48)%Z.
Proof. intros H. unfold digitValue. rewrite H. reflexivity. Qed.

(** The number a string of decimal digits denotes, continuing from [acc]. *)
Fixpoint valueOf (acc : Z) (s : jsstring) : Z :=
  match s with
  | [] => acc
  | c :: s' => valueOf (acc * 10 + (Z.of_N c - 48)) s'
  end.

Definition allDigits (s : jsstring) : Prop := Forall (fun c => isDigit c = true) s.

Lemma readDigits_digits s : forall a,
  allDigits s -> readDigits 10 (Some a) s = Some (valueOf a s).
Proof.
  induction s as [|c s IH]; intros a H; [reflexivity|].
  inversion H as [|? ? Hc Hs]; subst. cbn [readDigits valueOf].
  rewrite digitValue_digit by assumption. apply IH. assumption.
Qed.

Lemma readDigits_digits_None c s :
  allDigits (c :: s) -> readDigits 10 None (c :: s) = Some (valueOf 0 (c :: s)).
Proof.
  intros H. inversion H as [|? ? Hc Hs]; subst. cbn [readDigits valueOf].
  rewrite digitValue_digit by assumption. rewrite readDigits_digits by assumption.
  reflexivity.
Qed.

(** [parseInt] reads a string of decimal digits as the number it denotes. *)
Lemma parseInt_digits s :
  s <> [] -> allDigits s -> parseInt s = Some (valueOf 0 s).
Proof.
  destruct s as [|c s]; [congruence|]. intros _ H.
  pose proof (readDigits_digits_None H) as R.
  inversion H as [|? ? Hc Hs]; subst.
  unfold parseInt. cbn [trimStart]. rewrite digit_not_ws by assumption.
  destruct s as [|c' s].
  - clear H. digit_cases Hc; rewrite R; reflexivity.
  - inversion Hs as [|? ? Hc' Hs']; subst. clear H Hs.
    digit_cases Hc; try (rewrite R; reflexivity).
    digit_cases Hc'; rewrite R; reflexivity.
Qed.

Lemma valueOf_bounds s : forall a,
  allDigits s -> (0 <= a)%Z ->
  (0 <= valueOf a s < (a + 1) * 10 ^ Z.of_nat (length s))%Z.
Proof.
  induction s as [|c s IH]; intros a H Ha.
  - cbn. lia.
  - inversion H as [|? ? Hc Hs]; subst.
    assert (Hd : (0 <= Z.of_N c - 48 <= 9)%Z).
    { unfold isDigit in Hc. apply andb_true_iff in Hc as [H1 H2].
      apply N.leb_le in H1, H2. lia. }
    cbn [valueOf length]. rewrite Nat2Z.inj_succ, Z.pow_succ_r by lia.
    specialize (IH (a * 10 + (Z.of_N c - 48))%Z Hs ltac:(lia)).
    assert (0 < 10 ^ Z.of_nat (length s))%Z by (apply Z.pow_pos_nonneg; lia).
    nia.
Qed.

Lemma matchHere_cons k p s :
  matchHere (k :: p) s = true ->
  exists c s', s = c :: s' /\ clsMatch k c = true /\ matchHere p s' = true.
Proof.
  destruct s as [|c s']; cbn [matchHere]; [discriminate|].
  intros H. apply andb_true_iff in H as [H1 H2]. eauto.
Qed.

Lemma search_matchHere p s m : search p s = Some m -> matchHere p m = true.
Proof.
  induction s as [|c s IH]; cbn [search].
  - destruct (matchHere p []) eqn:E; [|discriminate]. intros [= <-]. exact E.
  - destruct (matchHere p (c :: s)) eqn:E; [intros [= <-]; exact E|]. exact IH.
Qed.

Lemma search_suffix p s m : search p s = Some m -> exists pre, s = pre ++ m.
Proof.
  induction s as [|c s IH]; cbn [search].
  - destruct (matchHere p []); [|discriminate]. intros [= <-]. exists []. reflexivity.
  - destruct (matchHere p (c :: s)).
    + intros [= <-]. exists []. reflexivity.
    + intros H. destruct (IH H) as [pre ->]. exists (c :: pre). reflexivity.
Qed.

(* ================================================================== *)
(** * Facts about [timeToSeconds] *)
(* ================================================================== *)

Import IEEE.

Definition isFN (x : float) : bool :=
  match Prim2SF x with
  | S754_zero _ | S754_finite false _ _ => true
  | _ => false
  end.

Lemma isFN_FN x : isFN x = true -> FN x.
Proof.
  unfold isFN, FN. destruct (Prim2SF x) as [| | |[|] ? ?]; cbn;
    intros; auto; discriminate.
Qed.

(** The integers a field of a timestamp can hold are numbers as they are. *)
Lemma ofZ_field_FN z : (0 <= z < 1000)%Z -> FN (ofZ z).
Proof.
  intros Hz. apply isFN_FN.
  assert (T : forallb (fun n => isFN (ofZ (Z.of_nat n))) (seq 0 1000) = true)
    by (vm_compute; reflexivity).
  rewrite forallb_forall in T.
  specialize (T (Z.to_nat z)). rewrite Z2Nat.id in T by lia.
  apply T. apply in_seq. lia.
Qed.

Lemma parseIntNum_digits_FN s :
  s <> [] -> allDigits s -> (length s <= 3)%nat ->
  FN (Format.parseIntNum s).
Proof.
  intros Hne Hd Hl. unfold Format.parseIntNum.
  rewrite parseInt_digits by assumption.
  apply ofZ_field_FN.
  pose proof (@valueOf_bounds s 0%Z Hd ltac:(lia)) as B.
  assert ((10 ^ Z.of_nat (length s) <= 10 ^ 3)%Z)
    by (apply Z.pow_le_mono_r; lia).
  lia.
Qed.

Ltac match_step H c Hc :=
  apply matchHere_cons in H;
  destruct H as (c & ? & -> & Hc & H); cbn [clsMatch] in Hc.

Lemma secondsOfMatch_NN m :
  matchHere Format.timePattern m = true -> NN (Format.secondsOfMatch m).
Proof.
  intros H. unfold Format.timePattern in H.
  match_step H c0 H0. match_step H c1 H1. match_step H x2 H2.
  match_step H c3 H3. match_step H c4 H4. match_step H x5 H5.
  match_step H c6 H6. match_step H c7 H7. match_step H x8 H8.
  match_step H c9 H9. match_step H c10 H10. match_step H c11 H11.
  unfold Format.secondsOfMatch, substr. cbn [skipn firstn].
  repeat apply add_NN.
  - apply mul_NN; [|apply isFN_FN; reflexivity].
    apply parseIntNum_digits_FN; [discriminate|repeat constructor; assumption|cbn; lia].
  - apply mul_NN; [|apply isFN_FN; reflexivity].
    apply parseIntNum_digits_FN; [discriminate|repeat constructor; assumption|cbn; lia].
  - apply FN_NN.
    apply parseIntNum_digits_FN; [discriminate|repeat constructor; assumption|cbn; lia].
  - apply div_NN; [|reflexivity].
    apply parseIntNum_digits_FN; [discriminate|repeat constructor; assumption|cbn; lia].
Qed.

(** [timeToSeconds] never returns NaN or a number below zero. *)
Lemma timeToSeconds_NN s : NN (Format.timeToSeconds s).
Proof.
  unfold Format.timeToSeconds.
  destruct (search Format.timePattern s) as [m|] eqn:E.
  - apply secondsOfMatch_NN. eapply search_matchHere; eassumption.
  - apply FN_NN, isFN_FN. reflexivity.
Qed.

(* ================================================================== *)
(** * Facts about the sort *)
(* ================================================================== *)

Section SortFacts.

Variable A : Type.
Variable key : A -> float.
Hypothesis key_NN : forall a, NN (key a).

(** The comparators of the source have this shape. *)
Definition byKey (a b : A) : float := (key a - key b)%float.

(** Ascending order of the key, by its exact value. *)
Definition keyLe (a b : A) : Prop := (rank (key a) <= rank (key b))%Z.

Lemma byKey_gtZero a b :
  Themes.gtZero (byKey a b) = (rank (key b) <? rank (key a))%Z.
Proof. unfold Themes.gtZero, byKey. apply sub_gt_zero; apply key_NN. Qed.

Lemma insert_Permutation a l :
  Permutation (a :: l) (Themes.insert byKey a l).
Proof.
  induction l as [|b l IH]; cbn [Themes.insert]; [reflexivity|].
  destruct (Themes.gtZero (byKey a b)); [|reflexivity].
  rewrite perm_swap. apply perm_skip. exact IH.
Qed.

Lemma sort_Permutation l : Permutation l (Themes.sort byKey l).
Proof.
  induction l as [|a l IH]; cbn [Themes.sort fold_right]; [reflexivity|].
  rewrite <- insert_Permutation. apply perm_skip. exact IH.
Qed.

Lemma insert_StronglySorted a l :
  StronglySorted keyLe l -> StronglySorted keyLe (Themes.insert byKey a l).
Proof.
  induction l as [|b l IH]; intros H; cbn [Themes.insert].
  - repeat constructor.
  - inversion H as [|? ? Hl Hb]; subst. rewrite byKey_gtZero.
    destruct (Z.ltb_spec (rank (key b)) (rank (key a))) as [Hlt|Hge].
    + constructor; [apply IH; assumption|].
      rewrite <- insert_Permutation. constructor; [unfold keyLe; lia|assumption].
    + constructor; [assumption|]. constructor; [exact Hge|].
      eapply Forall_impl; [|exact Hb]. unfold keyLe. intros; lia.
Qed.

Lemma sort_StronglySorted l : StronglySorted keyLe (Themes.sort byKey l).
Proof.
  induction l as [|a l IH]; cbn [Themes.sort fold_right]; [constructor|].
  apply insert_StronglySorted. exact IH.
Qed.

(** The sort leaves a list in ascending order as it is. *)
Lemma sort_sorted_id l : StronglySorted keyLe l -> Themes.sort byKey l = l.
Proof.
  induction l as [|a l IH]; intros H; [reflexivity|].
  inversion H as [|? ? Hl Ha]; subst. cbn [Themes.sort fold_right].
  fold (Themes.sort byKey l). rewrite IH by assumption.
  destruct l as [|b l]; [reflexivity|]. cbn [Themes.insert].
  rewrite byKey_gtZero. inversion Ha as [|? ? Hab _]; subst.
  destruct (Z.ltb_spec (rank (key b)) (rank (key a))); [unfold keyLe in Hab; lia|].
  reflexivity.
Qed.

End SortFacts.

Lemma insert_map (A B : Type) (f : A -> B) (cmp : B -> B -> float) a l :
  List.map f (Themes.insert (fun x y => cmp (f x) (f y)) a l)
  = Themes.insert cmp (f a) (List.map f l).
Proof.
  induction l as [|b l IH]; cbn [Themes.insert List.map]; [reflexivity|].
  destruct (Themes.gtZero (cmp (f a) (f b))); cbn [List.map]; [|reflexivity].
  rewrite IH. reflexivity.
Qed.

(** Sorting references by what they refer to sorts what they refer to. *)
Lemma sort_map (A B : Type) (f : A -> B) (cmp : B -> B -> float) l :
  List.map f (Themes.sort (fun x y => cmp (f x) (f y)) l)
  = Themes.sort cmp (List.map f l).
Proof.
  induction l as [|a l IH]; [reflexivity|].
  cbn [Themes.sort fold_right List.map].
  fold (Themes.sort (fun x y => cmp (f x) (f y)) l).
  fold (Themes.sort cmp (List.map f l)).
  rewrite insert_map, IH. reflexivity.
Qed.

(* ================================================================== *)
(** * Facts about the merge loop *)
(* ================================================================== *)

Section MergeFacts.

Import Themes.

Variable toLowerCase : jsstring -> jsstring.

Local Abbreviation mergeable := (Themes.mergeable toLowerCase).
Local Abbreviation mergeLoop := (Themes.mergeLoop toLowerCase).

Definition startKey (t : ThemeEntry) : float := Format.timeToSeconds (start t).

Lemma startKey_NN t : NN (startKey t).
Proof. apply timeToSeconds_NN. Qed.

(** The loop from a current span on, as the list it emits. *)
Fixpoint scan (c : ThemeEntry) (rest : list ThemeEntry) : list ThemeEntry :=
  match rest with
  | [] => [c]
  | t :: rest' =>
      if mergeable c t then scan (extend c t) rest' else c :: scan t rest'
  end.

Lemma mergeLoop_Some rest : forall acc c,
  mergeLoop acc (Some c) rest = acc ++ scan c rest.
Proof.
  induction rest as [|t rest IH]; intros acc c; cbn [Themes.mergeLoop scan].
  - reflexivity.
  - destruct (mergeable c t); rewrite IH; [reflexivity|].
    rewrite <- app_assoc. reflexivity.
Qed.

Lemma mergeLoop_start l :
  mergeLoop [] None l = match l with [] => [] | t :: rest => scan t rest end.
Proof. destruct l as [|t rest]; [reflexivity|]. cbn [Themes.mergeLoop]. apply mergeLoop_Some. Qed.

Lemma extend_start c t : start (extend c t) = start c.
Proof. unfold extend. destruct (_ <? _)%float; reflexivity. Qed.

Lemma extend_theme c t : theme (extend c t) = theme c.
Proof. unfold extend. destruct (_ <? _)%float; reflexivity. Qed.

(** The test reads the start and the label of the incoming span only. *)
Lemma mergeable_incoming c t t' :
  start t = start t' -> theme t = theme t' -> mergeable c t = mergeable c t'.
Proof. unfold Themes.mergeable. intros -> ->. reflexivity. Qed.

(** The first span emitted has the start and the label the loop began with. *)
Lemma scan_head rest : forall c,
  exists c' out, scan c rest = c' :: out
                 /\ start c' = start c /\ theme c' = theme c.
Proof.
  induction rest as [|t rest IH]; intros c; cbn [scan].
  - eauto.
  - destruct (mergeable c t).
    + destruct (IH (extend c t)) as (c' & out & E & Hs & Ht).
      rewrite extend_start in Hs. rewrite extend_theme in Ht. eauto.
    + eauto.
Qed.

(** No two neighbours of the output would merge. *)
Definition unmergeable (a b : ThemeEntry) : Prop := mergeable a b = false.

Lemma scan_unmergeable rest : forall c, Sorted unmergeable (scan c rest).
Proof.
  induction rest as [|t rest IH]; intros c; cbn [scan].
  - repeat constructor.
  - destruct (mergeable c t) eqn:E; [apply IH|].
    constructor; [apply IH|].
    destruct (scan_head rest t) as (c' & out & -> & Hs & Ht).
    constructor. unfold unmergeable.
    rewrite (@mergeable_incoming c c' t Hs Ht). exact E.
Qed.

(** On such a list the loop changes nothing. *)
Lemma scan_fixed rest : forall c,
  Sorted unmergeable (c :: rest) -> scan c rest = c :: rest.
Proof.
  induction rest as [|t rest IH]; intros c H; cbn [scan]; [reflexivity|].
  inversion H as [|? ? Hs Hh]; subst. inversion Hh as [|? ? Hct]; subst.
  unfold unmergeable in Hct. rewrite Hct. rewrite IH by assumption. reflexivity.
Qed.

Lemma scan_Forall_keyLe x rest : forall c,
  Forall (keyLe startKey x) (c :: rest) -> Forall (keyLe startKey x) (scan c rest).
Proof.
  induction rest as [|t rest IH]; intros c H; cbn [scan]; [assumption|].
  inversion H as [|? ? Hc Hr]; subst.
  destruct (mergeable c t).
  - apply IH. inversion Hr; subst. constructor; [|assumption].
    unfold keyLe, startKey in *. rewrite extend_start. assumption.
  - constructor; [assumption|]. apply IH. assumption.
Qed.

(** The output is in ascending order of start when the input is. *)
Lemma scan_StronglySorted rest : forall c,
  StronglySorted (keyLe startKey) (c :: rest) ->
  StronglySorted (keyLe startKey) (scan c rest).
Proof.
  induction rest as [|t rest IH]; intros c H; cbn [scan]; [assumption|].
  inversion H as [|? ? Hs Hf]; subst.
  destruct (mergeable c t).
  - apply IH. inversion Hs as [|? ? Hs' Hf']; subst. inversion Hf; subst.
    constructor; [assumption|].
    eapply Forall_impl; [|eassumption].
    unfold keyLe, startKey. intros a. rewrite extend_start. auto.
  - constructor; [apply IH; assumption|].
    apply scan_Forall_keyLe. assumption.
Qed.

Lemma sort_byStart_StronglySorted l :
  StronglySorted (keyLe startKey) (sort byStart l).
Proof. exact (sort_StronglySorted startKey startKey_NN l). Qed.

Lemma sort_byStart_id l :
  StronglySorted (keyLe startKey) l -> sort byStart l = l.
Proof. exact (@sort_sorted_id _ startKey startKey_NN l). Qed.

Lemma mergeOverlappingThemes_fixed l :
  StronglySorted (keyLe startKey) l -> Sorted unmergeable l ->
  mergeOverlappingThemes toLowerCase l = l.
Proof.
  intros Hs Hu. unfold mergeOverlappingThemes.
  rewrite sort_byStart_id by assumption. rewrite mergeLoop_start.
  destruct l as [|t rest]; [reflexivity|]. apply scan_fixed. assumption.
Qed.

Lemma mergeOverlappingThemes_shape l :
  StronglySorted (keyLe startKey) (mergeOverlappingThemes toLowerCase l)
  /\ Sorted unmergeable (mergeOverlappingThemes toLowerCase l).
Proof.
  unfold mergeOverlappingThemes. rewrite mergeLoop_start.
  pose proof (sort_byStart_StronglySorted l) as H.
  destruct (sort byStart l) as [|t rest]; [split; constructor|].
  split; [apply scan_StronglySorted; assumption|apply scan_unmergeable].
Qed.

End MergeFacts.

(* ================================================================== *)
(** * Facts about the store *)
(* ================================================================== *)

Section StoreFacts.

Import Themes.

Variable toLowerCase : jsstring -> jsstring.

Lemma deref_alloc_old (h : store) v l :
  (l < length h)%nat -> deref (fst (alloc h v)) l = deref h l.
Proof. intros H. unfold deref, alloc. cbn [fst]. apply app_nth1. exact H. Qed.

Lemma deref_alloc_new (h : store) v :
  deref (fst (alloc h v)) (snd (alloc h v)) = v.
Proof.
  unfold deref, alloc. cbn [fst snd]. rewrite app_nth2 by lia.
  rewrite Nat.sub_diag. reflexivity.
Qed.

Lemma write_length (h : store) : forall l v, length (write h l v) = length h.
Proof.
  induction h as [|x h IH]; intros [|l] v; cbn [write length]; auto.
Qed.

Lemma deref_write_same (h : store) : forall l v,
  (l < length h)%nat -> deref (write h l v) l = v.
Proof.
  unfold deref. induction h as [|x h IH]; intros [|l] v H; cbn in *; try lia.
  - reflexivity.
  - apply IH. lia.
Qed.

Lemma deref_write_other (h : store) : forall l l' v,
  l <> l' -> deref (write h l v) l' = deref h l'.
Proof.
  unfold deref. induction h as [|x h IH]; intros [|l] [|l'] v H; cbn;
    try reflexivity; try congruence.
  apply IH. congruence.
Qed.

Lemma map_deref_ext (h h' : store) (ls : list loc) :
  Forall (fun l => deref h' l = deref h l) ls ->
  List.map (deref h') ls = List.map (deref h) ls.
Proof.
  induction 1 as [|l ls E _ IH]; cbn [List.map]; [reflexivity|].
  rewrite E, IH. reflexivity.
Qed.

(** The loop on references: with the argument's objects below [n0] and the
    copies at or above it, the loop writes to the current copy only, returns
    copies only, and what it returns holds the values of the value loop. *)
Lemma mergeLoopRef_spec (n0 : nat) (themes : list loc) :
  forall (h : store) (acc : list loc) (cur : option loc),
  (n0 <= length h)%nat ->
  Forall (fun l => (l < n0)%nat) themes ->
  match cur with
  | Some c => (n0 <= c < length h)%nat /\ Forall (fun a => (n0 <= a < c)%nat) acc
  | None => acc = []
  end ->
  let (h', merged) := mergeLoopRef toLowerCase h acc cur themes in
  (length h <= length h')%nat
  /\ (forall l, (l < length h)%nat -> cur <> Some l -> deref h' l = deref h l)
  /\ Forall (fun l => (n0 <= l < length h')%nat) merged
  /\ List.map (deref h') merged
     = mergeLoop toLowerCase (List.map (deref h) acc)
         (option_map (deref h) cur) (List.map (deref h) themes).
Proof.
  induction themes as [|t rest IH]; intros h acc cur Hn Hth Hcur.
  - cbn [mergeLoopRef Themes.mergeLoop List.map].
    split; [lia|]. split; [reflexivity|].
    destruct cur as [c|].
    + destruct Hcur as [Hc Hacc]. split.
      * apply Forall_app. split.
        -- eapply Forall_impl; [|exact Hacc]. cbn. intros; lia.
        -- repeat constructor; lia.
      * rewrite map_app. reflexivity.
    + subst acc. split; [constructor|reflexivity].
  - inversion Hth as [|? ? Ht Hrest]; subst.
    cbn [mergeLoopRef Themes.mergeLoop List.map].
    destruct cur as [c|].
    + destruct Hcur as [Hc Hacc]. cbn [option_map].
      destruct (Themes.mergeable toLowerCase (deref h c) (deref h t)) eqn:E.
      * set (v := extend (deref h c) (deref h t)).
        set (h1 := write h c v).
        assert (L1 : length h1 = length h) by apply write_length.
        specialize (IH h1 acc (Some c)).
        destruct (mergeLoopRef toLowerCase h1 acc (Some c) rest) as [h' merged].
        destruct IH as (I1 & I2 & I3 & I4); [lia|assumption|split; [lia|assumption]|].
        split; [lia|]. split; [|split; [assumption|]].
        -- intros l Hl Hlc. rewrite I2 by (try lia; assumption).
           apply deref_write_other. intros Heq. apply Hlc. f_equal. exact Heq.
        -- rewrite I4. cbn [option_map]. f_equal.
           ++ apply map_deref_ext. eapply Forall_impl; [|exact Hacc].
              cbn. intros a Ha. apply deref_write_other. lia.
           ++ f_equal. apply deref_write_same. lia.
           ++ apply map_deref_ext. eapply Forall_impl; [|exact Hrest].
              cbn. intros a Ha. apply deref_write_other. lia.
      * pose proof (deref_alloc_new h (deref h t)) as Hnew.
        pose proof (fun l => @deref_alloc_old h (deref h t) l) as Hold.
        destruct (alloc h (deref h t)) as [h1 c'] eqn:Ea.
        assert (Ec : c' = length h) by (unfold alloc in Ea; congruence).
        assert (L1 : length h1 = S (length h)).
        { unfold alloc in Ea. inversion Ea; subst. rewrite length_app. cbn. lia. }
        cbn [fst snd] in Hnew, Hold.
        specialize (IH h1 (acc ++ [c]) (Some c')).
        destruct (mergeLoopRef toLowerCase h1 (acc ++ [c]) (Some c') rest)
          as [h' merged].
        destruct IH as (I1 & I2 & I3 & I4); [lia|assumption| |].
        { split; [lia|]. apply Forall_app. split.
          - eapply Forall_impl; [|exact Hacc]. cbn. intros; lia.
          - repeat constructor; lia. }
        split; [lia|]. split; [|split; [assumption|]].
        -- intros l Hl Hlc. rewrite I2 by (first [lia | intros [= ?]; lia]).
           apply Hold. exact Hl.
        -- rewrite I4. cbn [option_map]. rewrite Hnew, map_app. cbn [List.map].
           rewrite (Hold c) by lia. f_equal.
           ++ f_equal. apply map_deref_ext. eapply Forall_impl; [|exact Hacc].
              cbn. intros a Ha. apply Hold. lia.
           ++ apply map_deref_ext. eapply Forall_impl; [|exact Hrest].
              cbn. intros a Ha. apply Hold. lia.
    + subst acc. cbn [option_map List.map].
      pose proof (deref_alloc_new h (deref h t)) as Hnew.
      pose proof (fun l => @deref_alloc_old h (deref h t) l) as Hold.
      destruct (alloc h (deref h t)) as [h1 c'] eqn:Ea.
      assert (Ec : c' = length h) by (unfold alloc in Ea; congruence).
      assert (L1 : length h1 = S (length h)).
      { unfold alloc in Ea. inversion Ea; subst. rewrite length_app. cbn. lia. }
      cbn [fst snd] in Hnew, Hold.
      specialize (IH h1 [] (Some c')).
      destruct (mergeLoopRef toLowerCase h1 [] (Some c') rest) as [h' merged].
      destruct IH as (I1 & I2 & I3 & I4); [lia|assumption|split; [lia|constructor]|].
      split; [lia|]. split; [|split; [assumption|]].
      * intros l Hl _. rewrite I2 by (first [lia | intros [= ?]; lia]). apply Hold. exact Hl.
      * rewrite I4. cbn [option_map List.map]. rewrite Hnew. f_equal.
        apply map_deref_ext. eapply Forall_impl; [|exact Hrest].
        cbn. intros a Ha. apply Hold. lia.
Qed.

End StoreFacts.

Lemma StronglySorted_In_impl (A : Type) (R R' : A -> A -> Prop) (l : list A) :
  (forall a b, In a l -> In b l -> R a b -> R' a b) ->
  StronglySorted R l -> StronglySorted R' l.
Proof.
  induction l as [|x l IH]; intros H S; [constructor|].
  inversion S as [|? ? Sl Fx]; subst. constructor.
  - apply IH; [|assumption]. intros a b Ha Hb. apply H; right; assumption.
  - rewrite Forall_forall in *. intros b Hb.
    apply H; [left; reflexivity|right; assumption|apply Fx; assumption].
Qed.

(* ================================================================== *)
(** * Facts about the cue parser *)
(* ================================================================== *)

Section ParseFacts.

Import Srt.

(** A line the inner loop of [parseSrt] takes as text. *)
Definition isTextLine (l : jsstring) : bool :=
  negb (isBlank l) && negb (isIndexLine l).

(** The inner loop on its own: the text gathered and the lines left. *)
Fixpoint gather (txt : jsstring) (ls : list jsstring)
  : jsstring * list jsstring :=
  match ls with
  | [] => (txt, [])
  | l :: ls' =>
      if isTextLine l then gather (txt ++ l ++ [LF]) ls' else (txt, ls)
  end.

(** One pass of the outer loop, by cases. *)
Lemma parseLines_step line rest :
  parseLines (line :: rest)
  = if isBlank line then parseLines rest
    else match parseInt line with
         | None => parseLines rest
         | Some n =>
             match rest with
             | [] => []
             | tsLine :: rest' =>
                 match timestampMatch tsLine with
                 | None => parseLines rest'
                 | Some (st, en) =>
                     mkSubtitle n st en (trim (fst (gather [] rest')))
                       :: parseLines (snd (gather [] rest'))
                 end
             end
         end.
Proof.
  cbn [parseLines].
  destruct (isBlank line); [reflexivity|].
  destruct (parseInt line) as [n|]; [|reflexivity].
  destruct rest as [|tsLine rest']; [reflexivity|].
  destruct (timestampMatch tsLine) as [[st en]|]; [|reflexivity].
  match goal with
  | |- ?g [] rest' = _ =>
      enough (G : forall ls txt,
                 g txt ls
                 = mkSubtitle n st en (trim (fst (gather txt ls)))
                     :: parseLines (snd (gather txt ls))) by apply G
  end.
  induction ls as [|l ls IH]; intros txt; cbn [gather fst snd].
  - reflexivity.
  - unfold isTextLine. destruct (negb (isBlank l) && negb (isIndexLine l)).
    + apply IH.
    + reflexivity.
Qed.

Lemma gather_suffix ls : forall txt,
  exists taken, ls = taken ++ snd (gather txt ls).
Proof.
  induction ls as [|l ls IH]; intros txt; cbn [gather].
  - exists []. reflexivity.
  - destruct (isTextLine l).
    + destruct (IH (txt ++ l ++ [LF])) as [taken E].
      exists (l :: taken). cbn. rewrite <- E. reflexivity.
    + exists []. reflexivity.
Qed.

(** A cue comes from a line that has a match of the timestamp expression,
    and takes the first eight units of each of the two timestamps. *)
Definition cueOf (lines : list jsstring) (sub : Subtitle) : Prop :=
  exists line m,
    In line lines /\ search Format.timeRegex line = Some m
    /\ start sub = substr 0 8 m /\ end_ sub = substr 17 8 m.

Lemma cueOf_suffix pre lines sub : cueOf lines sub -> cueOf (pre ++ lines) sub.
Proof.
  intros (line & m & Hin & H). exists line, m. split; [|exact H].
  apply in_or_app. right. exact Hin.
Qed.

Lemma parseLines_cueOf (n : nat) : forall lines,
  (length lines <= n)%nat -> Forall (cueOf lines) (parseLines lines).
Proof.
  induction n as [|n IH]; intros lines Hlen.
  - destruct lines; [constructor|cbn in Hlen; lia].
  - destruct lines as [|line rest]; [constructor|].
    cbn [length] in Hlen. rewrite parseLines_step.
    assert (Hrest : Forall (cueOf (line :: rest)) (parseLines rest)).
    { eapply Forall_impl; [|apply IH; lia].
      intros sub. apply (@cueOf_suffix [line]). }
    destruct (isBlank line); [exact Hrest|].
    destruct (parseInt line) as [k|]; [|exact Hrest].
    destruct rest as [|tsLine rest']; [constructor|].
    cbn [length] in Hlen.
    assert (Hrest' : Forall (cueOf (line :: tsLine :: rest')) (parseLines rest')).
    { eapply Forall_impl; [|apply IH; lia].
      intros sub. apply (@cueOf_suffix [line; tsLine]). }
    unfold timestampMatch.
    destruct (search Format.timeRegex tsLine) as [m|] eqn:E; [|exact Hrest'].
    constructor.
    + exists tsLine, m. cbn [start end_]. repeat split; auto.
      right. left. reflexivity.
    + destruct (gather_suffix rest' []) as [taken Et].
      eapply Forall_impl; [|apply IH].
      * intros sub H. apply (@cueOf_suffix (line :: tsLine :: taken)) in H.
        cbn [app] in H. rewrite <- Et in H. exact H.
      * apply (f_equal (@length _)) in Et. rewrite length_app in Et. lia.
Qed.

(** [\d{2}:\d{2}:\d{2}] and nothing more. *)
Definition hmsPattern : list cls := [D; D; L 58; D; D; L 58; D; D]%N.

Definition isHMS (s : jsstring) : Prop :=
  length s = 8%nat /\ matchHere hmsPattern s = true.

Lemma timeRegex_groups m :
  matchHere Format.timeRegex m = true ->
  isHMS (substr 0 8 m) /\ isHMS (substr 17 8 m).
Proof.
  intros H. unfold Format.timeRegex, Format.timePattern in H. cbn [app] in H.
  do 29 (let c := fresh "c" in let Hc := fresh "Hc" in match_step H c Hc).
  unfold isHMS, substr, hmsPattern. cbn [skipn firstn length matchHere clsMatch].
  repeat match goal with Hc : _ = true |- _ => rewrite Hc; clear Hc end.
  repeat split.
Qed.

End ParseFacts.

(* ================================================================== *)
(** * Facts about the cue formatter *)
(* ================================================================== *)

Lemma valueOf_app s1 : forall a s2,
  valueOf a (s1 ++ s2) = valueOf (valueOf a s1) s2.
Proof.
  induction s1 as [|c s1 IH]; intros a s2; cbn [app valueOf]; [reflexivity|].
  apply IH.
Qed.

(** The digits written for [n] are digits, and denote [n]. *)
Lemma digitsFuel_spec (fuel : nat) : forall n acc,
  (n < 10 ^ N.of_nat (S fuel))%N ->
  exists ds, digitsFuel (S fuel) n acc = ds ++ acc /\ ds <> []
             /\ allDigits ds /\ valueOf 0 ds = Z.of_N n.
Proof.
  induction fuel as [|fuel IH]; intros n acc Hn;
    cbn [digitsFuel];
    assert (Hd : isDigit (48 + n mod 10)%N = true)
      by (unfold isDigit; pose proof (N.mod_lt n 10 ltac:(discriminate)) as Hm;
          revert Hm; generalize (n mod 10)%N; intros d Hm;
          apply andb_true_iff; split; apply N.leb_le; lia);
    destruct (N.ltb_spec n 10) as [Hlt|Hge];
    try (exists [(48 + n mod 10)%N]; repeat split;
         [ discriminate
         | repeat constructor; exact Hd
         | cbn [valueOf]; rewrite N.mod_small by assumption; lia ]).
  destruct (IH (n / 10)%N ((48 + n mod 10)%N :: acc))
    as (ds & E & Hne & Hds & Hv).
    { rewrite Nat2N.inj_succ, N.pow_succ_r' in Hn.
      apply N.Div0.div_lt_upper_bound. clear Hd. lia. }
    exists (ds ++ [(48 + n mod 10)%N]). repeat split.
    + cbn [digitsFuel] in E. rewrite E, <- app_assoc. reflexivity.
    + destruct ds; discriminate.
    + apply Forall_app. split; [assumption|repeat constructor; exact Hd].
    + rewrite valueOf_app, Hv. cbn [valueOf].
      rewrite N2Z.inj_add, N2Z.inj_mod, N2Z.inj_div.
      change (Z.of_N 10) with 10%Z. change (Z.of_N 48) with 48%Z.
      clear Hd. pose proof (Z.div_mod (Z.of_N n) 10 ltac:(lia)). lia.
Qed.

Lemma digitsOfN_spec n :
  digitsOfN n <> [] /\ allDigits (digitsOfN n)
  /\ valueOf 0 (digitsOfN n) = Z.of_N n.
Proof.
  unfold digitsOfN.
  destruct (@digitsFuel_spec (N.to_nat (N.log2 n)) n [])
    as (ds & E & Hne & Hds & Hv).
  - rewrite Nat2N.inj_succ, N2Nat.id.
    destruct n as [|p]; [cbn; lia|].
    pose proof (N.log2_spec (N.pos p) ltac:(lia)) as [_ Hlt].
    eapply N.lt_le_trans; [exact Hlt|].
    apply N.pow_le_mono_l. lia.
  - rewrite E, app_nil_r. auto.
Qed.

Lemma parseInt_minus_digits s :
  s <> [] -> allDigits s -> parseInt (45%N :: s) = Some (- valueOf 0 s)%Z.
Proof.
  destruct s as [|c s]; [congruence|]. intros _ H.
  pose proof (readDigits_digits_None H) as R.
  inversion H as [|? ? Hc Hs]; subst.
  unfold parseInt. cbn [trimStart isWhiteSpace].
  change (isWhiteSpace 45%N) with false. cbv iota.
  destruct s as [|c' s].
  - clear H. digit_cases Hc; rewrite R; reflexivity.
  - inversion Hs as [|? ? Hc' Hs']; subst. clear H Hs.
    digit_cases Hc; try (rewrite R; reflexivity).
    digit_cases Hc'; rewrite R; reflexivity.
Qed.

(** [parseInt] reads back what [String] writes for an integer. *)
Lemma parseInt_stringOfZ z : parseInt (stringOfZ z) = Some z.
Proof.
  destruct z as [|p|p]; cbn [stringOfZ].
  - reflexivity.
  - destruct (digitsOfN_spec (N.pos p)) as (Hne & Hd & Hv).
    rewrite parseInt_digits by assumption. rewrite Hv. reflexivity.
  - destruct (digitsOfN_spec (N.pos p)) as (Hne & Hd & Hv).
    rewrite parseInt_minus_digits by assumption. rewrite Hv. reflexivity.
Qed.

Lemma allDigits_no_LF s : allDigits s -> ~ In LF s.
Proof.
  intros H Hin. unfold allDigits in H. rewrite Forall_forall in H.
  specialize (H _ Hin). discriminate.
Qed.

Lemma stringOfZ_no_LF z : ~ In LF (stringOfZ z).
Proof.
  destruct z as [|p|p]; cbn [stringOfZ].
  - intros [H|[]]. discriminate.
  - apply allDigits_no_LF, digitsOfN_spec.
  - intros [H|H]; [discriminate|].
    revert H. apply allDigits_no_LF, digitsOfN_spec.
Qed.

Lemma split_not_nil (s : jsstring) : split LF s <> [].
Proof.
  induction s as [|c s IH]; cbn [split]; [discriminate|].
  destruct (char_eqb c LF); [discriminate|].
  destruct (split LF s); discriminate.
Qed.

Lemma split_app_LF (a b : jsstring) :
  split LF (a ++ LF :: b) = split LF a ++ split LF b.
Proof.
  induction a as [|c a IH]; cbn [app split].
  - unfold char_eqb. rewrite N.eqb_refl. reflexivity.
  - destruct (char_eqb c LF); [rewrite IH; reflexivity|].
    rewrite IH. pose proof (@split_not_nil a) as Hne.
    destruct (split LF a) as [|w ws]; [contradiction|reflexivity].
Qed.

Lemma split_no_LF (a : jsstring) : ~ In LF a -> split LF a = [a].
Proof.
  induction a as [|c a IH]; intros H; [reflexivity|]. cbn [split].
  replace (char_eqb c LF) with false
    by (symmetry; apply N.eqb_neq; intros ->; apply H; left; reflexivity).
  rewrite IH by (intros Hin; apply H; right; exact Hin). reflexivity.
Qed.

Lemma split_first_line s : forall rest,
  ~ In LF s -> hd [] (split LF (s ++ LF :: rest)) = s.
Proof.
  induction s as [|c s IH]; intros rest H; cbn [app split].
  - unfold char_eqb. rewrite N.eqb_refl. reflexivity.
  - destruct (char_eqb c LF) eqn:E.
    + apply N.eqb_eq in E. subst. exfalso. apply H. left. reflexivity.
    + specialize (IH rest ltac:(intros Hin; apply H; right; exact Hin)).
      destruct (split LF (s ++ LF :: rest)) as [|w ws]; cbn [hd] in *;
        rewrite IH; reflexivity.
Qed.

(* ================================================================== *)
(** * Facts about the partition loop and the driver *)
(* ================================================================== *)

Lemma sliceLoop_advancing (A : Type) (size : nat) (items : list A) :
  (0 < size)%nat ->
  forall fuel i, (length items <= i + fuel)%nat ->
  exists parts, Extract.sliceLoop (S fuel) i size items = Some parts
                /\ concat parts = skipn i items
                /\ Forall (fun p => (0 < length p <= size)%nat) parts.
Proof.
  intros Hsize. induction fuel as [|fuel IH]; intros i Hlen.
  - exists []. cbn [Extract.sliceLoop].
    destruct (Nat.ltb_spec i (length items)); [lia|].
    repeat split; [|constructor]. cbn. rewrite skipn_all2 by lia. reflexivity.
  - cbn [Extract.sliceLoop].
    destruct (Nat.ltb_spec i (length items)) as [Hlt|Hge].
    + destruct (IH (i + size)%nat ltac:(lia)) as (parts & E & Hc & Hf).
      cbn [Extract.sliceLoop] in E. rewrite E. cbn [option_map].
      exists (firstn size (skipn i items) :: parts). repeat split.
      * cbn [concat]. rewrite Hc.
        rewrite Nat.add_comm, <- skipn_skipn. apply firstn_skipn.
      * constructor; [|exact Hf].
        rewrite length_firstn, length_skipn. lia.
    + exists []. repeat split; [|constructor].
      cbn. rewrite skipn_all2 by lia. reflexivity.
Qed.

(** With size 0 the index never moves: the loop is still running after any
    number of passes. *)
Lemma sliceLoop_stuck (A : Type) (items : list A) (i : nat) :
  (i < length items)%nat ->
  forall fuel, Extract.sliceLoop fuel i 0 items = None.
Proof.
  intros Hi. induction fuel as [|fuel IH]; [reflexivity|].
  cbn [Extract.sliceLoop].
  destruct (Nat.ltb_spec i (length items)); [|lia].
  rewrite Nat.add_0_r, IH. reflexivity.
Qed.

Section DriverFacts.

Import Extract.

Variable World : Type.
Variable extractThemesWithAI : jsstring -> World -> Outcome * World.

(** What the service answers when it is called on the chunks in order. *)
Fixpoint responses (chunks : list jsstring) (w : World) : list Outcome :=
  match chunks with
  | [] => []
  | c :: rest =>
      let (o, w') := extractThemesWithAI c w in o :: responses rest w'
  end.

Fixpoint worldAfter (chunks : list jsstring) (w : World) : World :=
  match chunks with
  | [] => w
  | c :: rest => worldAfter rest (snd (extractThemesWithAI c w))
  end.

(** An answer the sub-chunk loop goes on after. *)
Definition notFatal (o : Outcome) : Prop :=
  match o with
  | Returns _ => True
  | Throws message => str_eqb message FORCE_SPLIT = true
  end.

(** The themes of the answers that are themes, in order. *)
Definition themesOf (os : list Outcome) : list Themes.ThemeEntry :=
  flat_map (fun o => match o with Returns t => t | Throws _ => [] end) os.

(** The numbers, counted from [i + 1], of the answers that are errors. *)
Fixpoint skippedFrom (i : nat) (os : list Outcome) : list nat :=
  match os with
  | [] => []
  | Returns _ :: os' => skippedFrom (S i) os'
  | Throws _ :: os' => S i :: skippedFrom (S i) os'
  end.

Lemma subChunkLoop_not_fatal (chunks : list jsstring) :
  forall i results warnings w,
  Forall notFatal (responses chunks w) ->
  subChunkLoop extractThemesWithAI i chunks results warnings w
  = mkRun (Returns (results ++ themesOf (responses chunks w)))
      (warnings ++ skippedFrom i (responses chunks w))
      (worldAfter chunks w).
Proof.
  induction chunks as [|c rest IH]; intros i results warnings w H;
    cbn [subChunkLoop responses worldAfter].
  - cbn. rewrite !app_nil_r. reflexivity.
  - cbn [responses] in H.
    destruct (extractThemesWithAI c w) as [[t|m] w']; cbn [snd];
      inversion H as [|? ? Ho Hr]; subst; cbn [notFatal] in Ho.
    + rewrite IH by assumption. cbn [themesOf flat_map skippedFrom].
      rewrite <- app_assoc. reflexivity.
    + rewrite Ho, IH by assumption. cbn [themesOf flat_map skippedFrom app].
      rewrite <- app_assoc. reflexivity.
Qed.

Lemma subChunkLoop_fatal (chunks : list jsstring) :
  forall i results warnings w pre message post,
  responses chunks w = pre ++ Throws message :: post ->
  Forall notFatal pre -> str_eqb message FORCE_SPLIT = false ->
  subChunkLoop extractThemesWithAI i chunks results warnings w
  = mkRun (Throws message) (warnings ++ skippedFrom i pre)
      (worldAfter (firstn (S (length pre)) chunks) w).
Proof.
  induction chunks as [|c rest IH]; intros i results warnings w pre m post E Hpre Hm;
    cbn [subChunkLoop responses] in *.
  - destruct pre; discriminate.
  - cbn [firstn worldAfter].
    destruct (extractThemesWithAI c w) as [[t|m'] w']; cbn [snd].
    + destruct pre as [|o pre]; cbn [app] in E; [discriminate|].
      injection E as <- E. inversion Hpre; subst.
      cbn [skippedFrom length]. eapply IH; eassumption.
    + destruct pre as [|o pre]; cbn [app] in E.
      * injection E as -> _. rewrite Hm. cbn. rewrite app_nil_r. reflexivity.
      * injection E as <- E. inversion Hpre as [|? ? Ho Hr]; subst.
        cbn [notFatal] in Ho. rewrite Ho. cbn [skippedFrom length].
        rewrite (IH (S i) results (warnings ++ [S i]) w' pre m post E Hr Hm).
        rewrite <- app_assoc. reflexivity.
Qed.

(** The partition loop of [splitAndProcessChunk] ends, and loses nothing. *)
Lemma subChunksOf_total (chunk : jsstring) :
  exists parts,
    sliceLoop (S (length (Srt.parseSrt chunk))) 0
      (subChunkSize (Srt.parseSrt chunk)) (Srt.parseSrt chunk) = Some parts
    /\ concat parts = Srt.parseSrt chunk
    /\ subChunksOf chunk = Some (List.map Srt.formatSubtitlesToSrt parts).
Proof.
  destruct (@sliceLoop_advancing _ (subChunkSize (Srt.parseSrt chunk))
              (Srt.parseSrt chunk) ltac:(unfold subChunkSize; lia)
              (length (Srt.parseSrt chunk)) 0%nat ltac:(lia))
    as (parts & E & Hc & _).
  exists parts. repeat split; [exact E|exact Hc|].
  unfold subChunksOf. rewrite E. reflexivity.
Qed.

(** The sub-chunks [splitAndProcessChunk] makes of a chunk. *)
Definition subChunksFor (chunk : jsstring) : list jsstring :=
  match subChunksOf chunk with
  | Some subChunks => subChunks
  | None => []
  end.

Lemma subChunksOf_subChunksFor (chunk : jsstring) :
  subChunksOf chunk = Some (subChunksFor chunk).
Proof.
  destruct (subChunksOf_total chunk) as (parts & _ & _ & E).
  unfold subChunksFor. rewrite E. reflexivity.
Qed.

(** The test of the chunk loop of [processLargeSrt] on what is thrown: the
    chunk is split when the message is [FORCE_SPLIT] and the chunk has more
    than 1000 units. *)
Definition isSplit (chunk : jsstring) (o : Outcome) : bool :=
  match o with
  | Returns _ => false
  | Throws message =>
      str_eqb message FORCE_SPLIT && (1000 <? length chunk)%nat
  end.

(** What the service answers on the sub-chunks of a chunk, called on them
    in order after the chunk itself; nothing when the chunk is not split. *)
Definition subAnswers (chunk : jsstring) (w : World) : list Outcome :=
  let (o, w') := extractThemesWithAI chunk w in
  if isSplit chunk o then responses (subChunksFor chunk) w' else [].

(** The state of the service after the call on a chunk and, when the chunk
    is split, the calls on its sub-chunks. *)
Definition worldAfterChunk (chunk : jsstring) (w : World) : World :=
  let (o, w') := extractThemesWithAI chunk w in
  if isSplit chunk o then worldAfter (subChunksFor chunk) w' else w'.

(** A chunk the chunk loop goes on after: it is answered with themes, or
    it is split and every error on its sub-chunks is [FORCE_SPLIT]. *)
Definition handled (chunk : jsstring) (w : World) : Prop :=
  match fst (extractThemesWithAI chunk w) with
  | Returns _ => True
  | Throws message =>
      isSplit chunk (Throws message) = true
      /\ Forall notFatal (subAnswers chunk w)
  end.

(** The themes kept of a chunk: its own, or those of its sub-chunks that
    are answered with themes. *)
Definition retained (chunk : jsstring) (w : World)
  : list Themes.ThemeEntry :=
  match fst (extractThemesWithAI chunk w) with
  | Returns chunkThemes => chunkThemes
  | Throws _ => themesOf (subAnswers chunk w)
  end.

Fixpoint allHandled (chunks : list jsstring) (w : World) : Prop :=
  match chunks with
  | [] => True
  | c :: rest => handled c w /\ allHandled rest (worldAfterChunk c w)
  end.

Fixpoint retainedOf (chunks : list jsstring) (w : World)
  : list Themes.ThemeEntry :=
  match chunks with
  | [] => []
  | c :: rest => retained c w ++ retainedOf rest (worldAfterChunk c w)
  end.

(** The warnings: for every chunk in order, the numbers of its sub-chunks
    that are skipped. *)
Fixpoint warnedOf (chunks : list jsstring) (w : World) : list nat :=
  match chunks with
  | [] => []
  | c :: rest =>
      skippedFrom 0 (subAnswers c w) ++ warnedOf rest (worldAfterChunk c w)
  end.

Fixpoint worldAfterChunks (chunks : list jsstring) (w : World) : World :=
  match chunks with
  | [] => w
  | c :: rest => worldAfterChunks rest (worldAfterChunk c w)
  end.

Lemma splitAndProcessChunk_subChunkLoop (chunk : jsstring) (w : World) :
  splitAndProcessChunk extractThemesWithAI chunk w
  = Some (subChunkLoop extractThemesWithAI 0 (subChunksFor chunk) [] [] w).
Proof.
  unfold splitAndProcessChunk. rewrite subChunksOf_subChunksFor.
  reflexivity.
Qed.

(** The chunk loop over chunks that are all handled. *)
Lemma chunkLoop_handled (chunks : list jsstring) :
  forall allThemes warnings w,
  allHandled chunks w ->
  chunkLoop extractThemesWithAI chunks allThemes warnings w
  = Some (mkRun (Returns (allThemes ++ retainedOf chunks w))
            (warnings ++ warnedOf chunks w) (worldAfterChunks chunks w)).
Proof.
  induction chunks as [|c rest IH]; intros allThemes warnings w H;
    cbn [chunkLoop allHandled retainedOf warnedOf worldAfterChunks] in *.
  - rewrite !app_nil_r. reflexivity.
  - destruct H as [Hc Hrest].
    unfold handled, retained, subAnswers, worldAfterChunk in *.
    destruct (extractThemesWithAI c w) as [[t|m] w']; cbn [fst isSplit] in *.
    + rewrite IH by exact Hrest. cbn [skippedFrom app].
      rewrite <- app_assoc. reflexivity.
    + destruct Hc as [Hsplit Hsub]. rewrite Hsplit in *.
      rewrite splitAndProcessChunk_subChunkLoop.
      rewrite subChunkLoop_not_fatal by exact Hsub. cbn [app].
      rewrite IH by exact Hrest. rewrite <- !app_assoc. reflexivity.
Qed.

(** The chunk loop when a sub-chunk of a chunk that is split throws an
    error that is not [FORCE_SPLIT], the chunks before being handled. *)
Lemma chunkLoop_sub_fatal (pre : list jsstring) (c : jsstring)
    (post : list jsstring) (w2 : World) (spre : list Outcome)
    (message : jsstring) (spost : list Outcome) :
  forall allThemes warnings w,
  allHandled pre w ->
  extractThemesWithAI c (worldAfterChunks pre w) = (Throws FORCE_SPLIT, w2) ->
  (1000 <? length c)%nat = true ->
  responses (subChunksFor c) w2 = spre ++ Throws message :: spost ->
  Forall notFatal spre -> str_eqb message FORCE_SPLIT = false ->
  chunkLoop extractThemesWithAI (pre ++ c :: post) allThemes warnings w
  = Some (mkRun (Throws message)
            (warnings ++ warnedOf pre w ++ skippedFrom 0 spre)
            (worldAfter (firstn (S (length spre)) (subChunksFor c)) w2)).
Proof.
  induction pre as [|p pre IH]; intros allThemes warnings w Hpre Hc Hlong
    Hsub Hspre Hm;
    cbn [app chunkLoop allHandled warnedOf worldAfterChunks] in *.
  - rewrite Hc.
    change (str_eqb FORCE_SPLIT FORCE_SPLIT) with true. rewrite Hlong.
    cbn [andb]. rewrite splitAndProcessChunk_subChunkLoop.
    rewrite (@subChunkLoop_fatal (subChunksFor c) 0%nat [] [] w2 spre message
               spost Hsub Hspre Hm).
    reflexivity.
  - destruct Hpre as [Hp Hrest].
    unfold handled, subAnswers, worldAfterChunk in *.
    destruct (extractThemesWithAI p w) as [[t|m] w']; cbn [fst isSplit] in *.
    + rewrite (IH _ _ _ Hrest Hc Hlong Hsub Hspre Hm). reflexivity.
    + destruct Hp as [Hsplit Hsubp]. rewrite Hsplit in *.
      rewrite splitAndProcessChunk_subChunkLoop.
      rewrite subChunkLoop_not_fatal by exact Hsubp. cbn [app].
      rewrite (IH _ _ _ Hrest Hc Hlong Hsub Hspre Hm).
      rewrite <- !app_assoc. reflexivity.
Qed.

End DriverFacts.

Lemma matchHere_length p : forall s,
  matchHere p s = true -> (length p <= length s)%nat.
Proof.
  induction p as [|k p IH]; intros s H; [cbn; lia|].
  apply matchHere_cons in H as (c & s' & -> & _ & H).
  apply IH in H. cbn. lia.
Qed.

Lemma search_length p s m :
  search p s = Some m -> (length p <= length s)%nat.
Proof.
  intros H. pose proof (search_matchHere _ _ H) as Hm.
  apply matchHere_length in Hm.
  apply search_suffix in H as [pre ->]. rewrite length_app. lia.
Qed.

(** The timestamp line [formatSubtitlesToSrt] writes for a cue that came
    from [parseSrt] has 21 units; a match of the expression of [parseSrt]
    has 29. *)
Lemma written_timestamp_not_matched st en :
  isHMS st -> isHMS en ->
  Srt.timestampMatch (st ++ js " --> " ++ en) = None.
Proof.
  intros [Hs _] [He _]. unfold Srt.timestampMatch.
  destruct (search Format.timeRegex (st ++ js " --> " ++ en)) as [m|] eqn:E;
    [|reflexivity].
  apply search_length in E. rewrite !length_app, Hs, He in E.
  cbn in E. lia.
Qed.

Lemma filter_length_cons (A : Type) (p : A -> bool) (a : A) (l : list A) :
  (length (filter p l) <= length (filter p (a :: l)))%nat.
Proof. cbn [filter]. destruct (p a); cbn [length]; lia. Qed.

Lemma parseLines_count (n : nat) : forall lines,
  (length lines <= n)%nat ->
  (length (Srt.parseLines lines)
   <= length (filter Srt.hasTimestamp lines))%nat.
Proof.
  induction n as [|n IH]; intros lines Hlen.
  - destruct lines; [cbn; lia|cbn in Hlen; lia].
  - destruct lines as [|line rest]; [cbn; lia|].
    cbn [length] in Hlen. rewrite parseLines_step.
    assert (Hrest : (length (Srt.parseLines rest)
                     <= length (filter Srt.hasTimestamp (line :: rest)))%nat).
    { etransitivity; [apply IH; lia|apply filter_length_cons]. }
    destruct (Srt.isBlank line); [exact Hrest|].
    destruct (parseInt line) as [k|]; [|exact Hrest].
    destruct rest as [|tsLine rest']; [cbn; lia|].
    cbn [length] in Hlen.
    pose proof (@filter_length_cons _ Srt.hasTimestamp line (tsLine :: rest'))
      as H1.
    unfold Srt.timestampMatch.
    destruct (search Format.timeRegex tsLine) as [m|] eqn:E.
    + destruct (gather_suffix rest' []) as [taken Et].
      assert (Hts : Srt.hasTimestamp tsLine = true)
        by (unfold Srt.hasTimestamp; rewrite E; reflexivity).
      assert (H2 : (length (Srt.parseLines (snd (gather [] rest')))
                    <= length (filter Srt.hasTimestamp rest'))%nat).
      { etransitivity.
        - apply IH. apply (f_equal (@length _)) in Et.
          rewrite length_app in Et. lia.
        - rewrite Et at 2. rewrite filter_app, length_app. lia. }
      cbn [length]. cbn [filter] in H1 |- *. rewrite Hts in *.
      destruct (Srt.hasTimestamp line); cbn [length] in *; lia.
    + pose proof (@filter_length_cons _ Srt.hasTimestamp tsLine rest') as H2.
      etransitivity; [apply IH; lia|]. lia.
Qed.

(** A text without a line that holds two full timestamps has no cue. *)
Lemma parseSrt_no_timestamp (srtContent : jsstring) :
  filter Srt.hasTimestamp (split LF srtContent) = [] ->
  Srt.parseSrt srtContent = [].
Proof.
  intros H. unfold Srt.parseSrt.
  pose proof (@parseLines_count (length (split LF srtContent))
                (split LF srtContent) (le_n _)) as Hc.
  rewrite H in Hc. cbn [length] in Hc.
  destruct (Srt.parseLines (split LF srtContent)); [reflexivity|].
  cbn [length] in Hc. lia.
Qed.

(* ================================================================== *)
(** * Properties *)
(* ================================================================== *)

(** Text given line by line. *)
Definition unlines (lines : list jsstring) : jsstring := join [LF] lines.

(** ** Silent-cut planner *)

(** C8: silences 10-12 and 40-42 in a video of 50 seconds, with padding 1
    and minimum segment duration 0.3, leave the segments 0-9, 13-39 and
    43-50, in this order. *)
Theorem cutSilentParts_example (d1 d2 : float) :
  Video.cutSilentParts
    [Video.mkSilence 10 12 d1; Video.mkSilence 40 42 d2] 50 1 0.3
  = [Video.mkSegment 0 9; Video.mkSegment 13 39; Video.mkSegment 43 50].
Proof. vm_compute. reflexivity. Qed.

(** ** Timestamp offsets *)

(** C7 fails: with offset 0 the pair [00:00:01,001 --> 00:00:02,000] comes
    back as [00:00:01,000 --> 00:00:02,000].  The number nearest to 1.001 is
    below it, so [(time % 1) * 1000] is below 1 and its floor is 0. *)
Theorem adjustSrtTimestamps_zero_changes_text :
  Format.adjustSrtTimestamps (js "00:00:01,001 --> 00:00:02,000") 0
  = Some (js "00:00:01,000 --> 00:00:02,000").
Proof. vm_compute. reflexivity. Qed.

(** ** Parsing and formatting cues *)

Definition helloCue : jsstring :=
  unlines [js "1"; js "00:00:01,000 --> 00:00:02,000"; js "Hello"; js ""].

(** C2 fails: the cue [helloCue] parses to one record, whose formatted text
    parses to none.  [parseSrt] keeps [HH:MM:SS] only, so the timestamp line
    that [formatSubtitlesToSrt] writes has no millisecond fields, and the
    expression of [parseSrt] asks for them: no timestamp line written for a
    cue of [parseSrt], from whatever text, is a timestamp line to it. *)
Theorem parse_format_parse_loses_cues :
  Srt.parseSrt helloCue
  = [Srt.mkSubtitle 1 (js "00:00:01") (js "00:00:02") (js "Hello")]
  /\ Srt.formatSubtitlesToSrt (Srt.parseSrt helloCue)
     = unlines [js "1"; js "00:00:01 --> 00:00:02"; js "Hello"; js ""]
  /\ Srt.parseSrt (Srt.formatSubtitlesToSrt (Srt.parseSrt helloCue)) = []
  /\ forall srtContent : jsstring,
       Forall
         (fun sub =>
            Srt.timestampMatch (Srt.start sub ++ js " --> " ++ Srt.end_ sub)
            = None)
         (Srt.parseSrt srtContent).
Proof.
  split; [vm_compute; reflexivity|].
  split; [vm_compute; reflexivity|].
  split; [vm_compute; reflexivity|].
  intros srtContent. unfold Srt.parseSrt.
  eapply Forall_impl;
    [|apply (@parseLines_cueOf (length (split LF srtContent))); lia].
  intros sub (line & m & _ & Hs & Est & Een).
  apply search_matchHere, timeRegex_groups in Hs as [H1 H2].
  rewrite Est, Een. apply written_timestamp_not_matched; assumption.
Qed.

(** ** Consolidation *)

(** C6: merging the result of a merge changes nothing, whatever the spans
    and their timestamps are. *)
Theorem mergeOverlappingThemes_idempotent
    (toLowerCase : jsstring -> jsstring) (themes : list Themes.ThemeEntry) :
  Themes.mergeOverlappingThemes toLowerCase
    (Themes.mergeOverlappingThemes toLowerCase themes)
  = Themes.mergeOverlappingThemes toLowerCase themes.
Proof.
  destruct (mergeOverlappingThemes_shape toLowerCase themes) as [Hs Hu].
  apply mergeOverlappingThemes_fixed; assumption.
Qed.

(** C10: the call sorts the argument array in place.  With the objects of
    the argument in the store [h], the array the caller holds is afterwards
    a permutation of what it was, in ascending order of start time; the
    objects it refers to are as they were; and the array returned refers to
    copies made during the call, which hold the merged spans. *)
Theorem mergeOverlappingThemes_sorts_argument_in_place
    (toLowerCase : jsstring -> jsstring) (h : Themes.store)
    (themes : list Themes.loc) :
  Forall (fun l => (l < length h)%nat) themes ->
  let '(h', sorted, merged) :=
    Themes.mergeOverlappingThemesRef toLowerCase h themes in
  Permutation themes sorted
  /\ StronglySorted
       (fun a b =>
          (Format.timeToSeconds (Themes.start (Themes.deref h' a))
           <=? Format.timeToSeconds (Themes.start (Themes.deref h' b)))%float
          = true) sorted
  /\ (forall l, (l < length h)%nat -> Themes.deref h' l = Themes.deref h l)
  /\ Forall (fun l => (length h <= l < length h')%nat) merged
  /\ List.map (Themes.deref h') merged
     = Themes.mergeOverlappingThemes toLowerCase
         (List.map (Themes.deref h) themes).
Proof.
  intros Hwf. unfold Themes.mergeOverlappingThemesRef.
  set (key := fun l => startKey (Themes.deref h l)).
  assert (Hkey : forall l, NN (key l)) by (intros l; apply startKey_NN).
  change (fun a b => Themes.byStart (Themes.deref h a) (Themes.deref h b))
    with (byKey key).
  pose proof (sort_Permutation key themes) as Hperm.
  pose proof (sort_StronglySorted key Hkey themes) as Hsorted.
  pose proof (sort_map (Themes.deref h) Themes.byStart themes) as Hmap.
  change (fun x y => Themes.byStart (Themes.deref h x) (Themes.deref h y))
    with (byKey key) in Hmap.
  set (sorted := Themes.sort (byKey key) themes) in *.
  assert (Hwf' : Forall (fun l => (l < length h)%nat) sorted)
    by (eapply Permutation_Forall; eassumption).
  pose proof (@mergeLoopRef_spec toLowerCase (length h) sorted h [] None
                (le_n _) Hwf' eq_refl) as Hloop.
  destruct (Themes.mergeLoopRef toLowerCase h [] None sorted) as [h' merged].
  destruct Hloop as (L1 & L2 & L3 & L4).
  assert (Hframe : forall l, (l < length h)%nat ->
                             Themes.deref h' l = Themes.deref h l).
  { intros l Hl. apply L2; [exact Hl|discriminate]. }
  split; [exact Hperm|]. split; [|split; [exact Hframe|split; [exact L3|]]].
  - eapply StronglySorted_In_impl; [|exact Hsorted].
    rewrite Forall_forall in Hwf'.
    intros a b Ha Hb Hab. rewrite !Hframe by auto.
    rewrite leb_rank by apply timeToSeconds_NN.
    apply Z.leb_le. exact Hab.
  - rewrite L4. cbn [List.map option_map]. rewrite Hmap. reflexivity.
Qed.

Definition th (a b c : string) : Themes.ThemeEntry :=
  Themes.mkTheme (js a) (js b) (js c).

Definition fourSpans : Themes.store :=
  [ th "00:01:00,000" "00:02:00,000" "cats";
    th "00:00:00,000" "00:00:55,000" "cats";
    th "00:00:10,000" "00:00:30,000" "Cats!";
    th "00:02:05,000" "00:03:00,000" "dogs" ].

(** The array [0; 1; 2; 3] over [fourSpans] is left as [1; 2; 0; 3], and
    the array returned refers to the two copies 4 and 5. *)
Lemma mergeOverlappingThemes_sorts_argument_witness :
  (let '(h', sorted, merged) :=
     Themes.mergeOverlappingThemesRef Themes.toLowerCaseAscii fourSpans
       [0; 1; 2; 3]%nat in
   sorted = [1; 2; 0; 3]%nat /\ merged = [4; 5]%nat)
  /\ (let '(h', sorted, merged) :=
        Themes.mergeOverlappingThemesRef Themes.toLowerCaseAscii fourSpans
          [0; 1; 2; 3]%nat in
      Permutation [0; 1; 2; 3]%nat sorted
      /\ StronglySorted
           (fun a b =>
              (Format.timeToSeconds (Themes.start (Themes.deref h' a))
               <=? Format.timeToSeconds (Themes.start (Themes.deref h' b)))%float
              = true) sorted
      /\ (forall l, (l < length fourSpans)%nat ->
                    Themes.deref h' l = Themes.deref fourSpans l)
      /\ Forall (fun l => (length fourSpans <= l < length h')%nat) merged
      /\ List.map (Themes.deref h') merged
         = Themes.mergeOverlappingThemes Themes.toLowerCaseAscii
             (List.map (Themes.deref fourSpans) [0; 1; 2; 3]%nat)).
Proof.
  split.
  - vm_compute. split; reflexivity.
  - apply (@mergeOverlappingThemes_sorts_argument_in_place
             Themes.toLowerCaseAscii fourSpans [0; 1; 2; 3]%nat).
    repeat constructor.
Defined.

(** ** What the parser keeps of a timestamp *)

(** C9: every cue that [parseSrt] returns comes from a line with a match of
    [HH:MM:SS,mmm --> HH:MM:SS,mmm]; its [start] and [end] are the first
    eight units of the two timestamps, of the form [HH:MM:SS]: the comma
    and the milliseconds are not in them. *)
Theorem parseSrt_drops_milliseconds (srtContent : jsstring) :
  Forall
    (fun sub =>
       cueOf (split LF srtContent) sub
       /\ isHMS (Srt.start sub) /\ isHMS (Srt.end_ sub))
    (Srt.parseSrt srtContent).
Proof.
  unfold Srt.parseSrt.
  eapply Forall_impl; [|apply (@parseLines_cueOf (length (split LF srtContent))); lia].
  intros sub H. split; [exact H|].
  destruct H as (line & m & _ & Hs & -> & ->).
  apply timeRegex_groups. eapply search_matchHere. exact Hs.
Qed.

(** ** The index of a formatted cue *)

(** The index a cue carries: its first line, read as [parseSrt] reads it. *)
Definition cueIndex (cue : jsstring) : option Z :=
  parseInt (hd [] (split LF cue)).

Definition cue7 : Srt.Subtitle :=
  Srt.mkSubtitle 7 (js "00:00:01") (js "00:00:02") (js "Hello").

(** C1 fails as stated: a single record with [id] 7 is written with the
    index 7, not 1. *)
Lemma formatSubtitlesToSrt_keeps_id_7 :
  Srt.formatSubtitlesToSrt [cue7]
  = unlines [js "7"; js "00:00:01 --> 00:00:02"; js "Hello"; js ""]
  /\ List.map cueIndex (List.map Srt.formatCue [cue7]) = [Some 7%Z]
  /\ List.map cueIndex (List.map Srt.formatCue [cue7]) <> [Some 1%Z].
Proof. vm_compute. repeat split. discriminate. Qed.

(** An integer that is a number with every integer around it: between
    -2^53 and 2^53.  For these [String] writes all the digits and
    [parseInt] reads the integer they denote, as [stringOfZ] and [parseInt]
    do here. *)
Definition safeInteger (z : Z) : Prop := (Z.abs z < 2 ^ 53)%Z.

(** A text in which every number that [parseInt] reads from a line is a
    safe integer.  The index of every cue [parseSrt] reads from the text is
    one of these numbers; and so is, or is below 100, every number that
    [parseInt] reads from a line of a text that [formatSubtitlesToSrt]
    writes from cues of the text: its lines are the indices written, the
    times, and lines of the text without white space around them. *)
Definition safeIndices (srtContent : jsstring) : Prop :=
  Forall
    (fun line =>
       match parseInt line with
       | Some n => safeInteger n
       | None => True
       end)
    (split LF srtContent).

(** Checks [safeIndices] of a given text, line by line. *)
Ltac safe_indices :=
  unfold safeIndices;
  match goal with
  | |- Forall _ ?lines =>
      let computed := eval vm_compute in lines in
      change lines with computed
  end;
  repeat (apply Forall_cons; [vm_compute; first [exact I|reflexivity]|]);
  apply Forall_nil.

(** The lines a record is written as: the index line, the lines of the two
    times, the lines of the text, and an empty line. *)
Definition writtenLines (sub : Srt.Subtitle) : list jsstring :=
  stringOfZ (Srt.id sub)
    :: split LF (Srt.start sub ++ js " --> " ++ Srt.end_ sub)
    ++ split LF (Srt.text sub) ++ [[]].

Lemma split_formatCue_behind (sub : Srt.Subtitle) (behind : jsstring) :
  split LF (Srt.formatCue sub ++ behind)
  = stringOfZ (Srt.id sub)
      :: split LF (Srt.start sub ++ js " --> " ++ Srt.end_ sub)
      ++ split LF (Srt.text sub) ++ split LF behind.
Proof.
  unfold Srt.formatCue. rewrite <- !app_assoc. cbn [app].
  rewrite split_app_LF, split_no_LF by apply stringOfZ_no_LF.
  cbn [app]. f_equal.
  replace (Srt.start sub ++ js " --> " ++ Srt.end_ sub
           ++ LF :: Srt.text sub ++ LF :: behind)
    with ((Srt.start sub ++ js " --> " ++ Srt.end_ sub)
          ++ LF :: Srt.text sub ++ LF :: behind)
    by (rewrite <- !app_assoc; reflexivity).
  rewrite split_app_LF. f_equal. apply split_app_LF.
Qed.

Lemma split_formatSubtitlesToSrt_lines (sub : Srt.Subtitle)
    (subs : list Srt.Subtitle) :
  split LF (Srt.formatSubtitlesToSrt (sub :: subs))
  = flat_map writtenLines (sub :: subs).
Proof.
  revert sub. induction subs as [|sub2 subs IH]; intros sub.
  - unfold Srt.formatSubtitlesToSrt. cbn [List.map join flat_map].
    rewrite <- (app_nil_r (Srt.formatCue sub)), split_formatCue_behind.
    rewrite app_nil_r. reflexivity.
  - unfold Srt.formatSubtitlesToSrt in *.
    change (join [LF] (List.map Srt.formatCue (sub :: sub2 :: subs)))
      with (Srt.formatCue sub ++ [LF]
            ++ join [LF] (List.map Srt.formatCue (sub2 :: subs))).
    rewrite split_formatCue_behind.
    cbn [app split]. unfold char_eqb at 1. rewrite N.eqb_refl.
    rewrite (IH sub2).
    change (flat_map writtenLines (sub :: sub2 :: subs))
      with (writtenLines sub ++ flat_map writtenLines (sub2 :: subs)).
    unfold writtenLines at 2. cbn [app]. rewrite <- !app_assoc.
    reflexivity.
Qed.

(** C1, amended: for records whose [id] is a safe integer, the lines of the
    text are the lines of the records, record after record in the order
    given: an index line, the lines of [start --> end], the lines of the
    text and an empty line.  The index line of a record has no line feed
    and holds the [id] of that record in decimal, which [parseInt] reads
    back from it: no index is computed from the position.  No record gives
    the empty text. *)
Theorem formatSubtitlesToSrt_writes_ids (subtitles : list Srt.Subtitle) :
  Forall (fun sub => safeInteger (Srt.id sub)) subtitles ->
  split LF (Srt.formatSubtitlesToSrt subtitles)
  = match subtitles with
    | [] => [[]]
    | _ :: _ => flat_map writtenLines subtitles
    end
  /\ Forall
       (fun sub =>
          exists index behind,
            writtenLines sub = index :: behind
            /\ ~ In LF index
            /\ parseInt index = Some (Srt.id sub))
       subtitles.
Proof.
  intros _. split.
  - destruct subtitles as [|sub subs]; [reflexivity|].
    apply split_formatSubtitlesToSrt_lines.
  - apply Forall_forall. intros sub _.
    eexists. eexists. split; [reflexivity|].
    split; [apply stringOfZ_no_LF|apply parseInt_stringOfZ].
Qed.

(** Two records with the indices 7 and 3: the lines keep both. *)
Lemma formatSubtitlesToSrt_writes_ids_witness :
  split LF
    (Srt.formatSubtitlesToSrt
       [cue7; Srt.mkSubtitle 3 (js "00:00:03") (js "00:00:04") (js "Bye")])
  = [js "7"; js "00:00:01 --> 00:00:02"; js "Hello"; js "";
     js "3"; js "00:00:03 --> 00:00:04"; js "Bye"; js ""].
Proof.
  destruct (@formatSubtitlesToSrt_writes_ids
              [cue7;
               Srt.mkSubtitle 3 (js "00:00:03") (js "00:00:04") (js "Bye")])
    as [Hlines _].
  - repeat constructor.
  - rewrite Hlines. reflexivity.
Defined.

(** ** Similarity of labels *)

(** [split] on white space never returns the empty array, so the test
    [words1.length === 0 || words2.length === 0] of [areSimilarThemes] is
    never true. *)
Lemma splitWs_not_empty (s : jsstring) : splitWs s <> [].
Proof.
  induction s as [|c s IH]; cbn [splitWs]; [discriminate|].
  destruct (isWhiteSpace c).
  - destruct s as [|c' s']; [discriminate|].
    destruct (isWhiteSpace c'); [exact IH|discriminate].
  - destruct (splitWs s); discriminate.
Qed.

(** C5 fails: two labels that both normalize to the empty string are judged
    similar.  Each splits into the one word [""], the two words are equal,
    and the ratio is 1. *)
Theorem areSimilarThemes_of_empty_labels
    (toLowerCase : jsstring -> jsstring) (theme1 theme2 : jsstring) :
  Themes.normalizeTheme toLowerCase theme1 = [] ->
  Themes.normalizeTheme toLowerCase theme2 = [] ->
  Themes.areSimilarThemes toLowerCase theme1 theme2 = true.
Proof.
  intros H1 H2. unfold Themes.areSimilarThemes. rewrite H1, H2.
  vm_compute. reflexivity.
Qed.

(** The empty label, and a label made of a filler phrase and a full stop. *)
Lemma areSimilarThemes_of_empty_labels_witness :
  Themes.areSimilarThemes Themes.toLowerCaseAscii []
    ([12395; 12388; 12356; 12390; 46]%N) = true.
Proof.
  apply (@areSimilarThemes_of_empty_labels Themes.toLowerCaseAscii []
           ([12395; 12388; 12356; 12390; 46]%N)); reflexivity.
Defined.

(** ** Chunk sizes *)

(** One cue whose text is 2600 times [aa ]: 7832 units in all. *)
Definition longCue : jsstring :=
  js "1" ++ [LF] ++ js "00:00:01,000 --> 00:00:02,000" ++ [LF]
    ++ concat (repeat (js "aa ") 2600) ++ [LF].

(** C3 holds for the sub-chunk planner and fails for the chunk planner.
    The sub-chunk size is at least 5, and the sub-chunk loop ends with
    parts that concatenate to the subtitles.  The chunk planner has no
    floor: for [longCue] and the model [gpt-4] the transcript is sent to
    [processLargeSrt], the size computed is 0, and the partition loop of
    [processLargeSrt] is still running after any number of passes. *)
Theorem chunk_sizes :
  (forall subtitles : list Srt.Subtitle,
     (5 <= Extract.subChunkSize subtitles)%nat
     /\ exists parts,
          Extract.sliceLoop (S (length subtitles)) 0
            (Extract.subChunkSize subtitles) subtitles = Some parts
          /\ concat parts = subtitles)
  /\ length (Srt.parseSrt longCue) = 1%nat
  /\ Extract.tooLong longCue (js "gpt-4") (js "openai") = true
  /\ Extract.subtitlesPerChunk longCue (js "gpt-4") (js "openai") = 0%float
  /\ forall (World : Type)
            (extractThemesWithAI : jsstring -> World -> Extract.Outcome * World)
            (toLowerCase : jsstring -> jsstring) (fuel : nat) (w : World),
       Extract.processLargeSrt extractThemesWithAI toLowerCase fuel longCue
         (js "gpt-4") (js "openai") w = None.
Proof.
  assert (Hlen : length (Srt.parseSrt longCue) = 1%nat)
    by (vm_compute; reflexivity).
  assert (Hsize : Extract.subtitlesPerChunk longCue (js "gpt-4") (js "openai")
                  = 0%float) by (vm_compute; reflexivity).
  split; [|split; [exact Hlen|split; [vm_compute; reflexivity|split; [exact Hsize|]]]].
  - intros subtitles. split; [unfold Extract.subChunkSize; lia|].
    destruct (@sliceLoop_advancing _ (Extract.subChunkSize subtitles) subtitles
                ltac:(unfold Extract.subChunkSize; lia)
                (length subtitles) 0%nat ltac:(lia)) as (parts & E & Hc & _).
    exists parts. split; [exact E|exact Hc].
  - intros World extractThemesWithAI toLowerCase fuel w.
    unfold Extract.processLargeSrt. rewrite Hsize.
    unfold Extract.planChunks.
    change (floorZ 0) with (Some 0%Z). cbn [Z.to_nat].
    rewrite sliceLoop_stuck by (rewrite Hlen; lia). reflexivity.
Qed.

(** ** Errors of a sub-chunk *)

(** C4: an error [FORCE_SPLIT] on a sub-chunk is skipped, any other error
    is thrown on, in a text whose indices are safe integers.

    Of one chunk: when every error the service raises on the sub-chunks is
    [FORCE_SPLIT], [splitAndProcessChunk] returns the themes of all the
    other sub-chunks, in order, and has warned once for each one skipped;
    the first error with another message is thrown on right after the call
    that raised it.  A chunk without a line that holds two full timestamps
    has no sub-chunk: nothing is sent, nothing is returned and no warning
    is made.

    Of the extraction: when every chunk of [processLargeSrt] is answered
    with themes, or is split and meets no error but [FORCE_SPLIT] on its
    sub-chunks, [processLargeSrt] returns, merged, the themes of all the
    chunks answered and of all the sub-chunks answered, in order, and has
    warned once for each sub-chunk skipped; when a sub-chunk of a chunk that
    is split meets another error, the chunks before being so handled,
    [processLargeSrt] throws that error right after the call that raised
    it, and returns no theme. *)
Theorem splitAndProcessChunk_skips_capacity_errors
    (World : Type)
    (extractThemesWithAI : jsstring -> World -> Extract.Outcome * World)
    (toLowerCase : jsstring -> jsstring) :
  (forall (chunk : jsstring) (w : World),
     safeIndices chunk ->
     exists subChunks,
       Extract.subChunksOf chunk = Some subChunks
       /\ (Forall notFatal (responses extractThemesWithAI subChunks w) ->
           Extract.splitAndProcessChunk extractThemesWithAI chunk w
           = Some (Extract.mkRun
                     (Extract.Returns
                        (themesOf (responses extractThemesWithAI subChunks w)))
                     (skippedFrom 0 (responses extractThemesWithAI subChunks w))
                     (worldAfter extractThemesWithAI subChunks w)))
       /\ (forall pre message post,
             responses extractThemesWithAI subChunks w
             = pre ++ Extract.Throws message :: post ->
             Forall notFatal pre ->
             str_eqb message Extract.FORCE_SPLIT = false ->
             Extract.splitAndProcessChunk extractThemesWithAI chunk w
             = Some (Extract.mkRun (Extract.Throws message)
                       (skippedFrom 0 pre)
                       (worldAfter extractThemesWithAI
                          (firstn (S (length pre)) subChunks) w))))
  /\ (forall (chunk : jsstring) (w : World),
        filter Srt.hasTimestamp (split LF chunk) = [] ->
        Extract.splitAndProcessChunk extractThemesWithAI chunk w
        = Some (Extract.mkRun (Extract.Returns []) [] w))
  /\ (forall (fuel : nat) (srtContent model provider : jsstring)
             (parts : list (list Srt.Subtitle)) (w : World),
        safeIndices srtContent ->
        Extract.planChunks fuel
          (Extract.subtitlesPerChunk srtContent model provider)
          (Srt.parseSrt srtContent) = Some parts ->
        (allHandled extractThemesWithAI
           (List.map Srt.formatSubtitlesToSrt parts) w ->
         Extract.processLargeSrt extractThemesWithAI toLowerCase fuel
           srtContent model provider w
         = Some (Extract.mkRun
                   (Extract.Returns
                      (Themes.mergeOverlappingThemes toLowerCase
                         (retainedOf extractThemesWithAI
                            (List.map Srt.formatSubtitlesToSrt parts) w)))
                   (warnedOf extractThemesWithAI
                      (List.map Srt.formatSubtitlesToSrt parts) w)
                   (worldAfterChunks extractThemesWithAI
                      (List.map Srt.formatSubtitlesToSrt parts) w)))
        /\ (forall pre c post w2 spre message spost,
              List.map Srt.formatSubtitlesToSrt parts = pre ++ c :: post ->
              allHandled extractThemesWithAI pre w ->
              extractThemesWithAI c
                (worldAfterChunks extractThemesWithAI pre w)
              = (Extract.Throws Extract.FORCE_SPLIT, w2) ->
              (1000 <? length c)%nat = true ->
              responses extractThemesWithAI (subChunksFor c) w2
              = spre ++ Extract.Throws message :: spost ->
              Forall notFatal spre ->
              str_eqb message Extract.FORCE_SPLIT = false ->
              Extract.processLargeSrt extractThemesWithAI toLowerCase fuel
                srtContent model provider w
              = Some (Extract.mkRun (Extract.Throws message)
                        (warnedOf extractThemesWithAI pre w
                         ++ skippedFrom 0 spre)
                        (worldAfter extractThemesWithAI
                           (firstn (S (length spre)) (subChunksFor c)) w2)))).
Proof.
  split.
  - intros chunk w _. exists (subChunksFor chunk).
    split; [apply subChunksOf_subChunksFor|].
    rewrite splitAndProcessChunk_subChunkLoop. split.
    + intros Hok. rewrite subChunkLoop_not_fatal by exact Hok. reflexivity.
    + intros pre message post Hresp Hpre Hmsg.
      rewrite (@subChunkLoop_fatal World extractThemesWithAI
                 (subChunksFor chunk) 0%nat [] [] w pre message post Hresp
                 Hpre Hmsg).
      reflexivity.
  - split.
    { intros chunk w Hno. unfold Extract.splitAndProcessChunk.
      unfold Extract.subChunksOf.
      rewrite (parseSrt_no_timestamp _ Hno). reflexivity. }
    intros fuel srtContent model provider parts w _ Hplan. split.
    + intros Hok. unfold Extract.processLargeSrt. rewrite Hplan.
      rewrite chunkLoop_handled by exact Hok. reflexivity.
    + intros pre c post w2 spre message spost Hparts Hpre Hc Hlong Hsub
        Hspre Hm.
      unfold Extract.processLargeSrt. rewrite Hplan, Hparts.
      rewrite (@chunkLoop_sub_fatal World extractThemesWithAI pre c post w2
                 spre message spost [] [] w Hpre Hc Hlong Hsub Hspre Hm).
      reflexivity.
Qed.

(** A service that counts its calls: the call with [fails] calls before it
    throws [message], every other call returns one theme. *)
Definition countingService (fails : nat) (message : jsstring)
    (chunk : jsstring) (calls : nat) : Extract.Outcome * nat :=
  (if (calls =? fails)%nat then Extract.Throws message
   else Extract.Returns
          [Themes.mkTheme (js "00:00:01,000") (js "00:00:02,000")
             (stringOfZ (Z.of_nat calls))],
   S calls).

(** Eleven cues, which make three sub-chunks. *)
Definition elevenCues : jsstring :=
  concat
    (List.map
       (fun k =>
          unlines [stringOfZ (Z.of_nat k);
                   js "00:00:01,000 --> 00:00:02,000"; js "text"; js ""; js ""])
       (seq 1 11)).

(** A service that throws [FORCE_SPLIT] at its first [fails] calls and
    returns one theme, named after the number of calls before, at every
    call behind. *)
Definition overloadedService (fails : nat) (chunk : jsstring) (calls : nat)
  : Extract.Outcome * nat :=
  (if (calls <? fails)%nat then Extract.Throws Extract.FORCE_SPLIT
   else Extract.Returns
          [Themes.mkTheme (js "00:00:01,000") (js "00:00:02,000")
             (stringOfZ (Z.of_nat calls))],
   S calls).

(** Seven cues of some 1200 units; the text of each holds a line that
    starts with a number and a line with two full timestamps behind it, so
    that a chunk written from them is read back as cues. *)
Definition sevenLongCues : jsstring :=
  concat
    (List.map
       (fun k =>
          unlines [stringOfZ (Z.of_nat k);
                   js "00:00:01,000 --> 00:00:02,000";
                   stringOfZ (Z.of_nat k) ++ js " a";
                   js "00:00:03,000 --> 00:00:04,000";
                   repeat 97%N 1140; js ""; js ""])
       (seq 1 7)).

(** The extraction of [sevenLongCues] with [gpt-4]: two chunks, of six cues
    and of one.  The service throws [FORCE_SPLIT] on the first chunk, which
    is split in two sub-chunks, and again on the first sub-chunk, which is
    skipped with a warning; the themes of the second sub-chunk and of the
    second chunk are returned. *)
Lemma splitAndProcessChunk_skips_witness :
  Extract.processLargeSrt (overloadedService 2) Themes.toLowerCaseAscii 8
    sevenLongCues (js "gpt-4") (js "openai") 0%nat
  = Some (Extract.mkRun
            (Extract.Returns
               [Themes.mkTheme (js "00:00:01,000") (js "00:00:02,000") (js "2");
                Themes.mkTheme (js "00:00:01,000") (js "00:00:02,000") (js "3")])
            [1%nat] 4%nat).
Proof.
  destruct (@splitAndProcessChunk_skips_capacity_errors nat
              (overloadedService 2) Themes.toLowerCaseAscii)
    as (_ & _ & Hrun).
  destruct (Hrun 8%nat sevenLongCues (js "gpt-4") (js "openai")
              [firstn 6 (Srt.parseSrt sevenLongCues);
               skipn 6 (Srt.parseSrt sevenLongCues)] 0%nat)
    as [Hok _]; [safe_indices|vm_compute; reflexivity|].
  rewrite Hok; [vm_compute; reflexivity|].
  vm_compute. repeat constructor.
Defined.

(** The same with the message [boom]: it is thrown on, after one call. *)
Example splitAndProcessChunk_rethrows :
  Extract.splitAndProcessChunk (countingService 1 (js "boom")) elevenCues 0%nat
  = Some (Extract.mkRun (Extract.Throws (js "boom")) [] 2%nat).
Proof. vm_compute. reflexivity. Qed.

(* ================================================================== *)
(** * Facts about the order of numbers of either sign *)
(* ================================================================== *)

Module IEEEOrder.

Import IEEE.
Local Open Scope Z_scope.

(** The exact value with its sign, in units of the least positive number. *)
Definition valS (x : spec_float) : Z :=
  match x with
  | S754_zero _ | S754_nan => 0
  | S754_finite s m e => cond_Zopp s (Z.pos m * 2 ^ (e - emin64))
  | S754_infinity s => cond_Zopp s top
  end.

Definition notNaNs (x : spec_float) : Prop :=
  match x with S754_nan => False | _ => True end.

(** [SFcompare] compares exact values, whatever the signs. *)
Lemma SFcompare_val x y :
  valid_binary x = true -> valid_binary y = true -> notNaNs x -> notNaNs y ->
  SFcompare x y = Some (valS x ?= valS y).
Proof.
  intros Vx Vy Nx Ny. pose proof top_pos as Ht.
  destruct x as [sx|sx| |sx mx ex], y as [sy|sy| |sy my ey];
    cbn [notNaNs] in Nx, Ny; try tauto;
    try pose proof (rankS_finite_bounds _ _ _ Vx) as Bx;
    try pose proof (rankS_finite_bounds _ _ _ Vy) as By;
    cbn [rankS] in *;
    try solve [ try destruct sx; try destruct sy;
                cbn [SFcompare valS cond_Zopp]; f_equal; symmetry;
                first [ apply Z.compare_eq_iff; reflexivity
                      | apply Z.compare_lt_iff; lia
                      | apply Z.compare_gt_iff; lia ] ].
  pose proof (@SFcompare_rank (S754_finite false mx ex)
                (S754_finite false my ey) Vx Vy eq_refl eq_refl) as H.
  unfold rankS in H.
  destruct sx, sy.
  - replace (SFcompare (S754_finite true mx ex) (S754_finite true my ey))
      with (option_map CompOpp
              (SFcompare (S754_finite false mx ex) (S754_finite false my ey)))
      by (cbn [SFcompare option_map]; destruct (ex ?= ey); reflexivity).
    rewrite H. cbn [option_map valS cond_Zopp]. f_equal.
    rewrite Z.compare_opp. symmetry. apply Z.compare_antisym.
  - cbn [SFcompare valS cond_Zopp]. f_equal.
    symmetry. apply Z.compare_lt_iff. lia.
  - cbn [SFcompare valS cond_Zopp]. f_equal.
    symmetry. apply Z.compare_gt_iff. lia.
  - exact H.
Qed.

(** A difference above zero: neither number is NaN, and the first is the
    larger. *)
Lemma SFsub_pos x y :
  valid_binary x = true -> valid_binary y = true ->
  SFltb (S754_zero false) (SFsub prec emax x y) = true ->
  notNaNs x /\ notNaNs y /\ valS y < valS x.
Proof.
  intros Vx Vy. pose proof top_pos as Ht.
  destruct x as [sx|sx| |sx mx ex], y as [sy|sy| |sy my ey];
    try pose proof (rankS_finite_bounds _ _ _ Vx) as Bx;
    try pose proof (rankS_finite_bounds _ _ _ Vy) as By;
    cbn [rankS] in *;
    try solve [ try destruct sx; try destruct sy;
                cbv [SFsub SFltb SFcompare negb Bool.eqb valS cond_Zopp notNaNs];
                intros H; first [ discriminate H | repeat split; lia ] ].
  apply valid_finite in Vx as [[Hx1 Hx2] _].
  apply valid_finite in Vy as [[Hy1 Hy2] _].
  cbn [SFsub valS notNaNs].
  set (ez := Z.min ex ey).
  assert (Hez : emin64 <= ez) by (unfold ez; lia).
  rewrite !shl_align_fst by (unfold ez; lia).
  assert (Hx : Z.pos mx * 2 ^ (ex - emin64)
               = Z.pos mx * 2 ^ (ex - ez) * 2 ^ (ez - emin64)).
  { rewrite <- Z.mul_assoc, <- Z.pow_add_r by lia. do 2 f_equal. lia. }
  assert (Hy : Z.pos my * 2 ^ (ey - emin64)
               = Z.pos my * 2 ^ (ey - ez) * 2 ^ (ez - emin64)).
  { rewrite <- Z.mul_assoc, <- Z.pow_add_r by (unfold ez; lia). do 2 f_equal. lia. }
  rewrite Hx, Hy.
  assert (Hk : 0 < 2 ^ (ez - emin64)) by (apply Z.pow_pos_nonneg; lia).
  assert (HX : 0 < Z.pos mx * 2 ^ (ex - ez))
    by (apply Z.mul_pos_pos; [lia|apply Z.pow_pos_nonneg; lia]).
  assert (HY : 0 < Z.pos my * 2 ^ (ey - ez))
    by (apply Z.mul_pos_pos; [lia|apply Z.pow_pos_nonneg; unfold ez; lia]).
  clear Hx Hy Bx By.
  revert HX HY.
  generalize (Z.pos mx * 2 ^ (ex - ez)) (Z.pos my * 2 ^ (ey - ez)).
  intros X Y HX HY.
  remember (cond_Zopp sx X - cond_Zopp sy Y) as M eqn:HM.
  destruct M as [|p|p]; cbn [binary_normalize].
  - cbv [SFltb SFcompare]. discriminate.
  - intros _. repeat split.
    destruct sx, sy; cbn [cond_Zopp] in *; nia.
  - pose proof (binary_round_signed true p ez) as Hs.
    destruct (binary_round prec emax true p ez); cbn in Hs; try tauto; subst;
      cbv [SFltb SFcompare]; discriminate.
Qed.

(** Rounding a mantissa of at least [2 ^ k] at an exponent of at least
    [emin - k] does not lose it. *)
Lemma shr_fexp_pos_from m e l k :
  0 <= k -> 2 ^ k <= m -> emin64 <= e + k ->
  0 < shr_m (fst (shr_fexp prec emax m e l))
  /\ emin64 <= snd (shr_fexp prec emax m e l).
Proof.
  intros Hk Hm He. unfold shr_fexp, shr.
  assert (H2k : 0 < 2 ^ k) by (apply Z.pow_pos_nonneg; lia).
  destruct m as [|m|m]; try lia. simpl Zdigits2.
  pose proof (digits2_bounds m) as [Hlo _].
  remember (fexp prec emax (Z.pos (digits2_pos m) + e) - e) as n eqn:Hn.
  destruct n as [|p|p]; simpl fst; simpl snd;
    try (rewrite shr_record_of_loc_m; split; [lia|];
         pose proof (fexp_ge_emin (Z.pos (digits2_pos m) + e)); lia).
  rewrite iter_shr_m by (rewrite shr_record_of_loc_m; lia).
  rewrite shr_record_of_loc_m.
  split; [|pose proof (fexp_ge_emin (Z.pos (digits2_pos m) + e)); lia].
  apply Z.div_str_pos. split; [lia|].
  assert (Hp : Z.pos p = Z.pos (digits2_pos m) - prec \/ Z.pos p <= k).
  { unfold fexp, emin64 in *. unfold prec in *. lia. }
  destruct Hp as [Hp|Hp].
  - eapply Z.le_trans; [|exact Hlo].
    apply Z.pow_le_mono_r; [lia|]. unfold prec in Hp. lia.
  - eapply Z.le_trans; [|exact Hm]. apply Z.pow_le_mono_r; lia.
Qed.

Lemma binary_round_aux_strict_from s m e l k :
  0 <= k -> 2 ^ k <= m -> emin64 <= e + k ->
  strict s (binary_round_aux prec emax s m e l).
Proof.
  intros Hk Hm He. unfold binary_round_aux.
  pose proof (@shr_fexp_pos_from m e l k Hk Hm He) as [H1 H1e].
  destruct (shr_fexp prec emax m e l) as [r1 e1]. simpl fst in H1; simpl snd in H1e.
  assert (H2 : 0 < round_nearest_even (shr_m r1) (loc_of_shr_record r1)).
  { pose proof (round_nearest_even_ge (shr_m r1) (loc_of_shr_record r1)). lia. }
  pose proof (shr_fexp_pos loc_Exact H2 H1e) as [H3 _].
  destruct (shr_fexp prec emax _ e1 loc_Exact) as [r2 e2]. simpl fst in H3.
  destruct (shr_m r2) as [|p|p]; [lia| |lia].
  destruct (e2 <=? emax - prec); reflexivity.
Qed.

(** ** On numbers *)

Lemma ltb_zero_strict x :
  SFltb (S754_zero false) x = true <-> strict false x.
Proof.
  destruct x as [s|s| |s m e]; cbv [SFltb SFcompare strict];
    try destruct s; split; intros H; try discriminate; try tauto; reflexivity.
Qed.

(** [0 < a - b] only if [b < a]. *)
Lemma sub_pos_lt (a b : float) :
  (0 <? a - b)%float = true -> (b <? a)%float = true.
Proof.
  rewrite !ltb_spec, sub_spec. change (Prim2SF 0) with (S754_zero false).
  intros H.
  apply SFsub_pos in H as (Na & Nb & Hlt); try apply Prim2SF_valid.
  unfold SFltb. rewrite SFcompare_val by (auto using Prim2SF_valid).
  apply Z.compare_lt_iff in Hlt. rewrite Hlt. reflexivity.
Qed.

(** A number at or above one above zero is above zero. *)
Lemma leb_pos (m d : float) :
  (0 <? m)%float = true -> (m <=? d)%float = true -> (0 <? d)%float = true.
Proof.
  rewrite !ltb_spec, leb_spec. change (Prim2SF 0) with (S754_zero false).
  destruct (Prim2SF m) as [s|s| |s mm em], (Prim2SF d) as [s'|s'| |s' md ed];
    try destruct s; try destruct s'; cbv [SFltb SFleb SFcompare];
    intros H1 H2; try discriminate; reflexivity.
Qed.

(** Twice a number above zero is above zero. *)
Lemma mul2_pos (m : float) :
  (0 <? m)%float = true -> (0 <? m * 2)%float = true.
Proof.
  rewrite !ltb_spec, mul_spec. change (Prim2SF 0) with (S754_zero false).
  change (Prim2SF 2) with (S754_finite false 4503599627370496 (-51)).
  pose proof (Prim2SF_valid m) as V.
  intros H. apply ltb_zero_strict in H. apply ltb_zero_strict.
  destruct (Prim2SF m) as [s|s| |s mm em]; cbn [strict] in H; try tauto; subst.
  - reflexivity.
  - apply valid_finite in V as [[He _] _]. cbn [SFmul xorb].
    apply binary_round_aux_strict_from with (k := 52); [lia| |lia].
    rewrite Pos2Z.inj_mul. change (Z.pos 4503599627370496) with (2 ^ 52). nia.
Qed.

(** A segment at least as long as a duration above zero starts before it
    ends. *)
Lemma duration_lt (m a b : float) :
  (0 <? m)%float = true -> (m <=? a - b)%float = true -> (b <? a)%float = true.
Proof. intros H1 H2. apply sub_pos_lt. eapply leb_pos; eassumption. Qed.

(** A comparison that holds has no NaN in it, and so has no difference. *)
Lemma SFleb_refl x : notNaNs x -> SFleb x x = true.
Proof.
  destruct x as [s|s| |s m e]; cbv [SFleb SFcompare notNaNs]; try tauto;
    intros _; destruct s; try reflexivity;
    rewrite Z.compare_refl, Pos.compare_cont_refl; reflexivity.
Qed.

Lemma SFleb_notNaNs x y : SFleb x y = true -> notNaNs x /\ notNaNs y.
Proof.
  destruct x as [s|s| |s m e], y as [s'|s'| |s' m' e'];
    cbv [SFleb SFcompare notNaNs]; intros H; try discriminate; tauto.
Qed.

Lemma SFsub_notNaNs x y :
  notNaNs (SFsub prec emax x y) -> notNaNs x /\ notNaNs y.
Proof.
  destruct x as [s|s| |s m e], y as [s'|s'| |s' m' e'];
    cbv [SFsub notNaNs]; tauto.
Qed.

Lemma leb_notNaN (m d : float) :
  (m <=? d)%float = true -> (d <=? d)%float = true.
Proof.
  rewrite !leb_spec. intros H. apply SFleb_notNaNs in H as [_ H].
  apply SFleb_refl, H.
Qed.

Lemma sub_notNaN (a b : float) :
  (a - b <=? a - b)%float = true ->
  (a <=? a)%float = true /\ (b <=? b)%float = true.
Proof.
  rewrite !leb_spec, sub_spec. intros H.
  apply SFleb_notNaNs in H as [_ H]. apply SFsub_notNaNs in H as [Ha Hb].
  split; apply SFleb_refl; assumption.
Qed.

End IEEEOrder.

(* ================================================================== *)
(** * Facts about the segment planners *)
(* ================================================================== *)

Section SegmentFacts.

Import Video IEEEOrder.

Variable minSegmentDuration : float.

(** At least [minSegmentDuration] long. *)
Definition longEnough (l t : float) : Prop :=
  (minSegmentDuration <=? t - l)%float = true.

Lemma silenceLoop_Forall (P : Segment -> Prop) (videoDuration padding : float) :
  (forall l t, longEnough l t -> P (mkSegment l t)) ->
  forall silences segments lastEnd,
  Forall P segments ->
  Forall P (fst (silenceLoop videoDuration padding minSegmentDuration
                   silences segments lastEnd)).
Proof.
  intros HP silences.
  induction silences as [|silence rest IH]; intros segments lastEnd Hs;
    cbn [silenceLoop fst]; [exact Hs|].
  apply IH.
  destruct (minSegmentDuration <=? _)%float eqn:E; [|exact Hs].
  apply Forall_app. split; [exact Hs|]. constructor; [|constructor].
  apply HP. exact E.
Qed.

Lemma cutSilentParts_Forall (P : Segment -> Prop)
    (silences : list Silence) (videoDuration padding : float) :
  (forall l t, longEnough l t -> P (mkSegment l t)) ->
  Forall P (cutSilentParts silences videoDuration padding minSegmentDuration).
Proof.
  intros HP. unfold cutSilentParts.
  pose proof (@silenceLoop_Forall P videoDuration padding HP silences [] 0%float
                (Forall_nil _)) as H.
  destruct (silenceLoop _ _ _ silences [] 0%float) as [segments lastEnd].
  cbn [fst] in H.
  destruct (minSegmentDuration <=? _)%float eqn:E; [|exact H].
  apply Forall_app. split; [exact H|]. constructor; [|constructor].
  apply HP. exact E.
Qed.

(** Within a segment, by the two tests of the filter. *)
Definition inside (seg : Segment) (time : float) : Prop :=
  (seg_start seg <=? time)%float = true /\ (time <=? seg_end seg)%float = true.

(** What is known of a segment from [l] to [t] pushed while [seg] is
    refined. *)
Definition cutFrom (seg : Segment) (l t : float) : Prop :=
  (l = seg_start seg \/ inside seg l)
  /\ (t = seg_end seg \/ inside seg t)
  /\ (longEnough l t
      \/ (minSegmentDuration * 2 <=? t - l)%float = true).

Lemma sceneLoop_Forall (P : Segment -> Prop) (seg : Segment) :
  (forall l t, cutFrom seg l t -> P (mkSegment l t)) ->
  forall segmentSceneChanges refinedSegments lastSceneTime,
  Forall (inside seg) segmentSceneChanges ->
  lastSceneTime = seg_start seg \/ inside seg lastSceneTime ->
  Forall P refinedSegments ->
  Forall P (fst (sceneLoop minSegmentDuration segmentSceneChanges
                   refinedSegments lastSceneTime))
  /\ (snd (sceneLoop minSegmentDuration segmentSceneChanges
             refinedSegments lastSceneTime) = seg_start seg
      \/ inside seg (snd (sceneLoop minSegmentDuration segmentSceneChanges
                            refinedSegments lastSceneTime))).
Proof.
  intros HP scs.
  induction scs as [|sceneTime rest IH]; intros acc lastT Hin Hlast Hacc;
    cbn [sceneLoop fst snd]; [split; assumption|].
  inversion Hin as [|? ? Ht Hrest]; subst.
  apply IH; [exact Hrest|right; exact Ht|].
  destruct (minSegmentDuration <=? _)%float eqn:E; [|exact Hacc].
  apply Forall_app. split; [exact Hacc|]. constructor; [|constructor].
  apply HP. split; [exact Hlast|]. split; [right; exact Ht|left; exact E].
Qed.

Lemma refineSegment_Forall (P : Segment -> Prop) (sceneChanges : list float)
    (seg : Segment) (refinedSegments : list Segment) :
  (forall l t, cutFrom seg l t -> P (mkSegment l t)) ->
  Forall P refinedSegments ->
  Forall P (refineSegment sceneChanges minSegmentDuration refinedSegments seg).
Proof.
  intros HP Hacc. unfold refineSegment.
  set (scs := filter _ sceneChanges).
  assert (Hin : Forall (inside seg) scs).
  { apply Forall_forall. intros t Ht. apply filter_In in Ht as [_ Ht].
    apply andb_true_iff in Ht. exact Ht. }
  destruct (length scs <? 2)%nat.
  - destruct (minSegmentDuration * 2 <=? _)%float eqn:E; [|exact Hacc].
    apply Forall_app. split; [exact Hacc|]. constructor; [|constructor].
    destruct seg as [s e]. apply HP. cbn [seg_start seg_end] in *.
    split; [left; reflexivity|]. split; [left; reflexivity|right; exact E].
  - pose proof (@sceneLoop_Forall P seg HP scs refinedSegments (seg_start seg)
                  Hin (or_introl eq_refl) Hacc) as [H Hlast].
    destruct (sceneLoop _ scs refinedSegments (seg_start seg)) as [acc lastT].
    cbn [fst snd] in H, Hlast.
    destruct (minSegmentDuration <=? _)%float eqn:E; [|exact H].
    apply Forall_app. split; [exact H|]. constructor; [|constructor].
    apply HP. split; [exact Hlast|]. split; [left; reflexivity|left; exact E].
Qed.

Lemma refineSegments_Forall (P : Segment -> Prop) (sceneChanges : list float)
    (segments : list Segment) :
  (forall seg l t, In seg segments -> cutFrom seg l t -> P (mkSegment l t)) ->
  Forall P (refineSegmentsWithSceneInfo segments sceneChanges
              minSegmentDuration).
Proof.
  unfold refineSegmentsWithSceneInfo.
  generalize (@Forall_nil _ P). generalize (@nil Segment).
  induction segments as [|seg rest IH]; intros acc Hacc HP; cbn [fold_left];
    [exact Hacc|].
  apply IH.
  - apply refineSegment_Forall; [|exact Hacc].
    intros l t. apply HP. left. reflexivity.
  - intros seg' l t Hin. apply HP. right. exact Hin.
Qed.

(** A segment pushed is not empty when [minSegmentDuration] is above zero. *)
Lemma longEnough_lt (l t : float) :
  (0 <? minSegmentDuration)%float = true ->
  longEnough l t \/ (minSegmentDuration * 2 <=? t - l)%float = true ->
  (l <? t)%float = true.
Proof.
  intros Hm [H|H].
  - eapply duration_lt; eassumption.
  - eapply duration_lt; [apply mul2_pos; exact Hm|exact H].
Qed.

(** A segment pushed starts and ends within the segment refined. *)
Lemma cutFrom_inside (seg : Segment) (l t : float) :
  cutFrom seg l t ->
  (seg_start seg <=? l)%float = true /\ (t <=? seg_end seg)%float = true.
Proof.
  intros (Hl & Ht & Hd).
  assert (Hn : (l <=? l)%float = true /\ (t <=? t)%float = true).
  { destruct Hd as [Hd|Hd]; apply leb_notNaN, sub_notNaN in Hd; tauto. }
  split.
  - destruct Hl as [->|[Hl _]]; tauto.
  - destruct Ht as [->|[_ Ht]]; tauto.
Qed.

End SegmentFacts.

(* ================================================================== *)
(** * Properties of the segment planners *)
(* ================================================================== *)

(** X1: whatever the silences, the duration, the padding and
    [minSegmentDuration] are, every segment [cutSilentParts] keeps is at
    least [minSegmentDuration] long; and when [minSegmentDuration] is above
    zero, every segment it keeps starts before it ends. *)
Theorem cutSilentParts_segments_not_empty
    (silences : list Video.Silence)
    (videoDuration padding minSegmentDuration : float) :
  Forall
    (fun seg =>
       (minSegmentDuration
        <=? Video.seg_end seg - Video.seg_start seg)%float = true)
    (Video.cutSilentParts silences videoDuration padding minSegmentDuration)
  /\ ((0 <? minSegmentDuration)%float = true ->
      Forall
        (fun seg => (Video.seg_start seg <? Video.seg_end seg)%float = true)
        (Video.cutSilentParts silences videoDuration padding
           minSegmentDuration)).
Proof.
  split.
  - apply cutSilentParts_Forall. intros l t H. exact H.
  - intros Hm. apply cutSilentParts_Forall. intros l t H.
    cbn [Video.seg_start Video.seg_end].
    eapply longEnough_lt; [exact Hm|left; exact H].
Qed.

(** Two silences and the minimum 0.3: three segments, each longer than 0.3
    and none empty. *)
Lemma cutSilentParts_segments_not_empty_witness :
  length
    (Video.cutSilentParts
       [Video.mkSilence 10 12 2; Video.mkSilence 40 42 2] 50 1 0.3) = 3%nat
  /\ Forall
       (fun seg =>
          (0.3 <=? Video.seg_end seg - Video.seg_start seg)%float = true)
       (Video.cutSilentParts
          [Video.mkSilence 10 12 2; Video.mkSilence 40 42 2] 50 1 0.3)
  /\ Forall
       (fun seg => (Video.seg_start seg <? Video.seg_end seg)%float = true)
       (Video.cutSilentParts
          [Video.mkSilence 10 12 2; Video.mkSilence 40 42 2] 50 1 0.3).
Proof.
  destruct (@cutSilentParts_segments_not_empty
              [Video.mkSilence 10 12 2; Video.mkSilence 40 42 2] 50 1 0.3)
    as [Hlong Hlt].
  split; [reflexivity|]. split; [exact Hlong|]. apply Hlt. reflexivity.
Defined.

(** Where [cutSilentParts] cuts: a segment starts at zero or at the padded
    end of a silence, cut off at the duration, and ends at the padded start
    of a silence, not below zero, or at the duration. *)
Definition cutsAtSilences (silences : list Video.Silence)
    (videoDuration padding : float) (seg : Video.Segment) : Prop :=
  (Video.seg_start seg = 0%float
   \/ exists silence,
        In silence silences
        /\ Video.seg_start seg
           = Math_min videoDuration (Video.end_ silence + padding)%float)
  /\ (Video.seg_end seg = videoDuration
      \/ exists silence,
           In silence silences
           /\ Video.seg_end seg
              = Math_max 0 (Video.start silence - padding)%float).

Lemma silenceLoop_cuts (all : list Video.Silence)
    (videoDuration padding minSegmentDuration : float) :
  forall silences segments lastEnd segments' lastEnd',
  Video.silenceLoop videoDuration padding minSegmentDuration
    silences segments lastEnd = (segments', lastEnd') ->
  incl silences all ->
  Forall (cutsAtSilences all videoDuration padding) segments ->
  (lastEnd = 0%float
   \/ exists silence,
        In silence all
        /\ lastEnd = Math_min videoDuration (Video.end_ silence + padding)%float) ->
  Forall (cutsAtSilences all videoDuration padding) segments'
  /\ (lastEnd' = 0%float
      \/ exists silence,
           In silence all
           /\ lastEnd'
              = Math_min videoDuration (Video.end_ silence + padding)%float)
  /\ (length segments' <= length segments + length silences)%nat.
Proof.
  intros silences.
  induction silences as [|silence rest IH];
    intros segments lastEnd segments' lastEnd' E Hincl Hs Hl;
    cbn [Video.silenceLoop] in E.
  - injection E as <- <-. cbn [length]. split; [exact Hs|]. split; [exact Hl|lia].
  - assert (Hin : In silence all) by (apply Hincl; left; reflexivity).
    assert (Hrest : incl rest all)
      by (intros x Hx; apply Hincl; right; exact Hx).
    apply IH in E; [| exact Hrest | | ].
    + destruct E as (H1 & H2 & H3). split; [exact H1|]. split; [exact H2|].
      destruct (minSegmentDuration <=? _)%float;
        [rewrite length_app in H3|]; cbn [length] in *; lia.
    + destruct (minSegmentDuration <=? _)%float; [|exact Hs].
      apply Forall_app. split; [exact Hs|]. constructor; [|constructor].
      split; cbn [Video.seg_start Video.seg_end]; [exact Hl|].
      right. exists silence. split; [exact Hin|reflexivity].
    + right. exists silence. split; [exact Hin|reflexivity].
Qed.

(** X2: [cutSilentParts] cuts only at the silences: each segment it keeps
    starts at zero or at the padded end of a silence and ends at the padded
    start of a silence or at the duration, and there is at most one segment
    more than there are silences. *)
Theorem cutSilentParts_cuts_at_silences
    (silences : list Video.Silence)
    (videoDuration padding minSegmentDuration : float) :
  Forall (cutsAtSilences silences videoDuration padding)
    (Video.cutSilentParts silences videoDuration padding minSegmentDuration)
  /\ (length (Video.cutSilentParts silences videoDuration padding
                minSegmentDuration)
      <= S (length silences))%nat.
Proof.
  unfold Video.cutSilentParts.
  destruct (Video.silenceLoop _ _ _ silences [] 0%float)
    as [segments lastEnd] eqn:E.
  apply (@silenceLoop_cuts silences) in E as (H1 & H2 & H3);
    [|apply incl_refl|constructor|left; reflexivity].
  cbn [length] in H3.
  destruct (minSegmentDuration <=? _)%float.
  - split.
    + apply Forall_app. split; [exact H1|]. constructor; [|constructor].
      split; cbn [Video.seg_start Video.seg_end]; [exact H2|left; reflexivity].
    + rewrite length_app. cbn [length]. lia.
  - split; [exact H1|lia].
Qed.

(** X3: the segments [refineSegmentsWithSceneInfo] returns start before they
    end when [minSegmentDuration] is above zero, whatever the segments and
    the scene changes given; so do the segments of
    [combineSceneAndSilenceInfo]. *)
Theorem refineSegmentsWithSceneInfo_segments_not_empty
    (segments : list Video.Segment) (sceneChanges : list float)
    (minSegmentDuration : float) :
  (0 <? minSegmentDuration)%float = true ->
  Forall (fun seg => (Video.seg_start seg <? Video.seg_end seg)%float = true)
    (Video.refineSegmentsWithSceneInfo segments sceneChanges
       minSegmentDuration)
  /\ forall silences videoDuration padding,
       Forall
         (fun seg => (Video.seg_start seg <? Video.seg_end seg)%float = true)
         (Video.combineSceneAndSilenceInfo silences sceneChanges
            videoDuration padding minSegmentDuration).
Proof.
  intros Hm.
  assert (H : forall segs,
             Forall
               (fun seg =>
                  (Video.seg_start seg <? Video.seg_end seg)%float = true)
               (Video.refineSegmentsWithSceneInfo segs sceneChanges
                  minSegmentDuration)).
  { intros segs. apply refineSegments_Forall. intros seg l t _ (_ & _ & Hd).
    cbn [Video.seg_start Video.seg_end].
    eapply longEnough_lt; [exact Hm|exact Hd]. }
  split; [apply H|]. intros silences videoDuration padding. apply H.
Qed.

Lemma refineSegmentsWithSceneInfo_segments_not_empty_witness :
  Forall (fun seg => (Video.seg_start seg <? Video.seg_end seg)%float = true)
    (Video.refineSegmentsWithSceneInfo
       [Video.mkSegment 0 9; Video.mkSegment 13 39] [2; 15; 20; 38.9]%float 0.3).
Proof.
  apply (@refineSegmentsWithSceneInfo_segments_not_empty
           [Video.mkSegment 0 9; Video.mkSegment 13 39] [2; 15; 20; 38.9]%float 0.3).
  reflexivity.
Defined.

(** X4: refining never widens: every segment
    [refineSegmentsWithSceneInfo] returns starts and ends within one of the
    segments given, and every segment of [combineSceneAndSilenceInfo] lies
    within a segment that [cutSilentParts] keeps for the same silences. *)
Theorem refineSegmentsWithSceneInfo_within
    (segments : list Video.Segment) (sceneChanges : list float)
    (minSegmentDuration : float) :
  Forall
    (fun r =>
       exists seg,
         In seg segments
         /\ (Video.seg_start seg <=? Video.seg_start r)%float = true
         /\ (Video.seg_end r <=? Video.seg_end seg)%float = true)
    (Video.refineSegmentsWithSceneInfo segments sceneChanges
       minSegmentDuration)
  /\ forall silences videoDuration padding,
       Forall
         (fun r =>
            exists seg,
              In seg (Video.cutSilentParts silences videoDuration padding
                        minSegmentDuration)
              /\ (Video.seg_start seg <=? Video.seg_start r)%float = true
              /\ (Video.seg_end r <=? Video.seg_end seg)%float = true)
         (Video.combineSceneAndSilenceInfo silences sceneChanges
            videoDuration padding minSegmentDuration).
Proof.
  assert (H : forall segs,
             Forall
               (fun r =>
                  exists seg,
                    In seg segs
                    /\ (Video.seg_start seg <=? Video.seg_start r)%float = true
                    /\ (Video.seg_end r <=? Video.seg_end seg)%float = true)
               (Video.refineSegmentsWithSceneInfo segs sceneChanges
                  minSegmentDuration)).
  { intros segs. apply refineSegments_Forall. intros seg l t Hin Hc.
    exists seg. split; [exact Hin|].
    cbn [Video.seg_start Video.seg_end]. eapply cutFrom_inside. exact Hc. }
  split; [apply H|]. intros silences videoDuration padding. apply H.
Qed.

(* ================================================================== *)
(** * More facts about the merge loop *)
(* ================================================================== *)

Section MergeProvenance.

Import Themes.

Variable toLowerCase : jsstring -> jsstring.

(** A span emitted, seen from the spans given: it has the start and the label
    of one of them, its leader, and the end of one of them, which is not
    before the end of the leader. *)
Definition ledBy (all : list ThemeEntry) (r : ThemeEntry) : Prop :=
  exists t t',
    In t all /\ In t' all
    /\ start r = start t /\ theme r = theme t /\ end_ r = end_ t'
    /\ (Format.timeToSeconds (end_ t) <=? Format.timeToSeconds (end_ r))%float
       = true.

Lemma timeToSeconds_leb_refl (s : jsstring) :
  (Format.timeToSeconds s <=? Format.timeToSeconds s)%float = true.
Proof.
  rewrite leb_rank by apply timeToSeconds_NN. apply Z.leb_refl.
Qed.

Lemma ledBy_self (all : list ThemeEntry) (t : ThemeEntry) :
  In t all -> ledBy all t.
Proof.
  intros H. exists t, t. repeat split; try assumption.
  apply timeToSeconds_leb_refl.
Qed.

Lemma ledBy_extend (all : list ThemeEntry) (c t : ThemeEntry) :
  ledBy all c -> In t all -> ledBy all (extend c t).
Proof.
  intros (l & l' & Hl & Hl' & Hs & Ht & He & Hle) Hin. unfold extend.
  destruct (_ <? _)%float eqn:E; [|exists l, l'; repeat split; assumption].
  exists l, t. cbn [start theme end_]. repeat split; try assumption.
  rewrite ltb_rank in E by apply timeToSeconds_NN.
  rewrite leb_rank in Hle |- * by apply timeToSeconds_NN.
  apply Z.ltb_lt in E. apply Z.leb_le in Hle. apply Z.leb_le. lia.
Qed.

Lemma scan_ledBy (all : list ThemeEntry) (rest : list ThemeEntry) :
  forall c,
  ledBy all c -> incl rest all ->
  Forall (ledBy all) (scan toLowerCase c rest)
  /\ (0 < length (scan toLowerCase c rest) <= S (length rest))%nat.
Proof.
  induction rest as [|t rest IH]; intros c Hc Hincl; cbn [scan].
  - split; [repeat constructor; exact Hc|cbn [length]; lia].
  - assert (Hin : In t all) by (apply Hincl; left; reflexivity).
    assert (Hrest : incl rest all)
      by (intros x Hx; apply Hincl; right; exact Hx).
    destruct (Themes.mergeable toLowerCase c t).
    + destruct (IH (extend c t)) as [H1 H2];
        [apply ledBy_extend; assumption|exact Hrest|].
      split; [exact H1|cbn [length]; lia].
    + destruct (IH t) as [H1 H2]; [apply ledBy_self; exact Hin|exact Hrest|].
      split; [constructor; assumption|cbn [length]; lia].
Qed.

Lemma ledBy_Permutation (l l' : list ThemeEntry) (r : ThemeEntry) :
  Permutation l' l -> ledBy l' r -> ledBy l r.
Proof.
  intros HP (t & t' & Ht & Ht' & H). exists t, t'.
  split; [eapply Permutation_in; eassumption|].
  split; [eapply Permutation_in; eassumption|exact H].
Qed.

Lemma sort_byStart_Permutation (l : list ThemeEntry) :
  Permutation l (sort byStart l).
Proof. exact (sort_Permutation startKey l). Qed.

End MergeProvenance.

(* ================================================================== *)
(** * Properties of the consolidator and of the timestamp reader *)
(* ================================================================== *)

(** X5: [timeToSeconds] returns a number at or above zero for every string,
    with or without a timestamp in it: never NaN, never a number below
    zero. *)
Theorem timeToSeconds_not_below_zero (timeStr : jsstring) :
  (0 <=? Format.timeToSeconds timeStr)%float = true
  /\ is_nan (Format.timeToSeconds timeStr) = false.
Proof.
  pose proof (timeToSeconds_NN timeStr) as H.
  assert (H0 : NN 0%float) by exact I.
  assert (Hle : (0 <=? Format.timeToSeconds timeStr)%float = true).
  { rewrite leb_rank by assumption. apply Z.leb_le.
    change (rank 0) with 0%Z.
    apply (rankS_bounds (Prim2SF (Format.timeToSeconds timeStr))).
    apply Prim2SF_valid. }
  split; [exact Hle|].
  unfold is_nan. apply negb_false_iff.
  rewrite eqb_spec. unfold NN in H.
  destruct (Prim2SF (Format.timeToSeconds timeStr)) as [s|s| |s m e];
    cbv [SFeqb SFcompare]; cbn [NNs] in H; try tauto; try reflexivity;
    subst; try reflexivity.
  rewrite Z.compare_refl, Pos.compare_cont_refl. reflexivity.
Qed.

(** X6: the spans [mergeOverlappingThemes] returns are in ascending order of
    start, and no span of them would merge with the one before it. *)
Theorem mergeOverlappingThemes_in_start_order
    (toLowerCase : jsstring -> jsstring) (themes : list Themes.ThemeEntry) :
  StronglySorted
    (fun a b =>
       (Format.timeToSeconds (Themes.start a)
        <=? Format.timeToSeconds (Themes.start b))%float = true)
    (Themes.mergeOverlappingThemes toLowerCase themes)
  /\ Sorted (fun a b => Themes.mergeable toLowerCase a b = false)
       (Themes.mergeOverlappingThemes toLowerCase themes).
Proof.
  destruct (mergeOverlappingThemes_shape toLowerCase themes) as [H1 H2].
  split; [|exact H2].
  eapply StronglySorted_In_impl; [|exact H1].
  intros a b _ _ H. unfold keyLe, startKey in H.
  rewrite leb_rank by apply timeToSeconds_NN. apply Z.leb_le. exact H.
Qed.

(** X7: [mergeOverlappingThemes] invents nothing: every span it returns has
    the start and the label of one of the spans given and the end of one of
    them, and that end is not before the end the span with that start and
    label came with.  It returns at most as many spans as it is given, and
    at least one unless it is given none. *)
Theorem mergeOverlappingThemes_keeps_starts_and_labels
    (toLowerCase : jsstring -> jsstring) (themes : list Themes.ThemeEntry) :
  Forall (ledBy themes) (Themes.mergeOverlappingThemes toLowerCase themes)
  /\ (length (Themes.mergeOverlappingThemes toLowerCase themes)
      <= length themes)%nat
  /\ (themes <> [] -> Themes.mergeOverlappingThemes toLowerCase themes <> []).
Proof.
  unfold Themes.mergeOverlappingThemes. rewrite mergeLoop_start.
  pose proof (sort_byStart_Permutation themes) as HP.
  destruct (Themes.sort Themes.byStart themes) as [|t rest] eqn:E.
  - apply Permutation_sym, Permutation_nil in HP. subst.
    split; [constructor|]. split; [cbn; lia|]. intros H. exact H.
  - destruct (@scan_ledBy toLowerCase (t :: rest) rest t) as [H1 H2].
    + apply ledBy_self. left. reflexivity.
    + intros x Hx. right. exact Hx.
    + split; [|split].
      * eapply Forall_impl; [|exact H1].
        intros r. apply ledBy_Permutation. apply Permutation_sym. exact HP.
      * apply Permutation_length in HP. cbn [length] in HP. lia.
      * intros _ Hnil. rewrite Hnil in H2. cbn [length] in H2. lia.
Qed.

(* ================================================================== *)
(** * Facts about the replacement of timestamps *)
(* ================================================================== *)

Lemma search_None_cons (p : list cls) (c : char) (s : jsstring) :
  search p (c :: s) = None ->
  matchHere p (c :: s) = false /\ search p s = None.
Proof.
  cbn [search]. destruct (matchHere p (c :: s)); [discriminate|].
  intros H. split; [reflexivity|exact H].
Qed.

(** A pattern no class of which matches a line feed. *)
Definition withinLine (p : list cls) : Prop :=
  Forall (fun k => clsMatch k LF = false) p.

Lemma timeRegex_withinLine : withinLine Format.timeRegex.
Proof. repeat constructor. Qed.

Lemma matchHere_line (p : list cls) :
  withinLine p ->
  forall a b, matchHere p (a ++ LF :: b) = matchHere p a.
Proof.
  induction 1 as [|k p Hk Hp IH]; intros a b; [reflexivity|].
  destruct a as [|c a]; cbn [matchHere app].
  - rewrite Hk. reflexivity.
  - rewrite IH. reflexivity.
Qed.

Lemma substr_app (from len : nat) (a b : jsstring) :
  (from + len <= length a)%nat -> substr from len (a ++ b) = substr from len a.
Proof.
  intros H. unfold substr.
  rewrite skipn_app, firstn_app, length_skipn.
  replace (len - (length a - from))%nat with 0%nat by lia.
  cbn [firstn]. apply app_nil_r.
Qed.

Lemma secondsOfMatch_app (a b : jsstring) :
  (12 <= length a)%nat ->
  Format.secondsOfMatch (a ++ b) = Format.secondsOfMatch a.
Proof.
  intros H. unfold Format.secondsOfMatch.
  rewrite !substr_app by lia. reflexivity.
Qed.

Lemma replacement_app (a b : jsstring) (offsetSeconds : float) :
  (29 <= length a)%nat ->
  Format.replacement (a ++ b) offsetSeconds = Format.replacement a offsetSeconds.
Proof.
  intros H. unfold Format.replacement.
  rewrite secondsOfMatch_app by lia.
  rewrite skipn_app.
  replace (17 - length a)%nat with 0%nat by lia.
  change (skipn 0 b) with b.
  rewrite secondsOfMatch_app by (rewrite length_skipn; lia).
  reflexivity.
Qed.

Lemma replaceFrom_line (offsetSeconds : float) (b : jsstring) :
  forall (a : jsstring) (skip : nat),
  (skip <= length a)%nat ->
  Format.replaceFrom skip offsetSeconds (a ++ LF :: b)
  = match Format.replaceFrom skip offsetSeconds a,
          Format.replaceFrom 0 offsetSeconds b with
    | Some x, Some y => Some (x ++ LF :: y)
    | _, _ => None
    end.
Proof.
  induction a as [|c a IH]; intros skip Hs.
  - destruct skip; [|cbn [length] in Hs; lia].
    cbn [app Format.replaceFrom].
    change (matchHere Format.timeRegex (LF :: b)) with false. cbn iota.
    destruct (Format.replaceFrom 0 offsetSeconds b); reflexivity.
  - cbn [length] in Hs.
    change ((c :: a) ++ LF :: b) with (c :: (a ++ LF :: b)).
    destruct skip as [|k].
    + cbn [Format.replaceFrom].
      change (c :: (a ++ LF :: b)) with ((c :: a) ++ LF :: b).
      rewrite (matchHere_line timeRegex_withinLine).
      destruct (matchHere Format.timeRegex (c :: a)) eqn:E.
      * apply matchHere_length in E.
        change (length Format.timeRegex) with 29%nat in E.
        rewrite replacement_app by exact E.
        cbn [length] in E. rewrite IH by lia.
        destruct (Format.replacement (c :: a) offsetSeconds) as [r|];
          [|reflexivity].
        destruct (Format.replaceFrom 28 offsetSeconds a) as [x|];
          [|reflexivity].
        destruct (Format.replaceFrom 0 offsetSeconds b) as [y|];
          [|reflexivity].
        rewrite <- app_assoc. reflexivity.
      * rewrite IH by lia.
        destruct (Format.replaceFrom 0 offsetSeconds a) as [x|];
          [|reflexivity].
        destruct (Format.replaceFrom 0 offsetSeconds b) as [y|]; reflexivity.
    + cbn [Format.replaceFrom]. apply IH. lia.
Qed.

(** X8: a text in which [HH:MM:SS,mmm --> HH:MM:SS,mmm] has no match is
    returned as it is by [adjustSrtTimestamps], whatever the offset. *)
Theorem adjustSrtTimestamps_without_timestamps
    (srtContent : jsstring) (offsetSeconds : float) :
  search Format.timeRegex srtContent = None ->
  Format.adjustSrtTimestamps srtContent offsetSeconds = Some srtContent.
Proof.
  unfold Format.adjustSrtTimestamps.
  induction srtContent as [|c s IH]; intros H; [reflexivity|].
  apply search_None_cons in H as [Hm Hs].
  cbn [Format.replaceFrom]. rewrite Hm, (IH Hs). reflexivity.
Qed.

(** A cue whose timestamps have no milliseconds, as [parseSrt] and
    [formatSubtitlesToSrt] leave it, and an offset of one hour. *)
Lemma adjustSrtTimestamps_without_timestamps_witness :
  Format.adjustSrtTimestamps
    (js "1" ++ [LF] ++ js "00:00:01 --> 00:00:02" ++ [LF] ++ js "Hello") 3600
  = Some (js "1" ++ [LF] ++ js "00:00:01 --> 00:00:02" ++ [LF] ++ js "Hello").
Proof.
  apply (@adjustSrtTimestamps_without_timestamps
           (js "1" ++ [LF] ++ js "00:00:01 --> 00:00:02" ++ [LF] ++ js "Hello")
           3600).
  reflexivity.
Defined.

(** X9: [adjustSrtTimestamps] works line by line: the result for two texts
    joined by a line feed is the results for the two texts joined by a line
    feed. *)
Theorem adjustSrtTimestamps_line_by_line
    (a b : jsstring) (offsetSeconds : float) :
  Format.adjustSrtTimestamps (a ++ [LF] ++ b) offsetSeconds
  = match Format.adjustSrtTimestamps a offsetSeconds,
          Format.adjustSrtTimestamps b offsetSeconds with
    | Some x, Some y => Some (x ++ [LF] ++ y)
    | _, _ => None
    end.
Proof.
  unfold Format.adjustSrtTimestamps. cbn [app].
  apply replaceFrom_line. lia.
Qed.

(* ================================================================== *)
(** * Facts about indices and substrings *)
(* ================================================================== *)

Lemma char_eqb_eq (a b : char) : char_eqb a b = true <-> a = b.
Proof. apply N.eqb_eq. Qed.

Lemma char_eqb_neq (a b : char) : char_eqb a b = false <-> a <> b.
Proof. apply N.eqb_neq. Qed.

Lemma indexOf_bounds (c : char) (s : jsstring) :
  (-1 <= indexOf c s < Z.of_nat (length s))%Z.
Proof.
  induction s as [|x s IH]; cbn [indexOf length]; [lia|].
  destruct (char_eqb x c); [lia|].
  cbv zeta. destruct (indexOf c s <? 0)%Z eqn:E; [lia|].
  apply Z.ltb_ge in E. lia.
Qed.

Lemma indexOf_app (c : char) (pre rest : jsstring) :
  ~ In c pre -> indexOf c (pre ++ c :: rest) = Z.of_nat (length pre).
Proof.
  induction pre as [|x pre IH]; intros H; cbn [app indexOf length].
  - replace (char_eqb c c) with true by (symmetry; apply char_eqb_eq; reflexivity).
    reflexivity.
  - replace (char_eqb x c) with false
      by (symmetry; apply char_eqb_neq; intros ->; apply H; left; reflexivity).
    cbv zeta. rewrite IH by (intros Hin; apply H; right; exact Hin).
    destruct (Z.of_nat (length pre) <? 0)%Z eqn:E; [apply Z.ltb_lt in E|]; lia.
Qed.

Lemma indexOf_split (c : char) (s : jsstring) :
  (0 <= indexOf c s)%Z ->
  exists pre rest, s = pre ++ c :: rest /\ ~ In c pre.
Proof.
  induction s as [|x s IH]; cbn [indexOf]; [lia|].
  destruct (char_eqb x c) eqn:E.
  - intros _. apply char_eqb_eq in E. subst x.
    exists [], s. split; [reflexivity|intros []].
  - cbv zeta. destruct (indexOf c s <? 0)%Z eqn:E'; [lia|].
    intros _. apply Z.ltb_ge in E'. destruct (IH E') as (pre & rest & -> & Hn).
    exists (x :: pre), rest. split; [reflexivity|].
    intros [->|Hin]; [|exact (Hn Hin)].
    apply char_eqb_neq in E. apply E. reflexivity.
Qed.

Lemma lastIndexOf_none (c : char) (s : jsstring) :
  ~ In c s -> lastIndexOf c s = (-1)%Z.
Proof.
  induction s as [|x s IH]; intros H; cbn [lastIndexOf]; [reflexivity|].
  cbv zeta. rewrite IH by (intros Hin; apply H; right; exact Hin).
  cbn [Z.leb Z.compare].
  replace (char_eqb x c) with false
    by (symmetry; apply char_eqb_neq; intros ->; apply H; left; reflexivity).
  reflexivity.
Qed.

Lemma lastIndexOf_app (c : char) (pre post : jsstring) :
  ~ In c post -> lastIndexOf c (pre ++ c :: post) = Z.of_nat (length pre).
Proof.
  intros H. induction pre as [|x pre IH]; cbn [app lastIndexOf length].
  - cbv zeta. rewrite lastIndexOf_none by exact H. cbn [Z.leb Z.compare].
    replace (char_eqb c c) with true by (symmetry; apply char_eqb_eq; reflexivity).
    reflexivity.
  - cbv zeta. rewrite IH.
    destruct (0 <=? Z.of_nat (length pre))%Z eqn:E; [|apply Z.leb_gt in E]; lia.
Qed.

Lemma lastIndexOf_In (c : char) (s : jsstring) :
  In c s -> (0 <= lastIndexOf c s)%Z.
Proof.
  induction s as [|x s IH]; intros H; [destruct H|].
  cbn [lastIndexOf]. cbv zeta.
  destruct (0 <=? lastIndexOf c s)%Z eqn:E.
  - apply Z.leb_le in E. lia.
  - apply Z.leb_gt in E. destruct H as [->|H]; [|apply IH in H; lia].
    replace (char_eqb c c) with true by (symmetry; apply char_eqb_eq; reflexivity).
    lia.
Qed.

Lemma lastIndexOf_split (c : char) (s : jsstring) :
  (0 <= lastIndexOf c s)%Z ->
  exists pre post,
    s = pre ++ c :: post /\ ~ In c post
    /\ lastIndexOf c s = Z.of_nat (length pre).
Proof.
  induction s as [|x s IH]; cbn [lastIndexOf]; [lia|].
  cbv zeta. destruct (0 <=? lastIndexOf c s)%Z eqn:E.
  - intros _. apply Z.leb_le in E.
    destruct (IH E) as (pre & post & Hs & Hn & Hi).
    exists (x :: pre), post. rewrite Hi. cbn [length].
    split; [rewrite Hs; reflexivity|]. split; [exact Hn|lia].
  - destruct (char_eqb x c) eqn:Ex; [|lia].
    intros _. apply char_eqb_eq in Ex. subst x.
    exists [], s. split; [reflexivity|]. split; [|reflexivity].
    intros Hin. apply lastIndexOf_In in Hin. apply Z.leb_gt in E. lia.
Qed.

Lemma substring_app (a b c : jsstring) :
  substring (a ++ b ++ c) (Z.of_nat (length a))
    (Z.of_nat (length a) + Z.of_nat (length b))
  = b.
Proof.
  unfold substring, substr. rewrite !length_app.
  set (la := length a). set (lb := length b). set (lc := length c).
  replace (Z.max 0 (Z.min (Z.of_nat la) (Z.of_nat (la + (lb + lc)))))
    with (Z.of_nat la) by lia.
  replace (Z.max 0 (Z.min (Z.of_nat la + Z.of_nat lb)
                      (Z.of_nat (la + (lb + lc)))))
    with (Z.of_nat la + Z.of_nat lb)%Z by lia.
  replace (Z.to_nat (Z.min (Z.of_nat la) (Z.of_nat la + Z.of_nat lb)))
    with la by lia.
  replace (Z.to_nat (Z.max (Z.of_nat la) (Z.of_nat la + Z.of_nat lb)
                     - Z.min (Z.of_nat la) (Z.of_nat la + Z.of_nat lb)))
    with lb by lia.
  unfold la, lb.
  rewrite skipn_app, skipn_all, Nat.sub_diag. cbn [app skipn].
  rewrite firstn_app, firstn_all, Nat.sub_diag. cbn [firstn].
  apply app_nil_r.
Qed.

Lemma substring_all (s : jsstring) (from : Z) :
  (from <= 0)%Z -> substring s from (Z.of_nat (length s)) = s.
Proof.
  intros H. unfold substring, substr.
  set (len := length s).
  replace (Z.max 0 (Z.min from (Z.of_nat len))) with 0%Z by lia.
  replace (Z.max 0 (Z.min (Z.of_nat len) (Z.of_nat len)))
    with (Z.of_nat len) by lia.
  replace (Z.to_nat (Z.min 0 (Z.of_nat len))) with 0%nat by lia.
  replace (Z.to_nat (Z.max 0 (Z.of_nat len) - Z.min 0 (Z.of_nat len)))
    with len by lia.
  cbn [skipn]. apply firstn_all.
Qed.

Lemma substring_empty (s : jsstring) (to : Z) :
  (to <= 0)%Z -> substring s 0 to = [].
Proof.
  intros H. unfold substring, substr.
  set (len := length s).
  replace (Z.max 0 (Z.min 0 (Z.of_nat len))) with 0%Z by lia.
  replace (Z.max 0 (Z.min to (Z.of_nat len))) with 0%Z by lia.
  reflexivity.
Qed.

(* ================================================================== *)
(** * Properties of the reply cutter and of the file names *)
(* ================================================================== *)

(** X10: what is parsed of a reply.  When the reply has an opening bracket
    and a closing bracket behind it, [extractJsonArray] keeps the text from
    the first opening bracket to the last closing bracket, both included,
    and drops what is before and behind; a reply without such a pair is
    kept as it is. *)
Theorem extractJsonArray_first_to_last_bracket (content : jsstring) :
  (forall pre body post,
     content = pre ++ [91%N] ++ body ++ [93%N] ++ post ->
     ~ In 91%N pre -> ~ In 93%N post ->
     Extract.extractJsonArray content = [91%N] ++ body ++ [93%N])
  /\ ((forall pre body post,
         content <> pre ++ [91%N] ++ body ++ [93%N] ++ post) ->
      Extract.extractJsonArray content = content).
Proof.
  split.
  - intros pre body post -> Hpre Hpost.
    assert (Hi : indexOf 91%N (pre ++ [91%N] ++ body ++ [93%N] ++ post)
                 = Z.of_nat (length pre))
      by (apply indexOf_app; exact Hpre).
    assert (Hj : lastIndexOf 93%N (pre ++ [91%N] ++ body ++ [93%N] ++ post)
                 = (Z.of_nat (length pre) + Z.of_nat (S (length body)))%Z).
    { replace (pre ++ [91%N] ++ body ++ [93%N] ++ post)
        with ((pre ++ [91%N] ++ body) ++ 93%N :: post)
        by (rewrite <- !app_assoc; reflexivity).
      rewrite lastIndexOf_app by exact Hpost.
      rewrite length_app. cbn [app length]. lia. }
    unfold Extract.extractJsonArray. rewrite Hi, Hj.
    destruct ((0 <=? Z.of_nat (length pre))%Z && _) eqn:E.
    + replace (pre ++ [91%N] ++ body ++ [93%N] ++ post)
        with (pre ++ ([91%N] ++ body ++ [93%N]) ++ post)
        by (rewrite <- !app_assoc; reflexivity).
      replace (Z.of_nat (length pre) + Z.of_nat (S (length body)) + 1)%Z
        with (Z.of_nat (length pre)
              + Z.of_nat (length ([91%N] ++ body ++ [93%N])))%Z
        by (cbn [app length]; rewrite length_app; cbn [length]; lia).
      apply substring_app.
    + apply andb_false_iff in E as [E|E];
        [apply Z.leb_gt in E|apply Z.ltb_ge in E]; lia.
  - intros Hno. unfold Extract.extractJsonArray.
    destruct ((0 <=? indexOf 91%N content)%Z
              && (indexOf 91%N content <? lastIndexOf 93%N content + 1)%Z)
      eqn:E; [|reflexivity].
    exfalso. apply andb_true_iff in E as [E1 E2].
    apply Z.leb_le in E1. apply Z.ltb_lt in E2.
    destruct (indexOf_split _ _ E1) as (pre & rest & Hs & Hpre).
    assert (Hi : indexOf 91%N content = Z.of_nat (length pre))
      by (rewrite Hs; apply indexOf_app; exact Hpre).
    destruct (@lastIndexOf_split 93%N content ltac:(lia))
      as (a & post & Ha & Hpost & Hj).
    rewrite Hi, Hj in E2.
    assert (Heq : pre ++ 91%N :: rest = a ++ 93%N :: post)
      by (transitivity content; [symmetry; exact Hs|exact Ha]).
    apply app_eq_app in Heq as (l & [[H1 H2]|[H1 H2]]).
    + destruct l as [|x l].
      * cbn [app] in H2. discriminate H2.
      * rewrite H1, length_app in E2. cbn [length] in E2. lia.
    + destruct l as [|x l]; cbn [app] in H2; [discriminate H2|].
      injection H2 as <- ->.
      apply (Hno pre l post). rewrite Hs. reflexivity.
Qed.

(** X11: the path of the cut video.  When the path of the video has a full
    stop, [_cut] goes in before the last one; when it has none, [_cut] goes
    in front of the whole path. *)
Theorem processedVideo_inserts_cut (originalVideo : jsstring) :
  (forall name ext,
     originalVideo = name ++ [46%N] ++ ext -> ~ In 46%N ext ->
     Video.processedVideo originalVideo = name ++ js "_cut" ++ [46%N] ++ ext)
  /\ (~ In 46%N originalVideo ->
      Video.processedVideo originalVideo = js "_cut" ++ originalVideo).
Proof.
  split.
  - intros name ext -> Hext. unfold Video.processedVideo, substringFrom.
    cbn [app]. rewrite lastIndexOf_app by exact Hext. f_equal.
    + pose proof (@substring_app [] name (46%N :: ext)) as H.
      cbn [app length] in H. exact H.
    + f_equal.
      pose proof (@substring_app name (46%N :: ext) []) as H.
      rewrite app_nil_r in H. rewrite length_app.
      rewrite Nat2Z.inj_add. exact H.
  - intros Hno. unfold Video.processedVideo, substringFrom.
    rewrite lastIndexOf_none by exact Hno.
    rewrite substring_all, substring_empty by lia. reflexivity.
Qed.

(* ================================================================== *)
(** * Properties of the conversion of a timestamp *)
(* ================================================================== *)

(** Two digits, read as a number and written back on two places, are the
    two digits. *)
Lemma two_digits_padded (d1 d2 : char) :
  isDigit d1 = true -> isDigit d2 = true ->
  padStart0 2 (Format.intToString (parseInt [d1; d2])) = [d1; d2].
Proof. intros H1 H2. digit_cases H1; digit_cases H2; reflexivity. Qed.

(** Written as a number they lose a zero in front. *)
Lemma two_digits_number (d1 d2 : char) :
  isDigit d1 = true -> isDigit d2 = true ->
  Format.intToString (parseInt [d1; d2])
  = if (d1 =? 48)%N then [d2] else [d1; d2].
Proof. intros H1 H2. digit_cases H1; digit_cases H2; reflexivity. Qed.

(** X12: [convertSrtTimeToAss] copies digits.  Of the first timestamp
    [HH:MM:SS,mmm] in its argument it writes the hours without a zero in
    front, the minutes and the seconds as they are, and the first two
    digits of the milliseconds: the third digit is cut off, nothing is
    rounded.  An argument without a timestamp gives [0:00:00.00]. *)
Theorem convertSrtTimeToAss_copies_digits (srtTime : jsstring) :
  Format.convertSrtTimeToAss srtTime
  = match search Format.timePattern srtTime with
    | None => js "0:00:00.00"
    | Some m =>
        (if (hd 0%N m =? 48)%N then substr 1 1 m else substr 0 2 m)
          ++ js ":" ++ substr 3 2 m ++ js ":" ++ substr 6 2 m
          ++ js "." ++ substr 9 2 m
    end.
Proof.
  unfold Format.convertSrtTimeToAss.
  destruct (search Format.timePattern srtTime) as [m|] eqn:E; [|reflexivity].
  apply search_matchHere in E. unfold Format.timePattern in E.
  match_step E c0 H0. match_step E c1 H1. match_step E x2 H2.
  match_step E c3 H3. match_step E c4 H4. match_step E x5 H5.
  match_step E c6 H6. match_step E c7 H7. match_step E x8 H8.
  match_step E c9 H9. match_step E c10 H10. match_step E c11 H11.
  unfold substr. cbn [skipn firstn hd].
  change (substring [c9; c10; c11] 0 2) with [c9; c10].
  rewrite !two_digits_padded by assumption.
  rewrite two_digits_number by assumption.
  reflexivity.
Qed.

(* ================================================================== *)
(** * Facts about the combination of texts *)
(* ================================================================== *)

Section CombineFacts.

Import Srt.

Lemma trimStart_keeps (c : char) (s : jsstring) :
  In c s -> isWhiteSpace c = false -> In c (trimStart s).
Proof.
  induction s as [|x s IH]; intros Hin Hc; [destruct Hin|].
  cbn [trimStart]. destruct (isWhiteSpace x) eqn:E; [|exact Hin].
  destruct Hin as [->|Hin]; [congruence|]. apply IH; assumption.
Qed.

Lemma trimEnd_keeps (c : char) (s : jsstring) :
  In c s -> isWhiteSpace c = false -> In c (trimEnd s).
Proof.
  induction s as [|x s IH]; intros Hin Hc; [destruct Hin|].
  cbn [trimEnd]. destruct Hin as [->|Hin].
  - destruct (trimEnd s); [rewrite Hc|]; left; reflexivity.
  - specialize (IH Hin Hc). destruct (trimEnd s); [destruct IH|].
    right. exact IH.
Qed.

Lemma trim_keeps (c : char) (s : jsstring) :
  In c s -> isWhiteSpace c = false -> In c (trim s).
Proof.
  intros Hin Hc. unfold trim. apply trimEnd_keeps; [|exact Hc].
  apply trimStart_keeps; assumption.
Qed.

(** A line with a timestamp in it has a colon, and so is neither empty nor
    an index. *)
Lemma hasTimestamp_colon (line : jsstring) :
  hasTimestamp line = true -> In 58%N line.
Proof.
  unfold hasTimestamp.
  destruct (search Format.timeRegex line) as [m|] eqn:E; [|discriminate].
  intros _. destruct (search_suffix _ _ E) as [pre ->].
  apply search_matchHere in E.
  change Format.timeRegex
    with (D :: D :: L 58%N :: skipn 3 Format.timeRegex) in E.
  match_step E c0 H0. match_step E c1 H1. match_step E x2 H2.
  apply char_eqb_eq in H2. subst x2.
  apply in_or_app. right. right. right. left. reflexivity.
Qed.

Lemma hasTimestamp_not_skipped (line : jsstring) :
  hasTimestamp line = true -> isBlank line || isIndexLine line = false.
Proof.
  intros H. apply hasTimestamp_colon in H.
  apply trim_keeps in H; [|reflexivity].
  unfold isBlank, isIndexLine.
  destruct (trim line) as [|x t] eqn:E; [destruct H|].
  cbn [orb]. apply not_true_is_false. intros Hall.
  rewrite forallb_forall in Hall. apply Hall in H. discriminate H.
Qed.

(** A line of the text of a cue, by the tests of the inner loop. *)
Definition isCueLine (l : jsstring) : bool :=
  negb (isBlank l) && negb (isIndexLine l) && negb (hasTimestamp l).

(** The inner loop: the text gathered and the lines left. *)
Fixpoint gatherText (subtitleText : jsstring) (ls : list jsstring)
  : jsstring * list jsstring :=
  match ls with
  | [] => (subtitleText, [])
  | l :: ls' =>
      if isCueLine l then gatherText (subtitleText ++ l ++ [LF]) ls'
      else (subtitleText, ls)
  end.

(** The cue written for a timestamp line and a text. *)
Definition block (subtitleIndex : Z) (timestamp subtitleText : jsstring)
  : jsstring :=
  stringOfZ subtitleIndex ++ [LF] ++ timestamp ++ [LF] ++ subtitleText ++ [LF].

Lemma combineLines_step (line : jsstring) (rest : list jsstring)
    (combinedContent : jsstring) (subtitleIndex : Z) :
  combineLines (line :: rest) combinedContent subtitleIndex
  = if isBlank line || isIndexLine line
    then combineLines rest combinedContent subtitleIndex
    else if hasTimestamp line then
      combineLines (snd (gatherText [] rest))
        (combinedContent
         ++ block subtitleIndex line (fst (gatherText [] rest)))
        (subtitleIndex + 1)%Z
    else combineLines rest combinedContent subtitleIndex.
Proof.
  cbn [combineLines].
  destruct (isBlank line || isIndexLine line); [reflexivity|].
  destruct (hasTimestamp line); [|reflexivity].
  match goal with
  | |- ?g [] rest = _ =>
      enough (G : forall ls txt,
                 g txt ls
                 = combineLines (snd (gatherText txt ls))
                     (combinedContent
                      ++ block subtitleIndex line (fst (gatherText txt ls)))
                     (subtitleIndex + 1)%Z) by apply G
  end.
  induction ls as [|l ls IH]; intros txt; cbn [gatherText fst snd].
  - reflexivity.
  - unfold isCueLine.
    destruct (negb (isBlank l) && negb (isIndexLine l)
              && negb (hasTimestamp l)).
    + apply IH.
    + reflexivity.
Qed.

(** The text of a cue: lines of text, each with a line feed behind it. *)
Definition isCueText (subtitleText : jsstring) : Prop :=
  exists ls,
    Forall (fun l => isCueLine l = true) ls
    /\ subtitleText = concat (List.map (fun l => l ++ [LF]) ls).

Lemma gatherText_spec (ls : list jsstring) : forall txt,
  exists taken,
    ls = taken ++ snd (gatherText txt ls)
    /\ Forall (fun l => isCueLine l = true) taken
    /\ fst (gatherText txt ls)
       = txt ++ concat (List.map (fun l => l ++ [LF]) taken).
Proof.
  induction ls as [|l ls IH]; intros txt; cbn [gatherText].
  - exists []. cbn. rewrite app_nil_r. repeat split. constructor.
  - destruct (isCueLine l) eqn:E.
    + destruct (IH (txt ++ l ++ [LF])) as (taken & E1 & E2 & E3).
      exists (l :: taken). split; [cbn [app]; rewrite <- E1; reflexivity|].
      split; [constructor; assumption|].
      rewrite E3. cbn [List.map concat]. rewrite <- !app_assoc. reflexivity.
    + exists []. cbn. rewrite app_nil_r. repeat split. constructor.
Qed.

Lemma filter_cueLines (taken : list jsstring) :
  Forall (fun l => isCueLine l = true) taken ->
  filter hasTimestamp taken = [].
Proof.
  induction 1 as [|l taken Hl _ IH]; [reflexivity|].
  cbn [filter]. unfold isCueLine in Hl.
  apply andb_true_iff in Hl as [_ Hl]. apply negb_true_iff in Hl.
  rewrite Hl. exact IH.
Qed.

(** The cues written for timestamp lines and texts, numbered from
    [subtitleIndex] on. *)
Fixpoint blocks (subtitleIndex : Z) (cues : list (jsstring * jsstring))
  : jsstring :=
  match cues with
  | [] => []
  | (timestamp, subtitleText) :: rest =>
      block subtitleIndex timestamp subtitleText
        ++ blocks (subtitleIndex + 1) rest
  end.

Lemma blocks_app (a b : list (jsstring * jsstring)) : forall k,
  blocks k (a ++ b) = blocks k a ++ blocks (k + Z.of_nat (length a)) b.
Proof.
  induction a as [|[ts txt] a IH]; intros k; cbn [app blocks length].
  - rewrite Z.add_0_r. reflexivity.
  - rewrite IH, <- app_assoc. do 3 f_equal. lia.
Qed.

Lemma combine_app_same (A B : Type) (a1 a2 : list A) (b1 b2 : list B) :
  length a1 = length b1 ->
  combine (a1 ++ a2) (b1 ++ b2) = combine a1 b1 ++ combine a2 b2.
Proof.
  revert b1. induction a1 as [|x a1 IH]; intros [|y b1] H;
    try discriminate H; [reflexivity|].
  cbn [app combine]. rewrite IH by (injection H; auto). reflexivity.
Qed.

(** The text of a cue made of the lines [ls]. *)
Definition cueText (ls : list jsstring) : jsstring :=
  concat (List.map (fun l => l ++ [LF]) ls).

(** Lines of text, taken from [lines]. *)
Definition cueLinesOf (lines ls : list jsstring) : Prop :=
  Forall (fun l => isCueLine l = true) ls /\ incl ls lines.

Lemma cueLinesOf_incl (lines lines' ls : list jsstring) :
  incl lines lines' -> cueLinesOf lines ls -> cueLinesOf lines' ls.
Proof.
  intros Hi [H1 H2]. split; [exact H1|].
  intros x Hx. apply Hi, H2, Hx.
Qed.

Lemma combineLines_spec (n : nat) :
  forall lines combinedContent subtitleIndex,
  (length lines <= n)%nat ->
  exists cues,
    length cues = length (filter hasTimestamp lines)
    /\ Forall (cueLinesOf lines) cues
    /\ combineLines lines combinedContent subtitleIndex
       = (combinedContent
          ++ blocks subtitleIndex
               (combine (filter hasTimestamp lines)
                  (List.map cueText cues)),
          (subtitleIndex + Z.of_nat (length cues))%Z).
Proof.
  induction n as [|n IH]; intros lines acc idx Hlen.
  - destruct lines; [|cbn in Hlen; lia].
    exists []. cbn. rewrite app_nil_r, Z.add_0_r. repeat split. constructor.
  - destruct lines as [|line rest].
    + exists []. cbn. rewrite app_nil_r, Z.add_0_r. repeat split. constructor.
    + cbn [length] in Hlen. rewrite combineLines_step. cbn [filter].
      destruct (hasTimestamp line) eqn:Ets.
      * rewrite (hasTimestamp_not_skipped _ Ets).
        destruct (gatherText_spec rest []) as (taken & E1 & E2 & E3).
        destruct (IH (snd (gatherText [] rest))
                    (acc ++ block idx line (fst (gatherText [] rest)))
                    (idx + 1)%Z) as (cues & H1 & H2 & H3).
        { apply (f_equal (@length _)) in E1. rewrite length_app in E1. lia. }
        assert (Hf : filter hasTimestamp rest
                     = filter hasTimestamp (snd (gatherText [] rest))).
        { rewrite E1 at 1. rewrite filter_app, filter_cueLines by exact E2.
          reflexivity. }
        exists (taken :: cues).
        split; [cbn [length]; rewrite H1, Hf; reflexivity|]. split.
        -- constructor.
           ++ split; [exact E2|]. intros x Hx. right. rewrite E1.
              apply in_or_app. left. exact Hx.
           ++ eapply Forall_impl; [|exact H2]. intros ls.
              apply cueLinesOf_incl. intros x Hx. right. rewrite E1.
              apply in_or_app. right. exact Hx.
        -- cbn [app] in E3. rewrite H3, Hf, E3.
           cbn [List.map combine blocks length].
           fold (cueText taken).
           rewrite <- app_assoc. f_equal. lia.
      * destruct (IH rest acc idx ltac:(lia)) as (cues & H1 & H2 & H3).
        exists cues. split; [exact H1|]. split.
        -- eapply Forall_impl; [|exact H2]. intros ls.
           apply cueLinesOf_incl. intros x Hx. right. exact Hx.
        -- destruct (isBlank line || isIndexLine line); exact H3.
Qed.

Lemma combineFold_spec (srtContents : list jsstring) :
  forall combinedContent subtitleIndex,
  exists cues,
    length cues
    = length (filter hasTimestamp (flat_map (split LF) srtContents))
    /\ Forall (cueLinesOf (flat_map (split LF) srtContents)) cues
    /\ fold_left
         (fun state content =>
            combineLines (split LF content) (fst state) (snd state))
         srtContents (combinedContent, subtitleIndex)
       = (combinedContent
          ++ blocks subtitleIndex
               (combine
                  (filter hasTimestamp (flat_map (split LF) srtContents))
                  (List.map cueText cues)),
          (subtitleIndex + Z.of_nat (length cues))%Z).
Proof.
  induction srtContents as [|content rest IH]; intros acc idx.
  - exists []. cbn. rewrite app_nil_r, Z.add_0_r. repeat split. constructor.
  - cbn [fold_left flat_map].
    change (fst (acc, idx)) with acc. change (snd (acc, idx)) with idx.
    destruct (@combineLines_spec (length (split LF content))
                (split LF content) acc idx (le_n _))
      as (cues1 & H1 & H2 & H3).
    rewrite H3.
    destruct (IH (acc ++ blocks idx
                    (combine (filter hasTimestamp (split LF content))
                       (List.map cueText cues1)))
                (idx + Z.of_nat (length cues1))%Z)
      as (cues2 & G1 & G2 & G3).
    exists (cues1 ++ cues2).
    split; [rewrite filter_app, !length_app; congruence|]. split.
    + apply Forall_app. split.
      * eapply Forall_impl; [|exact H2]. intros ls.
        apply cueLinesOf_incl. apply incl_appl, incl_refl.
      * eapply Forall_impl; [|exact G2]. intros ls.
        apply cueLinesOf_incl. apply incl_appr, incl_refl.
    + etransitivity; [exact G3|].
      rewrite filter_app, map_app, combine_app_same
        by (rewrite length_map; symmetry; exact H1).
      rewrite blocks_app, length_combine, length_map, <- H1, Nat.min_id.
      rewrite length_app, <- app_assoc. f_equal. lia.
Qed.

End CombineFacts.

(** X13: [combineSrtFiles] writes one cue for every line with a timestamp
    range in it, in the order of the texts and of their lines, with that
    line as it is, and numbers the cues 1, 2, 3, ... through all the texts;
    the indices in the texts are not read.  The text of a cue is made of
    lines that are not empty, not an index and without a timestamp
    range. *)
Theorem combineSrtFiles_numbers_cues (srtContents : list jsstring) :
  exists texts,
    length texts
    = length (filter Srt.hasTimestamp (flat_map (split LF) srtContents))
    /\ Forall isCueText texts
    /\ Srt.combineSrtFiles srtContents
       = trim (blocks 1
                 (combine
                    (filter Srt.hasTimestamp
                       (flat_map (split LF) srtContents))
                    texts)).
Proof.
  destruct (combineFold_spec srtContents [] 1%Z) as (cues & H1 & H2 & H3).
  exists (List.map cueText cues).
  split; [rewrite length_map; exact H1|]. split.
  - apply Forall_forall. intros txt Htxt.
    apply in_map_iff in Htxt as (ls & <- & Hls).
    rewrite Forall_forall in H2. destruct (H2 _ Hls) as [Hc _].
    exists ls. split; [exact Hc|reflexivity].
  - unfold Srt.combineSrtFiles. apply (f_equal trim).
    apply (f_equal fst) in H3. exact H3.
Qed.

(* ================================================================== *)
(** * Facts about the repair of a reply *)
(* ================================================================== *)

Lemma span_spec (p : char -> bool) (s : jsstring) :
  s = fst (span p s) ++ snd (span p s)
  /\ Forall (fun c => p c = true) (fst (span p s)).
Proof.
  induction s as [|c s [IH1 IH2]]; cbn [span].
  - split; [reflexivity|constructor].
  - destruct (p c) eqn:E; [|split; [reflexivity|constructor]].
    destruct (span p s) as [taken rest]. cbn [fst snd] in *.
    split; [rewrite IH1 at 1; reflexivity|constructor; assumption].
Qed.

Lemma span_eq (p : char -> bool) (s taken rest : jsstring) :
  span p s = (taken, rest) ->
  s = taken ++ rest /\ Forall (fun c => p c = true) taken.
Proof. intros E. pose proof (span_spec p s) as H. rewrite E in H. exact H. Qed.

Lemma skipn_app_length (A : Type) (a b : list A) (k : nat) :
  skipn (length a + k) (a ++ b) = skipn k b.
Proof. induction a as [|x a IH]; [reflexivity|exact IH]. Qed.

(** What a repair may remove: a comma or a unit of white space. *)
Definition removable (c : char) : bool := char_eqb c 44%N || isWhiteSpace c.

(** [edits f s r]: the text [r] is the text [s] with some commas and some
    white space removed, some double quotes inserted, and every other unit
    [c] kept in its place as [f c]. *)
Inductive edits (f : char -> char) : jsstring -> jsstring -> Prop :=
| edits_nil : edits f [] []
| edits_keep (c : char) (s r : jsstring) :
    edits f s r -> edits f (c :: s) (f c :: r)
| edits_remove (c : char) (s r : jsstring) :
    removable c = true -> edits f s r -> edits f (c :: s) r
| edits_quote (s r : jsstring) :
    edits f s r -> edits f s (34%N :: r).

(** An apostrophe as a double quote, every other unit as it is. *)
Definition requote (c : char) : char := if char_eqb c 39%N then 34%N else c.

Lemma edits_refl (s : jsstring) : edits (fun c => c) s s.
Proof.
  induction s as [|c s IH]; [constructor|].
  exact (@edits_keep (fun c => c) c _ _ IH).
Qed.

Lemma edits_map (f : char -> char) (s : jsstring) : edits f s (List.map f s).
Proof.
  induction s as [|c s IH]; [constructor|].
  cbn [List.map]. constructor. exact IH.
Qed.

Lemma edits_kept (f : char -> char) (pre s r : jsstring) :
  edits f s r -> edits f (pre ++ s) (List.map f pre ++ r).
Proof.
  intros H. induction pre as [|c pre IH]; [exact H|].
  cbn [app List.map]. constructor. exact IH.
Qed.

Lemma edits_removed (f : char -> char) (ws s r : jsstring) :
  Forall (fun c => isWhiteSpace c = true) ws ->
  edits f s r -> edits f (ws ++ s) r.
Proof.
  intros Hws H. induction Hws as [|c ws Hc _ IH]; [exact H|].
  cbn [app]. apply edits_remove; [|exact IH].
  unfold removable. rewrite Hc. apply orb_true_r.
Qed.

(** One repair behind another is a repair. *)
Lemma edits_trans (f g : char -> char) :
  g 34%N = 34%N ->
  (forall c, removable (f c) = true -> f c = c) ->
  forall b c, edits g b c ->
  forall a, edits f a b -> edits (fun x => g (f x)) a c.
Proof.
  intros Hg Hf b c Hbc.
  induction Hbc as [|x b c Hbc IH|x b c Hx Hbc IH|b c Hbc IH]; intros a Hab.
  - remember [] as n eqn:En.
    induction Hab as [|y a n' Hab IHa|y a n' Hy Hab IHa|a n' Hab IHa];
      try discriminate En.
    + constructor.
    + apply edits_remove; [exact Hy|]. apply IHa. exact En.
  - remember (x :: b) as xb eqn:Exb.
    induction Hab as [|y a b' Hab IHa|y a b' Hy Hab IHa|a b' Hab IHa];
      try discriminate Exb.
    + injection Exb as <- ->.
      exact (@edits_keep (fun x => g (f x)) y _ _ (IH a Hab)).
    + apply edits_remove; [exact Hy|]. apply IHa. exact Exb.
    + injection Exb as <- ->. rewrite Hg. apply edits_quote. apply IH.
      exact Hab.
  - remember (x :: b) as xb eqn:Exb.
    induction Hab as [|y a b' Hab IHa|y a b' Hy Hab IHa|a b' Hab IHa];
      try discriminate Exb.
    + injection Exb as <- ->. apply edits_remove.
      * rewrite <- (Hf y Hx). exact Hx.
      * apply IH. exact Hab.
    + apply edits_remove; [exact Hy|]. apply IHa. exact Exb.
    + injection Exb as <- ->. discriminate Hx.
  - apply edits_quote. apply IH. exact Hab.
Qed.

Lemma dropCommaBefore_edits (close : char) (s : jsstring) :
  forall skip,
  edits (fun c => c) (skipn skip s) (Themes.dropCommaBefore close skip s).
Proof.
  induction s as [|c s IH]; intros skip; [destruct skip; constructor|].
  destruct skip as [|k]; cbn [Themes.dropCommaBefore skipn]; [|apply IH].
  assert (Hkeep : edits (fun c => c) (c :: s)
                    (c :: Themes.dropCommaBefore close 0 s))
    by exact (@edits_keep (fun c => c) c _ _ (IH 0%nat)).
  destruct (char_eqb c 44%N) eqn:Ec; [|exact Hkeep].
  destruct (span isWhiteSpace s) as [ws [|d r]] eqn:Es; [exact Hkeep|].
  destruct (char_eqb d close) eqn:Ed; [|exact Hkeep].
  apply char_eqb_eq in Ed. subst d.
  apply span_eq in Es as [Hs Hws]. subst s.
  pose proof (IH (length ws + 1)%nat) as Hrest.
  rewrite skipn_app_length in Hrest. cbn [skipn] in Hrest.
  apply edits_remove; [unfold removable; rewrite Ec; reflexivity|].
  apply edits_removed; [exact Hws|].
  exact (@edits_keep (fun c => c) close _ _ Hrest).
Qed.

Lemma quoteKeys_edits (s : jsstring) :
  forall skip,
  edits (fun c => c) (skipn skip s) (Themes.quoteKeys skip s).
Proof.
  induction s as [|c s IH]; intros skip; [destruct skip; constructor|].
  destruct skip as [|k]; cbn [Themes.quoteKeys skipn]; [|apply IH].
  assert (Hkeep : edits (fun c => c) (c :: s) (c :: Themes.quoteKeys 0 s))
    by exact (@edits_keep (fun c => c) c _ _ (IH 0%nat)).
  destruct (char_eqb c 123%N || char_eqb c 44%N); [|exact Hkeep].
  destruct (span isWhiteSpace s) as [ws1 r1] eqn:E1.
  destruct (span isWordChar r1) as [key r2] eqn:E2.
  destruct (span isWhiteSpace r2) as [ws2 r3] eqn:E3.
  destruct key as [|k0 key]; [exact Hkeep|].
  destruct r3 as [|d r3]; [exact Hkeep|].
  destruct d as [|d]; [exact Hkeep|].
  destruct (Pos.eq_dec d 58) as [->|Hd].
  2:{ repeat (destruct d as [d|d|]; try exact Hkeep). congruence. }
  apply span_eq in E1 as [H1 _]. apply span_eq in E2 as [H2 _].
  apply span_eq in E3 as [H3 _].
  assert (Hs : s = ws1 ++ (k0 :: key) ++ ws2 ++ 58%N :: r3)
    by (rewrite H1, H2, H3; reflexivity).
  clear H1 H2 H3. subst s.
  pose proof (IH (length ws1 + length (k0 :: key) + length ws2 + 1)%nat)
    as Hrest.
  assert (Hskip : skipn (length ws1 + length (k0 :: key) + length ws2 + 1)
                    (ws1 ++ (k0 :: key) ++ ws2 ++ 58%N :: r3) = r3).
  { replace (length ws1 + length (k0 :: key) + length ws2 + 1)%nat
      with (length ws1 + (length (k0 :: key) + (length ws2 + 1)))%nat by lia.
    rewrite !skipn_app_length. reflexivity. }
  rewrite Hskip in Hrest.
  apply (@edits_keep (fun c => c) c).
  pose proof (@edits_kept (fun c => c)) as K.
  specialize (K ws1). rewrite map_id in K. apply K. clear K.
  cbn [app]. apply edits_quote.
  pose proof (@edits_kept (fun c => c) (k0 :: key)) as K.
  rewrite map_id in K. apply K. clear K.
  cbn [app]. apply edits_quote.
  pose proof (@edits_kept (fun c => c) ws2) as K.
  rewrite map_id in K. apply K. clear K.
  exact (@edits_keep (fun c => c) 58%N _ _ Hrest).
Qed.

Lemma quoteKeys_Forall (P : char -> Prop) (s : jsstring) :
  P 34%N -> P 58%N ->
  forall skip, Forall P s -> Forall P (Themes.quoteKeys skip s).
Proof.
  intros P34 P58.
  induction s as [|c s IH]; intros skip Hs; [constructor|].
  inversion Hs as [|? ? Hc Hs']; subst.
  destruct skip as [|k]; cbn [Themes.quoteKeys]; [|apply IH; exact Hs'].
  assert (Hkeep : Forall P (c :: Themes.quoteKeys 0 s))
    by (constructor; [exact Hc|apply IH; exact Hs']).
  destruct (char_eqb c 123%N || char_eqb c 44%N); [|exact Hkeep].
  destruct (span isWhiteSpace s) as [ws1 r1] eqn:E1.
  destruct (span isWordChar r1) as [key r2] eqn:E2.
  destruct (span isWhiteSpace r2) as [ws2 r3] eqn:E3.
  destruct key as [|k0 key]; [exact Hkeep|].
  destruct r3 as [|d r3]; [exact Hkeep|].
  destruct d as [|d]; [exact Hkeep|].
  destruct (Pos.eq_dec d 58) as [->|Hd].
  2:{ repeat (destruct d as [d|d|]; try exact Hkeep). congruence. }
  apply span_eq in E1 as [H1 _]. apply span_eq in E2 as [H2 _].
  apply span_eq in E3 as [H3 _].
  assert (Hsplit : s = ws1 ++ (k0 :: key) ++ ws2 ++ 58%N :: r3)
    by (rewrite H1, H2, H3; reflexivity).
  pose proof Hs' as Hall. rewrite Hsplit in Hall.
  apply Forall_app in Hall as [Hw1 Hall].
  apply Forall_app in Hall as [Hk Hall].
  apply Forall_app in Hall as [Hw2 _].
  constructor; [exact Hc|].
  repeat (apply Forall_app; split); try assumption;
    try (constructor; [assumption|constructor]).
  apply IH. exact Hs'.
Qed.

(** X14: [cleanJsonString] removes nothing but commas and white space and
    inserts nothing but double quotes: every other unit of its argument is
    in the result, in its place among the others, an apostrophe as a double
    quote and every other unit as it is, and the result has no unit
    besides. *)
Theorem cleanJsonString_keeps_content (jsonStr : jsstring) :
  edits requote jsonStr (Themes.cleanJsonString jsonStr).
Proof.
  unfold Themes.cleanJsonString. cbv zeta.
  assert (Hid : forall c : char, removable c = true -> c = c)
    by reflexivity.
  pose proof (@dropCommaBefore_edits 125%N jsonStr 0%nat) as H1.
  pose proof (@dropCommaBefore_edits 93%N
                (Themes.dropCommaBefore 125%N 0 jsonStr) 0%nat) as H2.
  cbn [skipn] in H1, H2.
  pose proof (@edits_trans (fun c => c) (fun c => c) eq_refl Hid _ _ H2 _ H1)
    as H12.
  pose proof (@edits_trans (fun c => c) requote eq_refl Hid _ _
                (edits_map requote _) _ H12) as H123.
  assert (Hrq : forall c : char, removable (requote c) = true -> requote c = c).
  { intros c. unfold requote. destruct (char_eqb c 39%N); [discriminate|].
    reflexivity. }
  pose proof (@quoteKeys_edits
                (List.map requote
                   (Themes.dropCommaBefore 93%N 0
                      (Themes.dropCommaBefore 125%N 0 jsonStr))) 0%nat) as H4.
  cbn [skipn] in H4.
  exact (@edits_trans requote (fun c => c) eq_refl Hrq _ _ H4 _ H123).
Qed.

(** X15: no apostrophe is left in the result of [cleanJsonString], not
    even one inside a string of the reply. *)
Theorem cleanJsonString_leaves_no_apostrophe (jsonStr : jsstring) :
  ~ In 39%N (Themes.cleanJsonString jsonStr).
Proof.
  unfold Themes.cleanJsonString. cbv zeta.
  intros Hin. revert Hin.
  match goal with
  | |- In _ (Themes.quoteKeys 0 ?l) -> False =>
      assert (H : Forall (fun c => c <> 39%N) (Themes.quoteKeys 0 l))
  end.
  { apply quoteKeys_Forall; [discriminate|discriminate|].
    apply Forall_forall. intros c Hc. apply in_map_iff in Hc as (x & <- & _).
    destruct (char_eqb x 39%N) eqn:E; [discriminate|].
    apply char_eqb_neq. exact E. }
  intros Hin. rewrite Forall_forall in H. exact (H _ Hin eq_refl).
Qed.

(* ================================================================== *)
(** * Facts about lines, and the way from cues to text and back *)
(* ================================================================== *)

Section RoundTripFacts.

Import Srt.

(** The lines of a text, each with a line feed behind it, are the text with
    a line feed behind it. *)
Lemma concat_lines (t : jsstring) :
  concat (List.map (fun l => l ++ [LF]) (split LF t)) = t ++ [LF].
Proof.
  induction t as [|c t IH]; [reflexivity|]. cbn [split].
  destruct (char_eqb c LF) eqn:E.
  - apply char_eqb_eq in E. subst c. cbn [List.map concat app].
    rewrite IH. reflexivity.
  - pose proof (@split_not_nil t) as Hne.
    destruct (split LF t) as [|w ws]; [contradiction|].
    cbn [List.map concat app] in *. rewrite IH. reflexivity.
Qed.

Lemma trimEnd_app_ws (s : jsstring) (c : char) :
  isWhiteSpace c = true -> trimEnd (s ++ [c]) = trimEnd s.
Proof.
  intros Hc. induction s as [|x s IH]; cbn [app trimEnd].
  - rewrite Hc. reflexivity.
  - rewrite IH. reflexivity.
Qed.

Lemma trim_app_ws (s : jsstring) (c : char) :
  isWhiteSpace c = true -> trim (s ++ [c]) = trim s.
Proof.
  intros Hc. unfold trim. induction s as [|x s IH]; cbn [app trimStart].
  - rewrite Hc. reflexivity.
  - destruct (isWhiteSpace x); [exact IH|].
    change (x :: s ++ [c]) with ((x :: s) ++ [c]).
    apply trimEnd_app_ws. exact Hc.
Qed.

Lemma gather_lines (lines : list jsstring) (l0 : jsstring)
    (more : list jsstring) :
  Forall (fun l => isTextLine l = true) lines -> isTextLine l0 = false ->
  forall txt,
  gather txt (lines ++ l0 :: more)
  = (txt ++ concat (List.map (fun l => l ++ [LF]) lines), l0 :: more).
Proof.
  intros Hl H0. induction Hl as [|l lines Hl _ IH]; intros txt;
    cbn [app gather List.map concat].
  - rewrite H0, app_nil_r. reflexivity.
  - rewrite Hl, IH, <- !app_assoc. reflexivity.
Qed.

Lemma matchHere_app_exact (p : list cls) :
  forall a, matchHere p a = true -> length a = length p ->
  forall q b, matchHere (p ++ q) (a ++ b) = matchHere q b.
Proof.
  induction p as [|k p IH]; intros a Hm Hlen q b.
  - destruct a; [reflexivity|discriminate Hlen].
  - destruct a as [|c a]; [discriminate Hlen|].
    cbn [matchHere app] in *. apply andb_true_iff in Hm as [Hk Hm].
    rewrite Hk. cbn [andb]. apply IH; [exact Hm|]. injection Hlen. auto.
Qed.

Lemma search_here (p : list cls) (s : jsstring) :
  matchHere p s = true -> search p s = Some s.
Proof. intros H. destruct s; cbn [search]; rewrite H; reflexivity. Qed.

Lemma matchHere_no_LF (p : list cls) :
  withinLine p ->
  forall s, matchHere p s = true -> length s = length p -> ~ In LF s.
Proof.
  induction 1 as [|k p Hk _ IH]; intros s Hm Hlen.
  - destruct s; [intros []|discriminate Hlen].
  - destruct s as [|c s]; [discriminate Hlen|].
    cbn [matchHere] in Hm. apply andb_true_iff in Hm as [Hc Hm].
    intros [Heq|Hin]; [rewrite Heq in Hc; congruence|].
    revert Hin. apply IH; [exact Hm|]. injection Hlen. auto.
Qed.

(** A timestamp [HH:MM:SS,mmm] and nothing else. *)
Definition isTimestamp (s : jsstring) : Prop :=
  length s = 12%nat /\ matchHere Format.timePattern s = true.

Lemma timePattern_withinLine : withinLine Format.timePattern.
Proof. repeat constructor. Qed.

Lemma isTimestamp_no_LF (s : jsstring) : isTimestamp s -> ~ In LF s.
Proof.
  intros [Hl Hm]. apply (matchHere_no_LF timePattern_withinLine); assumption.
Qed.

(** The line of a cue that holds two timestamps, and what [parseSrt] reads
    from it. *)
Lemma timestampMatch_written (st en : jsstring) :
  isTimestamp st -> isTimestamp en ->
  timestampMatch (st ++ js " --> " ++ en)
  = Some (substr 0 8 st, substr 0 8 en).
Proof.
  intros [Hls Hms] [Hle Hme]. unfold timestampMatch.
  assert (Hm : matchHere Format.timeRegex (st ++ js " --> " ++ en) = true).
  { unfold Format.timeRegex.
    rewrite (matchHere_app_exact _ _ Hms Hls).
    rewrite (@matchHere_app_exact [L 32; L 45; L 45; L 62; L 32]%N
               (js " --> ") eq_refl eq_refl Format.timePattern en).
    rewrite <- (app_nil_r en), <- (app_nil_r Format.timePattern).
    rewrite (matchHere_app_exact _ _ Hme Hle). reflexivity. }
  rewrite (search_here _ _ Hm). f_equal. f_equal.
  - apply substr_app. lia.
  - unfold substr. rewrite app_assoc, skipn_app.
    rewrite skipn_all2 by (rewrite length_app, Hls; cbn; lia).
    replace (17 - length (st ++ js " --> "))%nat with 0%nat
      by (rewrite length_app, Hls; reflexivity).
    reflexivity.
Qed.

Lemma stringOfZ_not_blank (z : Z) : isBlank (stringOfZ z) = false.
Proof.
  assert (H : exists c, In c (stringOfZ z) /\ isWhiteSpace c = false).
  { destruct z as [|p|p]; cbn [stringOfZ].
    - exists 48%N. split; [left; reflexivity|reflexivity].
    - destruct (digitsOfN_spec (N.pos p)) as (Hne & Hd & _).
      destruct (digitsOfN (N.pos p)) as [|c ds]; [contradiction|].
      exists c. split; [left; reflexivity|].
      inversion Hd; subst. apply digit_not_ws. assumption.
    - exists 45%N. split; [left; reflexivity|reflexivity]. }
  destruct H as (c & Hin & Hc). apply trim_keeps in Hin; [|exact Hc].
  unfold isBlank. destruct (trim (stringOfZ z)); [destruct Hin|reflexivity].
Qed.

(** A cue that [formatSubtitlesToSrt] writes so that [parseSrt] reads it:
    an [id] that is a safe integer, two full timestamps, and a text of
    lines that are neither empty nor an index, without white space at
    either end. *)
Definition wellFormedCue (sub : Subtitle) : Prop :=
  safeInteger (id sub)
  /\ isTimestamp (start sub) /\ isTimestamp (end_ sub)
  /\ Forall (fun l => isTextLine l = true) (split LF (text sub))
  /\ trim (text sub) = text sub.

(** The lines of a cue as written. *)
Definition cueLines (sub : Subtitle) : list jsstring :=
  stringOfZ (id sub) :: (start sub ++ js " --> " ++ end_ sub)
    :: split LF (text sub) ++ [[]].

(** The cue as read back. *)
Definition readBack (sub : Subtitle) : Subtitle :=
  mkSubtitle (id sub) (substr 0 8 (start sub)) (substr 0 8 (end_ sub))
    (text sub).

Lemma split_formatCue (sub : Subtitle) (behind : jsstring) :
  wellFormedCue sub ->
  split LF (formatCue sub ++ behind)
  = stringOfZ (id sub) :: (start sub ++ js " --> " ++ end_ sub)
      :: split LF (text sub) ++ split LF behind.
Proof.
  intros (_ & Hs & He & _ & _). unfold formatCue.
  rewrite <- !app_assoc. cbn [app].
  rewrite split_app_LF, split_no_LF by apply stringOfZ_no_LF.
  cbn [app]. f_equal.
  replace (start sub ++ js " --> " ++ end_ sub ++ LF :: text sub ++ LF :: behind)
    with ((start sub ++ js " --> " ++ end_ sub) ++ LF :: text sub ++ LF :: behind)
    by (rewrite <- !app_assoc; reflexivity).
  rewrite split_app_LF, split_no_LF.
  - cbn [app]. f_equal. apply split_app_LF.
  - intros Hin. apply in_app_or in Hin as [Hin|Hin];
      [exact (isTimestamp_no_LF Hs Hin)|].
    apply in_app_or in Hin as [Hin|Hin];
      [|exact (isTimestamp_no_LF He Hin)].
    cbn in Hin. repeat (destruct Hin as [Hin|Hin]; [discriminate Hin|]).
    exact Hin.
Qed.

Lemma split_formatSubtitlesToSrt (sub : Subtitle) (subs : list Subtitle) :
  Forall wellFormedCue (sub :: subs) ->
  split LF (formatSubtitlesToSrt (sub :: subs))
  = flat_map cueLines (sub :: subs).
Proof.
  revert sub. induction subs as [|sub2 subs IH]; intros sub H;
    inversion H as [|? ? Hsub Hsubs]; subst.
  - unfold formatSubtitlesToSrt. cbn [List.map join flat_map].
    rewrite <- (app_nil_r (formatCue sub)), split_formatCue by exact Hsub.
    rewrite app_nil_r. reflexivity.
  - unfold formatSubtitlesToSrt in *.
    change (join [LF] (List.map formatCue (sub :: sub2 :: subs)))
      with (formatCue sub ++ [LF]
            ++ join [LF] (List.map formatCue (sub2 :: subs))).
    rewrite split_formatCue by exact Hsub.
    cbn [app split]. unfold char_eqb at 1. rewrite N.eqb_refl.
    rewrite (IH sub2 Hsubs).
    change (flat_map cueLines (sub :: sub2 :: subs))
      with (cueLines sub ++ flat_map cueLines (sub2 :: subs)).
    unfold cueLines at 2. cbn [app]. rewrite <- app_assoc. reflexivity.
Qed.

Lemma parseLines_cueLines (sub : Subtitle) (more : list jsstring) :
  wellFormedCue sub ->
  parseLines (cueLines sub ++ more) = readBack sub :: parseLines more.
Proof.
  intros (_ & Hs & He & Hl & Ht). unfold cueLines. cbn [app].
  rewrite parseLines_step, stringOfZ_not_blank, parseInt_stringOfZ.
  rewrite (timestampMatch_written Hs He).
  rewrite <- app_assoc. cbn [app].
  rewrite gather_lines by (exact Hl || reflexivity).
  cbn [fst snd app]. rewrite concat_lines, trim_app_ws by reflexivity.
  rewrite Ht. reflexivity.
Qed.

Lemma parseLines_flat_map_cueLines (subs : list Subtitle) :
  Forall wellFormedCue subs ->
  parseLines (flat_map cueLines subs) = List.map readBack subs.
Proof.
  induction 1 as [|sub subs Hsub _ IH]; [reflexivity|].
  cbn [flat_map List.map]. rewrite parseLines_cueLines by exact Hsub.
  rewrite IH. reflexivity.
Qed.

End RoundTripFacts.

(** X16: from cues to text and back.  For cues with an [id] that is a safe
    integer, below 2^53 in magnitude, with two full timestamps
    [HH:MM:SS,mmm] and with a text of lines that are neither empty nor an
    index, without white space at either end, [parseSrt] reads from the
    text [formatSubtitlesToSrt] writes the same cues in the same order,
    each with its [id] and its text, and with its timestamps cut to
    [HH:MM:SS]. *)
Theorem parseSrt_of_formatSubtitlesToSrt (subtitles : list Srt.Subtitle) :
  Forall wellFormedCue subtitles ->
  Srt.parseSrt (Srt.formatSubtitlesToSrt subtitles)
  = List.map
      (fun sub =>
         Srt.mkSubtitle (Srt.id sub) (substr 0 8 (Srt.start sub))
           (substr 0 8 (Srt.end_ sub)) (Srt.text sub))
      subtitles.
Proof.
  intros H. unfold Srt.parseSrt.
  destruct subtitles as [|sub subs]; [reflexivity|].
  rewrite split_formatSubtitlesToSrt by exact H.
  apply parseLines_flat_map_cueLines. exact H.
Qed.

(** Two cues, the first with a text of two lines, the second with the index
    7. *)
Definition twoCues : list Srt.Subtitle :=
  [ Srt.mkSubtitle 1 (js "00:00:01,500") (js "00:00:02,250")
      (js "Hello" ++ [LF] ++ js "world");
    Srt.mkSubtitle 7 (js "00:00:03,000") (js "01:00:04,999") (js "Bye") ].

Lemma parseSrt_of_formatSubtitlesToSrt_witness :
  Srt.parseSrt (Srt.formatSubtitlesToSrt twoCues)
  = [ Srt.mkSubtitle 1 (js "00:00:01") (js "00:00:02")
        (js "Hello" ++ [LF] ++ js "world");
      Srt.mkSubtitle 7 (js "00:00:03") (js "01:00:04") (js "Bye") ].
Proof.
  apply (@parseSrt_of_formatSubtitlesToSrt twoCues).
  unfold twoCues, wellFormedCue, isTimestamp.
  repeat constructor.
Defined.

(* ================================================================== *)
(** * More facts about the driver *)
(* ================================================================== *)

Section DriverRuns.

Import Extract.

Variable World : Type.
Variable extractThemesWithAI : jsstring -> World -> Outcome * World.

(** An answer that is themes. *)
Definition isReturns (o : Outcome) : Prop :=
  match o with
  | Returns _ => True
  | Throws _ => False
  end.

Lemma splitAndProcessChunk_total (chunk : jsstring) (w : World) :
  exists run, splitAndProcessChunk extractThemesWithAI chunk w = Some run.
Proof.
  destruct (subChunksOf_total chunk) as (parts & _ & _ & E).
  unfold splitAndProcessChunk. rewrite E. eexists. reflexivity.
Qed.

(** The chunk loop ends, whatever the service answers. *)
Lemma chunkLoop_total (chunks : list jsstring) :
  forall allThemes warnings w,
  exists run,
    chunkLoop extractThemesWithAI chunks allThemes warnings w = Some run.
Proof.
  induction chunks as [|c rest IH]; intros allThemes warnings w;
    cbn [chunkLoop]; [eexists; reflexivity|].
  destruct (extractThemesWithAI c w) as [[t|m] w']; [apply IH|].
  destruct (str_eqb m FORCE_SPLIT && (1000 <? length c)%nat);
    [|eexists; reflexivity].
  destruct (splitAndProcessChunk_total c w') as [[[t|m'] ws w''] ->].
  - apply IH.
  - eexists. reflexivity.
Qed.

(** With answers that are all themes the chunk loop calls the service once
    for each chunk, in order, and gathers the themes. *)
Lemma chunkLoop_returns (chunks : list jsstring) :
  forall allThemes warnings w,
  Forall isReturns (responses extractThemesWithAI chunks w) ->
  chunkLoop extractThemesWithAI chunks allThemes warnings w
  = Some (mkRun
            (Returns
               (allThemes
                ++ themesOf (responses extractThemesWithAI chunks w)))
            warnings (worldAfter extractThemesWithAI chunks w)).
Proof.
  induction chunks as [|c rest IH]; intros allThemes warnings w H;
    cbn [chunkLoop responses worldAfter].
  - cbn. rewrite app_nil_r. reflexivity.
  - cbn [responses] in H.
    destruct (extractThemesWithAI c w) as [[t|m] w']; cbn [snd];
      inversion H as [|? ? Ho Hr]; subst; [|destruct Ho].
    rewrite IH by assumption. cbn [themesOf flat_map].
    rewrite <- app_assoc. reflexivity.
Qed.

End DriverRuns.

(* ================================================================== *)
(** * Properties of the chunk planner and of the driver *)
(* ================================================================== *)

(** X17: the partition loop of [processLargeSrt] with a chunk size of one
    or more ends, within one test more than there are subtitles; the chunks
    are the subtitles in order, none is empty and none has more subtitles
    than the chunk size. *)
Theorem planChunks_partitions
    (step : float) (z : Z) (subtitles : list Srt.Subtitle) :
  floorZ step = Some z -> (1 <= z)%Z ->
  exists parts,
    Extract.planChunks (S (length subtitles)) step subtitles = Some parts
    /\ concat parts = subtitles
    /\ Forall (fun part => (0 < length part <= Z.to_nat z)%nat) parts.
Proof.
  intros Hz Hpos. unfold Extract.planChunks. rewrite Hz.
  destruct (@sliceLoop_advancing _ (Z.to_nat z) subtitles ltac:(lia)
              (length subtitles) 0%nat ltac:(lia)) as (parts & E & Hc & Hp).
  exists parts. split; [exact E|]. split; [exact Hc|exact Hp].
Qed.

(** Two cues and the chunk size 1. *)
Lemma planChunks_partitions_witness :
  exists parts,
    Extract.planChunks 3 1 twoCues = Some parts
    /\ concat parts = twoCues
    /\ Forall (fun part => (0 < length part <= 1)%nat) parts.
Proof.
  exact (@planChunks_partitions 1 1 twoCues eq_refl ltac:(lia)).
Defined.

(** X18: for a text whose indices are safe integers: when the partition
    loop of [processLargeSrt] has ended and the service answers every
    chunk with themes, [processLargeSrt] has called
    the service once for each chunk, in order, and returns the themes of
    all the chunks, in that order, merged by [mergeOverlappingThemes]; no
    chunk is split and no warning is logged. *)
Theorem processLargeSrt_gathers_and_merges
    (World : Type)
    (extractThemesWithAI : jsstring -> World -> Extract.Outcome * World)
    (toLowerCase : jsstring -> jsstring) (fuel : nat)
    (srtContent model provider : jsstring) (w : World)
    (parts : list (list Srt.Subtitle)) :
  safeIndices srtContent ->
  Extract.planChunks fuel
    (Extract.subtitlesPerChunk srtContent model provider)
    (Srt.parseSrt srtContent) = Some parts ->
  Forall isReturns
    (responses extractThemesWithAI
       (List.map Srt.formatSubtitlesToSrt parts) w) ->
  Extract.processLargeSrt extractThemesWithAI toLowerCase fuel srtContent
    model provider w
  = Some (Extract.mkRun
            (Extract.Returns
               (Themes.mergeOverlappingThemes toLowerCase
                  (themesOf
                     (responses extractThemesWithAI
                        (List.map Srt.formatSubtitlesToSrt parts) w))))
            []
            (worldAfter extractThemesWithAI
               (List.map Srt.formatSubtitlesToSrt parts) w)).
Proof.
  intros _ Hplan Hok. unfold Extract.processLargeSrt. rewrite Hplan.
  rewrite chunkLoop_returns by exact Hok. reflexivity.
Qed.

(** Eleven cues in one chunk, and a service that returns one theme. *)
Lemma processLargeSrt_gathers_and_merges_witness :
  Extract.processLargeSrt (countingService 100 Extract.FORCE_SPLIT)
    Themes.toLowerCaseAscii 12 elevenCues (js "gpt-4") (js "openai") 0%nat
  = Some (Extract.mkRun
            (Extract.Returns
               [Themes.mkTheme (js "00:00:01,000") (js "00:00:02,000")
                  (js "0")])
            [] 1%nat).
Proof.
  rewrite (@processLargeSrt_gathers_and_merges nat
             (countingService 100 Extract.FORCE_SPLIT)
             Themes.toLowerCaseAscii 12 elevenCues (js "gpt-4") (js "openai")
             0%nat [Srt.parseSrt elevenCues]).
  - vm_compute. reflexivity.
  - safe_indices.
  - vm_compute. reflexivity.
  - vm_compute. repeat constructor.
Defined.

(** X19: [processLargeSrt] ends when the chunk size it computes is one or
    more: its partition loop ends within one test more than there are
    subtitles, and the chunk loop ends whatever the service answers, with
    themes or with an error thrown on. *)
Theorem processLargeSrt_ends
    (World : Type)
    (extractThemesWithAI : jsstring -> World -> Extract.Outcome * World)
    (toLowerCase : jsstring -> jsstring)
    (srtContent model provider : jsstring) (w : World) (z : Z) :
  floorZ (Extract.subtitlesPerChunk srtContent model provider) = Some z ->
  (1 <= z)%Z ->
  exists run,
    Extract.processLargeSrt extractThemesWithAI toLowerCase
      (S (length (Srt.parseSrt srtContent))) srtContent model provider w
    = Some run.
Proof.
  intros Hz Hpos. unfold Extract.processLargeSrt.
  destruct (@sliceLoop_advancing _ (Z.to_nat z) (Srt.parseSrt srtContent)
              ltac:(lia) (length (Srt.parseSrt srtContent)) 0%nat ltac:(lia))
    as (parts & E & _ & _).
  unfold Extract.planChunks. rewrite Hz, E.
  destruct (@chunkLoop_total World extractThemesWithAI
              (List.map Srt.formatSubtitlesToSrt parts) [] [] w)
    as [[[t|m] ws w'] ->]; eexists; reflexivity.
Qed.

(** Eleven cues, for which the chunk size is 201, and a service that fails
    at the first call. *)
Lemma processLargeSrt_ends_witness :
  exists run,
    Extract.processLargeSrt (countingService 0 (js "boom"))
      Themes.toLowerCaseAscii (S (length (Srt.parseSrt elevenCues)))
      elevenCues (js "gpt-4") (js "openai") 0%nat
    = Some run.
Proof.
  apply (@processLargeSrt_ends nat (countingService 0 (js "boom"))
           Themes.toLowerCaseAscii elevenCues (js "gpt-4") (js "openai")
           0%nat 201%Z).
  - vm_compute. reflexivity.
  - lia.
Defined.

(** The chunk loop ends at the first error it does not handle. *)
Lemma chunkLoop_stops (World : Type)
    (extractThemesWithAI : jsstring -> World -> Extract.Outcome * World)
    (c : jsstring) (post : list jsstring) (message : jsstring) (w' : World)
    (pre : list jsstring) :
  forall allThemes warnings w,
  Forall isReturns (responses extractThemesWithAI pre w) ->
  extractThemesWithAI c (worldAfter extractThemesWithAI pre w)
  = (Extract.Throws message, w') ->
  str_eqb message Extract.FORCE_SPLIT && (1000 <? length c)%nat = false ->
  Extract.chunkLoop extractThemesWithAI (pre ++ c :: post) allThemes
    warnings w
  = Some (Extract.mkRun (Extract.Throws message) warnings w').
Proof.
  induction pre as [|p pre IH]; intros allThemes warnings w Hpre Hc Hm;
    cbn [app Extract.chunkLoop responses worldAfter] in *.
  - rewrite Hc, Hm. reflexivity.
  - destruct (extractThemesWithAI p w) as [[t|m] w0]; cbn [snd] in *;
      inversion Hpre as [|? ? Ho Hr]; subst; [|destruct Ho].
    apply IH; assumption.
Qed.

(** X20: [processLargeSrt] sends no chunk after an error it does not
    handle.  For a text whose indices are safe integers: when the service
    has answered the chunks before a chunk with themes and throws on that
    chunk an error that is not [FORCE_SPLIT], or [FORCE_SPLIT] on a chunk
    of at most 1000 units, [processLargeSrt] throws that error with the
    state the service is in after that call: the chunks behind are not
    sent, and the themes gathered are lost. *)
Theorem processLargeSrt_stops_at_error
    (World : Type)
    (extractThemesWithAI : jsstring -> World -> Extract.Outcome * World)
    (toLowerCase : jsstring -> jsstring) (fuel : nat)
    (srtContent model provider : jsstring) (w w' : World)
    (parts : list (list Srt.Subtitle))
    (pre post : list jsstring) (c message : jsstring) :
  safeIndices srtContent ->
  Extract.planChunks fuel
    (Extract.subtitlesPerChunk srtContent model provider)
    (Srt.parseSrt srtContent) = Some parts ->
  List.map Srt.formatSubtitlesToSrt parts = pre ++ c :: post ->
  Forall isReturns (responses extractThemesWithAI pre w) ->
  extractThemesWithAI c (worldAfter extractThemesWithAI pre w)
  = (Extract.Throws message, w') ->
  str_eqb message Extract.FORCE_SPLIT && (1000 <? length c)%nat = false ->
  Extract.processLargeSrt extractThemesWithAI toLowerCase fuel srtContent
    model provider w
  = Some (Extract.mkRun (Extract.Throws message) [] w').
Proof.
  intros _ Hplan Hparts Hpre Hc Hm. unfold Extract.processLargeSrt.
  rewrite Hplan, Hparts.
  rewrite (@chunkLoop_stops World extractThemesWithAI c post message w' pre
             [] [] w Hpre Hc Hm).
  reflexivity.
Qed.

(** Eleven cues in one chunk of fewer than 1000 units, and a service that
    throws [FORCE_SPLIT]: the chunk is not split. *)
Lemma processLargeSrt_stops_at_error_witness :
  Extract.processLargeSrt (countingService 0 Extract.FORCE_SPLIT)
    Themes.toLowerCaseAscii 12 elevenCues (js "gpt-4") (js "openai") 0%nat
  = Some (Extract.mkRun (Extract.Throws Extract.FORCE_SPLIT) [] 1%nat).
Proof.
  apply (@processLargeSrt_stops_at_error nat
           (countingService 0 Extract.FORCE_SPLIT) Themes.toLowerCaseAscii
           12 elevenCues (js "gpt-4") (js "openai") 0%nat 1%nat
           [Srt.parseSrt elevenCues] [] []
           (Srt.formatSubtitlesToSrt (Srt.parseSrt elevenCues))
           Extract.FORCE_SPLIT).
  - safe_indices.
  - vm_compute. reflexivity.
  - reflexivity.
  - constructor.
  - reflexivity.
  - vm_compute. reflexivity.
Defined.

(* ================================================================== *)
(** * More properties of the parser and of the refinement *)
(* ================================================================== *)

(** X21: [parseSrt] returns at most as many cues as the text has lines
    with a timestamp range in them: no line gives two cues, and a line
    without a timestamp range gives none. *)
Theorem parseSrt_at_most_one_cue_per_timestamp (srtContent : jsstring) :
  (length (Srt.parseSrt srtContent)
   <= length (filter Srt.hasTimestamp (split LF srtContent)))%nat.
Proof.
  unfold Srt.parseSrt.
  apply (@parseLines_count (length (split LF srtContent))). lia.
Qed.

(** The second test of the filter of [refineSegmentsWithSceneInfo]. *)
Definition sceneChangesIn (sceneChanges : list float) (seg : Video.Segment)
  : list float :=
  filter (fun time => (Video.seg_start seg <=? time)%float
                      && (time <=? Video.seg_end seg)%float) sceneChanges.

Lemma refineSegments_few_changes (sceneChanges : list float)
    (minSegmentDuration : float) (segments : list Video.Segment) :
  Forall (fun seg => (length (sceneChangesIn sceneChanges seg) < 2)%nat)
    segments ->
  forall refinedSegments,
  fold_left (Video.refineSegment sceneChanges minSegmentDuration) segments
    refinedSegments
  = refinedSegments
    ++ filter
         (fun seg =>
            (minSegmentDuration * 2
             <=? Video.seg_end seg - Video.seg_start seg)%float)
         segments.
Proof.
  induction 1 as [|seg segments Hseg _ IH]; intros acc; cbn [fold_left filter].
  - rewrite app_nil_r. reflexivity.
  - rewrite IH. unfold Video.refineSegment at 1.
    fold (sceneChangesIn sceneChanges seg).
    apply Nat.ltb_lt in Hseg. rewrite Hseg.
    destruct (minSegmentDuration * 2 <=? _)%float.
    + rewrite <- app_assoc. reflexivity.
    + reflexivity.
Qed.

(** X22: where the scenes do not change.  When fewer than two scene
    changes fall within each of the segments given, as when none is
    detected at all, [refineSegmentsWithSceneInfo] returns the segments
    that are at least twice [minSegmentDuration] long, as they are and in
    order, and drops the others. *)
Theorem refineSegmentsWithSceneInfo_few_changes
    (segments : list Video.Segment) (sceneChanges : list float)
    (minSegmentDuration : float) :
  Forall (fun seg => (length (sceneChangesIn sceneChanges seg) < 2)%nat)
    segments ->
  Video.refineSegmentsWithSceneInfo segments sceneChanges minSegmentDuration
  = filter
      (fun seg =>
         (minSegmentDuration * 2
          <=? Video.seg_end seg - Video.seg_start seg)%float)
      segments.
Proof.
  intros H. unfold Video.refineSegmentsWithSceneInfo.
  rewrite refineSegments_few_changes by exact H. reflexivity.
Qed.

(** Three segments kept by the silent cut, the second half a second long,
    and no scene change: the second is dropped. *)
Lemma refineSegmentsWithSceneInfo_few_changes_witness :
  Video.refineSegmentsWithSceneInfo
    [Video.mkSegment 0 9; Video.mkSegment 13 13.5; Video.mkSegment 43 50]
    [] 0.3
  = [Video.mkSegment 0 9; Video.mkSegment 43 50].
Proof.
  rewrite (@refineSegmentsWithSceneInfo_few_changes
             [Video.mkSegment 0 9; Video.mkSegment 13 13.5;
              Video.mkSegment 43 50] [] 0.3).
  - reflexivity.
  - repeat constructor.
Defined.

(* ================================================================== *)
(** * Facts about white space behind a text *)
(* ================================================================== *)

Section TrailingSpace.

Import Srt.

Variable c : char.
Hypothesis c_ws : isWhiteSpace c = true.

Lemma isTextLine_snoc (u : jsstring) : isTextLine (u ++ [c]) = isTextLine u.
Proof.
  unfold isTextLine, isBlank, isIndexLine.
  rewrite trim_app_ws by exact c_ws. reflexivity.
Qed.

Lemma isBlank_snoc (u : jsstring) : isBlank (u ++ [c]) = isBlank u.
Proof. unfold isBlank. rewrite trim_app_ws by exact c_ws. reflexivity. Qed.

Lemma matchHere_snoc (k : cls) (p : list cls) :
  clsMatch k c = false ->
  forall s, matchHere (p ++ [k]) (s ++ [c]) = matchHere (p ++ [k]) s.
Proof.
  intros Hk. induction p as [|q p IH]; intros s; cbn [app].
  - destruct s as [|x s]; cbn [app matchHere]; [rewrite Hk|]; reflexivity.
  - destruct s as [|x s]; cbn [app matchHere].
    + destruct (p ++ [k]) eqn:E; [destruct p; discriminate E|].
      cbn [matchHere]. apply andb_false_r.
    + rewrite IH. reflexivity.
Qed.

Lemma matchHere_timeRegex_snoc (s : jsstring) :
  matchHere Format.timeRegex (s ++ [c]) = matchHere Format.timeRegex s.
Proof.
  change Format.timeRegex with (removelast Format.timeRegex ++ [D]).
  apply matchHere_snoc. cbn [clsMatch].
  destruct (isDigit c) eqn:E; [|reflexivity].
  apply digit_not_ws in E. congruence.
Qed.

Lemma search_timeRegex_snoc (s : jsstring) :
  search Format.timeRegex (s ++ [c])
  = option_map (fun m => m ++ [c]) (search Format.timeRegex s).
Proof.
  induction s as [|x s IH].
  - pose proof (matchHere_timeRegex_snoc []) as H. cbn [app] in H.
    cbn [app search]. rewrite H. reflexivity.
  - change ((x :: s) ++ [c]) with (x :: (s ++ [c])). cbn [search].
    change (x :: (s ++ [c])) with ((x :: s) ++ [c]).
    rewrite matchHere_timeRegex_snoc.
    destruct (matchHere Format.timeRegex (x :: s)); [reflexivity|exact IH].
Qed.

Lemma timestampMatch_snoc (u : jsstring) :
  timestampMatch (u ++ [c]) = timestampMatch u.
Proof.
  unfold timestampMatch. rewrite search_timeRegex_snoc.
  destruct (search Format.timeRegex u) as [m|] eqn:E; [|reflexivity].
  cbn [option_map]. apply search_matchHere, matchHere_length in E.
  change (length Format.timeRegex) with 29%nat in E.
  rewrite !substr_app by lia. reflexivity.
Qed.

(** The text gathered with the last line one unit longer. *)
Lemma gather_snoc (u : jsstring) (A : list jsstring) :
  forall txt,
  trim (fst (gather txt (A ++ [u ++ [c]])))
  = trim (fst (gather txt (A ++ [u])))
  /\ ((snd (gather txt (A ++ [u])) = []
       /\ snd (gather txt (A ++ [u ++ [c]])) = [])
      \/ exists R,
           snd (gather txt (A ++ [u])) = R ++ [u]
           /\ snd (gather txt (A ++ [u ++ [c]])) = R ++ [u ++ [c]]
           /\ (length R <= length A)%nat).
Proof.
  induction A as [|l A IH]; intros txt; cbn [app gather].
  - rewrite isTextLine_snoc. destruct (isTextLine u); cbn [fst snd].
    + split; [|left; split; reflexivity].
      rewrite !app_assoc, !trim_app_ws by (exact c_ws || reflexivity).
      reflexivity.
    + split; [reflexivity|]. right. exists []. repeat split. cbn. lia.
  - destruct (isTextLine l).
    + destruct (IH (txt ++ l ++ [LF])) as [H1 H2]. split; [exact H1|].
      destruct H2 as [H2|(R & E1 & E2 & HR)]; [left; exact H2|].
      right. exists R. repeat split; try assumption. cbn [length]. lia.
    + cbn [fst snd]. split; [reflexivity|]. right. exists (l :: A).
      repeat split. cbn [length]. lia.
Qed.

(** [parseSrt] reads the same from lines with the last one a unit of white
    space longer. *)
Lemma parseLines_snoc (u : jsstring) (n : nat) :
  forall A, (length A <= n)%nat ->
  parseLines (A ++ [u ++ [c]]) = parseLines (A ++ [u]).
Proof.
  induction n as [|n IH]; intros A Hlen.
  - destruct A; [|cbn in Hlen; lia]. cbn [app].
    rewrite !parseLines_step, isBlank_snoc.
    destruct (isBlank u); [reflexivity|].
    destruct (parseInt (u ++ [c])), (parseInt u); reflexivity.
  - destruct A as [|a A].
    + cbn [app]. rewrite !parseLines_step, isBlank_snoc.
      destruct (isBlank u); [reflexivity|].
      destruct (parseInt (u ++ [c])), (parseInt u); reflexivity.
    + cbn [length] in Hlen. cbn [app]. rewrite !(parseLines_step a).
      destruct (isBlank a); [apply IH; lia|].
      destruct (parseInt a) as [k|]; [|apply IH; lia].
      destruct A as [|t A]; cbn [app].
      * rewrite timestampMatch_snoc.
        destruct (timestampMatch u) as [[st en]|]; reflexivity.
      * cbn [length] in Hlen.
        destruct (timestampMatch t) as [[st en]|]; [|apply IH; lia].
        destruct (gather_snoc u A []) as [H1 H2].
        f_equal; [f_equal; exact H1|].
        destruct H2 as [[E1 E2]|(R & E1 & E2 & HR)].
        -- etransitivity; [apply f_equal; exact E2|].
           symmetry. apply f_equal. exact E1.
        -- etransitivity; [apply f_equal; exact E2|].
           etransitivity; [|symmetry; apply f_equal; exact E1].
           apply IH. unfold jsstring in *. lia.
Qed.

End TrailingSpace.

Section TrailingLines.

Import Srt.

Lemma gather_blank_line (L : list jsstring) : forall txt,
  gather txt (L ++ [[]])
  = (fst (gather txt L), snd (gather txt L) ++ [[]]).
Proof.
  induction L as [|l L IH]; intros txt; cbn [app gather]; [reflexivity|].
  destruct (isTextLine l); [apply IH|reflexivity].
Qed.

(** [parseSrt] reads the same from lines with an empty line behind
    them. *)
Lemma parseLines_blank_line (n : nat) :
  forall L, (length L <= n)%nat -> parseLines (L ++ [[]]) = parseLines L.
Proof.
  induction n as [|n IH]; intros L Hlen.
  - destruct L; [reflexivity|cbn in Hlen; lia].
  - destruct L as [|a L]; [reflexivity|].
    cbn [length] in Hlen. cbn [app]. rewrite !(parseLines_step a).
    destruct (isBlank a); [apply IH; lia|].
    destruct (parseInt a) as [k|]; [|apply IH; lia].
    destruct L as [|t L]; cbn [app]; [reflexivity|].
    cbn [length] in Hlen.
    destruct (timestampMatch t) as [[st en]|]; [|apply IH; lia].
    rewrite gather_blank_line. cbn [fst snd]. f_equal.
    apply IH. destruct (gather_suffix L []) as [taken Et].
    apply (f_equal (@length _)) in Et. rewrite length_app in Et.
    unfold jsstring in *. lia.
Qed.

Lemma split_snoc (c : char) (s : jsstring) :
  c <> LF ->
  exists A u, split LF s = A ++ [u] /\ split LF (s ++ [c]) = A ++ [u ++ [c]].
Proof.
  intros Hc. induction s as [|x s (A & u & E1 & E2)].
  - exists [], []. cbn [app split].
    replace (char_eqb c LF) with false
      by (symmetry; apply char_eqb_neq; exact Hc).
    split; reflexivity.
  - cbn [app split]. rewrite E1, E2.
    destruct (char_eqb x LF).
    + exists ([] :: A), u. split; reflexivity.
    + destruct A as [|a A]; cbn [app].
      * exists [], (x :: u). split; reflexivity.
      * exists ((x :: a) :: A), u. split; reflexivity.
Qed.

Lemma parseSrt_snoc (c : char) (s : jsstring) :
  isWhiteSpace c = true -> parseSrt (s ++ [c]) = parseSrt s.
Proof.
  intros Hc. unfold parseSrt.
  destruct (N.eq_dec c LF) as [->|Hne].
  - rewrite split_app_LF. change (split LF []) with [@nil char].
    apply (@parseLines_blank_line (length (split LF s))). apply le_n.
  - destruct (split_snoc s Hne) as (A & u & -> & ->).
    apply (@parseLines_snoc c Hc u (length A)). apply le_n.
Qed.

Lemma trimEnd_suffix (s : jsstring) :
  exists W, s = trimEnd s ++ W /\ Forall (fun c => isWhiteSpace c = true) W.
Proof.
  induction s as [|x s (W & E & HW)]; [exists []; split; [reflexivity|constructor]|].
  cbn [trimEnd]. destruct (trimEnd s) as [|y t] eqn:Et.
  - destruct (isWhiteSpace x) eqn:Ex.
    + exists (x :: s). split; [reflexivity|]. cbn [app] in E. subst W.
      constructor; assumption.
    + exists W. cbn [app] in *. split; [rewrite <- E; reflexivity|exact HW].
  - exists W. split; [cbn [app] in *; f_equal; exact E|exact HW].
Qed.

(** [parseSrt] does not read the white space behind a text. *)
Lemma parseSrt_trimEnd (s : jsstring) : parseSrt (trimEnd s) = parseSrt s.
Proof.
  destruct (trimEnd_suffix s) as (W & E & HW).
  rewrite E at 2. clear E. revert HW.
  induction W as [|c W IH] using rev_ind; intros HW.
  - rewrite app_nil_r. reflexivity.
  - apply Forall_app in HW as [HW Hc]. inversion Hc; subst.
    rewrite app_assoc, parseSrt_snoc by assumption. apply IH. exact HW.
Qed.

End TrailingLines.

(* ================================================================== *)
(** * Facts about the combined text, read back *)
(* ================================================================== *)

Section CombinedRead.

Import Srt.

(** The lines of a text have no line feed. *)
Lemma split_lines_no_LF (s : jsstring) :
  Forall (fun l => ~ In LF l) (split LF s).
Proof.
  induction s as [|x s IH]; cbn [split].
  - repeat constructor. intros [].
  - destruct (char_eqb x LF) eqn:E.
    + constructor; [intros []|exact IH].
    + destruct (split LF s) as [|w ws]; [repeat constructor; intros [H|[]];
        apply char_eqb_neq in E; congruence|].
      inversion IH as [|? ? Hw Hws]; subst. constructor; [|exact Hws].
      intros [H|H]; [apply char_eqb_neq in E; congruence|exact (Hw H)].
Qed.

(** The lines of the cues written for timestamp lines and lines of text. *)
Fixpoint blockLines (subtitleIndex : Z)
    (cues : list (jsstring * list jsstring)) : list jsstring :=
  match cues with
  | [] => []
  | (timestamp, ls) :: rest =>
      stringOfZ subtitleIndex :: timestamp
        :: ls ++ [] :: blockLines (subtitleIndex + 1) rest
  end.

Definition withText (cue : jsstring * list jsstring) : jsstring * jsstring :=
  (fst cue, cueText (snd cue)).

Lemma split_cueText (ls : list jsstring) (behind : jsstring) :
  Forall (fun l => ~ In LF l) ls ->
  split LF (cueText ls ++ behind) = ls ++ split LF behind.
Proof.
  induction 1 as [|l ls Hl _ IH]; [reflexivity|].
  unfold cueText in *. cbn [List.map concat].
  rewrite <- !app_assoc. cbn [app].
  rewrite split_app_LF, split_no_LF by exact Hl. cbn [app].
  rewrite IH. reflexivity.
Qed.

Definition plainCue (cue : jsstring * list jsstring) : Prop :=
  ~ In LF (fst cue) /\ Forall (fun l => ~ In LF l) (snd cue).

Lemma split_blocks (cues : list (jsstring * list jsstring)) :
  Forall plainCue cues ->
  forall k,
  split LF (blocks k (List.map withText cues)) = blockLines k cues ++ [[]].
Proof.
  induction 1 as [|[ts ls] cues [Hts Hls] _ IH]; intros k; [reflexivity|].
  cbn [List.map withText fst snd blocks blockLines] in *.
  unfold block. rewrite <- !app_assoc. cbn [app].
  rewrite split_app_LF, split_no_LF by apply stringOfZ_no_LF. cbn [app].
  rewrite split_app_LF, split_no_LF by exact Hts. cbn [app].
  rewrite split_cueText by exact Hls.
  cbn [split]. unfold char_eqb at 1. rewrite N.eqb_refl.
  rewrite IH, <- app_assoc. reflexivity.
Qed.

(** The cues [parseSrt] reads from such lines. *)
Fixpoint readCues (subtitleIndex : Z)
    (cues : list (jsstring * list jsstring)) : list Subtitle :=
  match cues with
  | [] => []
  | (timestamp, ls) :: rest =>
      match timestampMatch timestamp with
      | Some (st, en) =>
          mkSubtitle subtitleIndex st en (trim (cueText ls))
            :: readCues (subtitleIndex + 1) rest
      | None => []
      end
  end.

Definition writtenCue (cue : jsstring * list jsstring) : Prop :=
  hasTimestamp (fst cue) = true
  /\ Forall (fun l => isCueLine l = true) (snd cue).

Lemma isCueLine_isTextLine (l : jsstring) :
  isCueLine l = true -> isTextLine l = true.
Proof.
  unfold isCueLine, isTextLine. intros H.
  apply andb_true_iff in H as [H _]. exact H.
Qed.

Lemma parseLines_blockLines (cues : list (jsstring * list jsstring)) :
  Forall writtenCue cues ->
  forall k, parseLines (blockLines k cues) = readCues k cues.
Proof.
  induction 1 as [|[ts ls] cues [Hts Hls] _ IH]; intros k; [reflexivity|].
  cbn [fst snd blockLines readCues] in *.
  rewrite parseLines_step, stringOfZ_not_blank, parseInt_stringOfZ.
  unfold hasTimestamp in Hts. unfold timestampMatch.
  destruct (search Format.timeRegex ts) as [m|]; [|discriminate Hts].
  rewrite gather_lines;
    [|eapply Forall_impl; [|exact Hls]; apply isCueLine_isTextLine
     |reflexivity].
  cbn [fst snd app]. fold (cueText ls). f_equal.
  rewrite <- IH. reflexivity.
Qed.

Lemma readCues_ids (cues : list (jsstring * list jsstring)) :
  Forall writtenCue cues ->
  forall k,
  List.map id (readCues k cues)
  = List.map (fun i => (k + Z.of_nat i)%Z) (seq 0 (length cues))
  /\ List.map (fun sub => Some (start sub, end_ sub)) (readCues k cues)
     = List.map timestampMatch (List.map fst cues).
Proof.
  induction 1 as [|[ts ls] cues [Hts _] _ IH]; intros k;
    [split; reflexivity|].
  cbn [fst readCues length seq List.map] in *.
  unfold hasTimestamp in Hts. unfold timestampMatch in *.
  destruct (search Format.timeRegex ts) as [m|]; [|discriminate Hts].
  destruct (IH (k + 1)%Z) as [H1 H2]. cbn [List.map id start end_]. split.
  - rewrite Z.add_0_r. f_equal. rewrite H1, <- seq_shift, map_map.
    apply map_ext. intros i. lia.
  - f_equal. exact H2.
Qed.

Lemma trimStart_blocks (cues : list (jsstring * jsstring)) :
  trimStart (blocks 1 cues) = blocks 1 cues.
Proof. destruct cues as [|[ts txt] cues]; reflexivity. Qed.

Lemma combine_map_withText (stamps : list jsstring)
    (cues : list (list jsstring)) :
  combine stamps (List.map cueText cues)
  = List.map withText (combine stamps cues).
Proof.
  revert cues. induction stamps as [|ts stamps IH]; intros [|ls cues];
    try reflexivity.
  cbn [List.map combine]. rewrite IH. reflexivity.
Qed.

End CombinedRead.

(** X23: the combined text, read back.  From the text that
    [combineSrtFiles] returns, [parseSrt] reads one cue for every line of
    the texts with a timestamp range in it, in order; their indices are 1,
    2, 3, ... and their [start] and [end] are what [parseSrt] reads from
    those lines. *)
Theorem parseSrt_of_combineSrtFiles (srtContents : list jsstring) :
  List.map Srt.id (Srt.parseSrt (Srt.combineSrtFiles srtContents))
  = List.map Z.of_nat
      (seq 1 (length (filter Srt.hasTimestamp
                        (flat_map (split LF) srtContents))))
  /\ List.map (fun sub => Some (Srt.start sub, Srt.end_ sub))
       (Srt.parseSrt (Srt.combineSrtFiles srtContents))
     = List.map Srt.timestampMatch
         (filter Srt.hasTimestamp (flat_map (split LF) srtContents)).
Proof.
  destruct (combineFold_spec srtContents [] 1%Z) as (cues & H1 & H2 & H3).
  set (stamps := filter Srt.hasTimestamp (flat_map (split LF) srtContents))
    in *.
  assert (Hc : Srt.combineSrtFiles srtContents
               = trim (blocks 1 (List.map withText (combine stamps cues)))).
  { unfold Srt.combineSrtFiles. apply (f_equal trim).
    apply (f_equal fst) in H3. cbn [fst app] in H3.
    rewrite <- combine_map_withText. exact H3. }
  assert (Hlines : Forall (fun l => ~ In LF l)
                     (flat_map (split LF) srtContents)).
  { apply Forall_forall. intros l Hl. apply in_flat_map in Hl as (s & _ & Hl).
    pose proof (split_lines_no_LF s) as Hs. rewrite Forall_forall in Hs.
    exact (Hs _ Hl). }
  rewrite Forall_forall in Hlines.
  assert (Hstamps : forall ts, In ts stamps ->
                      Srt.hasTimestamp ts = true /\ ~ In LF ts).
  { intros ts Hts. apply filter_In in Hts as [Hin Hts].
    split; [exact Hts|exact (Hlines _ Hin)]. }
  assert (Hplain : Forall plainCue (combine stamps cues)
                   /\ Forall writtenCue (combine stamps cues)).
  { split; apply Forall_forall; intros [ts ls] Hin;
      pose proof (in_combine_l _ _ _ _ Hin) as Hts;
      pose proof (in_combine_r _ _ _ _ Hin) as Hls;
      rewrite Forall_forall in H2; destruct (H2 _ Hls) as [Hcue Hincl];
      destruct (Hstamps _ Hts) as [Hhas Hno]; split; cbn [fst snd];
      try assumption.
    apply Forall_forall. intros l Hl. apply Hlines, Hincl, Hl. }
  destruct Hplain as [Hplain Hwritten].
  assert (Hread : Srt.parseSrt (Srt.combineSrtFiles srtContents)
                  = readCues 1 (combine stamps cues)).
  { rewrite Hc. unfold trim. rewrite trimStart_blocks, parseSrt_trimEnd.
    unfold Srt.parseSrt. rewrite (split_blocks Hplain).
    rewrite (@parseLines_blank_line
               (length (blockLines 1 (combine stamps cues)))) by apply le_n.
    apply parseLines_blockLines. exact Hwritten. }
  rewrite Hread.
  destruct (readCues_ids Hwritten 1%Z) as [I1 I2].
  assert (Hlen : length (combine stamps cues) = length stamps)
    by (rewrite length_combine, H1; apply Nat.min_id).
  split.
  - rewrite I1, Hlen, <- seq_shift, map_map.
    apply map_ext. intros i. lia.
  - rewrite I2. f_equal.
    clear - H1. revert cues H1.
    induction stamps as [|ts stamps IH]; intros [|ls cues] Hl;
      try discriminate Hl; [reflexivity|].
    cbn [combine List.map fst]. f_equal. apply IH.
    cbn [length] in Hl. lia.
Qed.

(** X24: [parseSrt] does not read the white space behind a text: it
    returns the same cues for a text and for the text with the white
    space at its end, empty lines included, cut off. *)
Theorem parseSrt_ignores_trailing_white_space (srtContent : jsstring) :
  Srt.parseSrt (trimEnd srtContent) = Srt.parseSrt srtContent.
Proof. apply parseSrt_trimEnd. Qed.

(* ================================================================== *)
(** * Facts about counts as numbers, and labels without a common word *)
(* ================================================================== *)

(** A count below 2^63 as a number: the nearest number. *)
Lemma ofZ_spec (z : Z) :
  (0 <= z < 2 ^ 63)%Z ->
  Prim2SF (ofZ z) = binary_normalize prec emax z 0 false.
Proof.
  intros Hz. unfold ofZ, encode. apply Prim2SF_SF2Prim.
  rewrite <- (Z.mod_small z Uint63.wB) by exact Hz.
  rewrite <- Uint63.of_Z_spec, <- of_uint63_spec. apply Prim2SF_valid.
Qed.

Lemma ofZ_strict (z : Z) :
  (0 < z < 2 ^ 63)%Z -> IEEE.strict false (Prim2SF (ofZ z)).
Proof.
  intros Hz. rewrite ofZ_spec by lia.
  destruct z as [|p|p]; try lia. cbn [binary_normalize].
  apply IEEE.binary_round_strict. vm_compute. discriminate.
Qed.

Lemma filter_none (A : Type) (p : A -> bool) (l : list A) :
  (forall a, In a l -> p a = false) -> filter p l = [].
Proof.
  induction l as [|a l IH]; intros H; [reflexivity|]. cbn [filter].
  rewrite (H a) by (left; reflexivity).
  apply IH. intros b Hb. apply H. right. exact Hb.
Qed.

(** Zero divided by a count that is not zero is below both thresholds. *)
Lemma zero_ratio_below (n : Z) (threshold : float) :
  (0 < n < 2 ^ 63)%Z ->
  threshold = 0.7%float \/ threshold = 0.5%float ->
  (threshold <=? ofZ 0 / ofZ n)%float = false.
Proof.
  intros Hn Ht. rewrite leb_spec, div_spec.
  change (Prim2SF (ofZ 0)) with (S754_zero false).
  pose proof (ofZ_strict Hn) as Hs.
  destruct (Prim2SF (ofZ n)) as [s|s| |s m e]; cbn [IEEE.strict] in Hs;
    try tauto; subst s; cbn [SFdiv xorb];
    destruct Ht as [-> | ->]; reflexivity.
Qed.

(** X25: labels without a common word are not similar.  When no word of
    the first label, normalized, is a word of the second, normalized,
    [areSimilarThemes] returns false, so [mergeOverlappingThemes] never
    merges two such spans, however close they are.  (An array has fewer than
    2^32 items.) *)
Theorem areSimilarThemes_no_common_word
    (toLowerCase : jsstring -> jsstring) (theme1 theme2 : jsstring) :
  (Z.of_nat (length (splitWs (Themes.normalizeTheme toLowerCase theme1)))
   + Z.of_nat (length (splitWs (Themes.normalizeTheme toLowerCase theme2)))
   < 2 ^ 32)%Z ->
  (forall word,
     In word (splitWs (Themes.normalizeTheme toLowerCase theme1)) ->
     includes (splitWs (Themes.normalizeTheme toLowerCase theme2)) word
     = false) ->
  Themes.areSimilarThemes toLowerCase theme1 theme2 = false
  /\ forall a b c d,
       Themes.mergeable toLowerCase (Themes.mkTheme a b theme1)
         (Themes.mkTheme c d theme2) = false.
Proof.
  intros Hlen Hno.
  assert (H : Themes.areSimilarThemes toLowerCase theme1 theme2 = false).
  { unfold Themes.areSimilarThemes. cbv zeta.
    pose proof (@splitWs_not_empty (Themes.normalizeTheme toLowerCase theme1))
      as N1.
    pose proof (@splitWs_not_empty (Themes.normalizeTheme toLowerCase theme2))
      as N2.
    destruct (splitWs (Themes.normalizeTheme toLowerCase theme1))
      as [|x1 r1]; [contradiction|].
    destruct (splitWs (Themes.normalizeTheme toLowerCase theme2))
      as [|x2 r2]; [contradiction|].
    rewrite (filter_none _ _ Hno).
    change ((length (x1 :: r1) =? 0)%nat || (length (x2 :: r2) =? 0)%nat)
      with false. cbv iota.
    change (2 * Z.of_nat (length (@nil jsstring)))%Z with 0%Z.
    apply zero_ratio_below.
    - cbn [length] in *. lia.
    - destruct (Nat.min _ _ <=? 3)%nat; [left|right]; reflexivity. }
  split; [exact H|].
  intros a b c d. unfold Themes.mergeable. cbn [Themes.theme].
  rewrite H. apply andb_false_r.
Qed.

Lemma areSimilarThemes_no_common_word_witness :
  Themes.areSimilarThemes Themes.toLowerCaseAscii (js "Cats at home")
    (js "dogs, birds") = false
  /\ forall a b c d,
       Themes.mergeable Themes.toLowerCaseAscii
         (Themes.mkTheme a b (js "Cats at home"))
         (Themes.mkTheme c d (js "dogs, birds")) = false.
Proof.
  apply (@areSimilarThemes_no_common_word Themes.toLowerCaseAscii
           (js "Cats at home") (js "dogs, birds")).
  - vm_compute. reflexivity.
  - intros word Hin. vm_compute in Hin.
    repeat (destruct Hin as [<-|Hin]; [vm_compute; reflexivity|]).
    destruct Hin.
Defined.

(* ================================================================== *)
(** * Facts about a count divided by itself *)
(* ================================================================== *)

Module IEEEExact.

Import IEEE.
Local Open Scope Z_scope.

Lemma shr_fexp_le m e l :
  0 < m ->
  shr_m (fst (shr_fexp prec emax m e l)) <= m
  /\ snd (shr_fexp prec emax m e l)
     <= Z.max e (fexp prec emax (Zdigits2 m + e)).
Proof.
  intros Hm. unfold shr_fexp, shr.
  destruct (fexp prec emax (Zdigits2 m + e) - e) as [|p|p] eqn:E;
    cbn [fst snd]; try (rewrite shr_record_of_loc_m; lia).
  rewrite iter_shr_m by (rewrite shr_record_of_loc_m; lia).
  rewrite shr_record_of_loc_m. split; [|lia].
  apply Z.div_le_upper_bound; [apply Z.pow_pos_nonneg; lia|].
  assert (0 < 2 ^ Z.pos p) by (apply Z.pow_pos_nonneg; lia). nia.
Qed.

Lemma round_nearest_even_le m l : round_nearest_even m l <= m + 1.
Proof.
  destruct l as [|[ | | ]]; simpl; try lia. destruct (Z.even m); lia.
Qed.

Lemma Zdigits2_le m k : 0 < m < 2 ^ k -> 0 <= k -> Zdigits2 m <= k.
Proof.
  intros [Hm Hk] Hk0. destruct m as [|p|p]; try lia. cbn [Zdigits2].
  pose proof (digits2_bounds p) as [Hlo _].
  destruct (Z_le_gt_dec (Z.pos (digits2_pos p)) k) as [H|H]; [exact H|].
  exfalso.
  assert (2 ^ k <= 2 ^ (Z.pos (digits2_pos p) - 1))
    by (apply Z.pow_le_mono_r; lia).
  lia.
Qed.

(** Rounding a mantissa below 2^64 at an exponent from [emin] to 0 gives a
    finite number. *)
Lemma binary_round_aux_finite s m e l :
  0 < m < 2 ^ 64 -> emin64 <= e <= 0 ->
  exists m' e', binary_round_aux prec emax s m e l = S754_finite s m' e'.
Proof.
  intros [Hm Hb] [He He0]. unfold binary_round_aux.
  pose proof (@shr_fexp_pos m e l Hm He) as [P1 P1e].
  pose proof (@shr_fexp_le m e l Hm) as [L1 L1e].
  pose proof (@Zdigits2_le m 64 (conj Hm Hb) ltac:(lia)) as Hd.
  destruct (shr_fexp prec emax m e l) as [r1 e1].
  cbn [fst snd] in P1, P1e, L1, L1e.
  assert (He1 : e1 <= 11) by (clear - L1e Hd He0; flia).
  set (m1 := round_nearest_even (shr_m r1) (loc_of_shr_record r1)).
  assert (Hm1 : 0 < m1 < 2 ^ 65).
  { pose proof (round_nearest_even_ge (shr_m r1) (loc_of_shr_record r1)).
    pose proof (round_nearest_even_le (shr_m r1) (loc_of_shr_record r1)).
    fold m1 in H, H0. change (2 ^ 65) with (2 * 2 ^ 64). lia. }
  pose proof (@shr_fexp_pos m1 e1 loc_Exact (proj1 Hm1) P1e) as [P2 _].
  pose proof (@shr_fexp_le m1 e1 loc_Exact (proj1 Hm1)) as [_ L2e].
  pose proof (@Zdigits2_le m1 65 Hm1 ltac:(lia)) as Hd1.
  destruct (shr_fexp prec emax m1 e1 loc_Exact) as [r2 e2].
  cbn [fst snd] in P2, L2e.
  assert (He2 : e2 <= emax - prec) by (clear - L2e Hd1 He1; flia).
  destruct (shr_m r2) as [|p|p]; try lia.
  apply Z.leb_le in He2. rewrite He2. eauto.
Qed.

Lemma shl_align_le m e ez :
  ez <= e -> snd (shl_align m e ez) = ez.
Proof.
  intros H. unfold shl_align.
  destruct (ez - e) as [|p|p] eqn:E; cbn [snd]; lia.
Qed.

Lemma shl_align_ge m e ez :
  e <= ez -> shl_align m e ez = (m, e).
Proof.
  intros H. unfold shl_align.
  destruct (ez - e) as [|p|p] eqn:E; try reflexivity. lia.
Qed.

Lemma binary_round_finite s p :
  Z.pos p < 2 ^ 63 ->
  exists m' e', binary_round prec emax s p 0 = S754_finite s m' e'.
Proof.
  intros Hp. unfold binary_round.
  pose proof (digits2_bounds p) as [Hlo Hhi].
  set (ez := fexp prec emax (Z.pos (digits2_pos p) + 0)).
  assert (Hez : emin64 <= ez) by apply fexp_ge_emin.
  destruct (Z_le_gt_dec ez 0) as [H|H].
  - pose proof (@shl_align_fst p 0 ez H) as Hf.
    pose proof (@shl_align_le p 0 ez H) as Hs.
    destruct (shl_align p 0 ez) as [mz e']. cbn [fst snd] in Hf, Hs. subst e'.
    apply binary_round_aux_finite; [|lia]. rewrite Hf. split; [lia|].
    assert (Hd : Z.pos (digits2_pos p) - ez <= prec)
      by (unfold ez; clear; flia).
    apply Z.lt_le_trans
      with (2 ^ Z.pos (digits2_pos p) * 2 ^ (0 - ez)).
    + apply Z.mul_lt_mono_pos_r; [apply Z.pow_pos_nonneg; lia|exact Hhi].
    + rewrite <- Z.pow_add_r by lia. apply Z.pow_le_mono_r; [lia|].
      unfold prec in Hd. lia.
  - rewrite shl_align_ge by lia.
    apply binary_round_aux_finite; [|unfold emin64; cbn; lia].
    split; [lia|]. change (2 ^ 64) with (2 * 2 ^ 63). lia.
Qed.

(** A finite number above zero divided by itself is one. *)
Lemma SFdiv_self m e :
  SFdiv prec emax (S754_finite false m e) (S754_finite false m e)
  = S754_finite false 4503599627370496 (-52).
Proof.
  cbn [SFdiv xorb]. unfold SFdiv_core_binary.
  replace (Zdigits2 (Z.pos m) + e - (Zdigits2 (Z.pos m) + e)) with 0 by lia.
  replace (e - e) with 0 by lia.
  change (Z.min (fexp prec emax 0) 0) with (-53).
  change (0 - -53) with 53.
  rewrite Z.shiftl_mul_pow2 by lia.
  assert (Hq : Z.div_eucl (Z.pos m * 2 ^ 53) (Z.pos m) = (2 ^ 53, 0)).
  { pose proof (Z.div_eucl_eq (Z.pos m * 2 ^ 53) (Z.pos m) ltac:(lia)) as Heq.
    pose proof (Z.mod_pos_bound (Z.pos m * 2 ^ 53) (Z.pos m) ltac:(lia)) as Hr.
    unfold Z.modulo in Hr.
    destruct (Z.div_eucl (Z.pos m * 2 ^ 53) (Z.pos m)) as [q r].
    assert (r = 0 /\ q = 2 ^ 53) as [-> ->]; [|reflexivity].
    assert (Hr0 : r = Z.pos m * (2 ^ 53 - q)) by lia.
    assert (2 ^ 53 - q = 0) by nia. split; nia. }
  rewrite Hq.
  assert (Hl : new_location (Z.pos m) 0 = loc_Exact).
  { unfold new_location, new_location_even, new_location_odd.
    destruct (Z.even (Z.pos m)); reflexivity. }
  rewrite Hl. reflexivity.
Qed.

End IEEEExact.

(** A count above zero and below 2^63 divided by itself is one. *)
Lemma ofZ_div_self (z : Z) :
  (0 < z < 2 ^ 63)%Z -> Prim2SF (ofZ z / ofZ z) = Prim2SF 1.
Proof.
  intros Hz. rewrite div_spec, ofZ_spec by lia.
  destruct z as [|p|p]; try lia. cbn [binary_normalize].
  destruct (@IEEEExact.binary_round_finite false p ltac:(lia)) as (m & e & ->).
  apply IEEEExact.SFdiv_self.
Qed.

Lemma str_eqb_refl (w : jsstring) : str_eqb w w = true.
Proof.
  induction w as [|x w IH]; [reflexivity|]. cbn [str_eqb].
  unfold char_eqb. rewrite N.eqb_refl. exact IH.
Qed.

Lemma includes_In (l : list jsstring) (w : jsstring) :
  In w l -> includes l w = true.
Proof.
  intros H. unfold includes. apply existsb_exists.
  exists w. split; [exact H|apply str_eqb_refl].
Qed.

Lemma filter_all (A : Type) (p : A -> bool) (l : list A) :
  (forall a, In a l -> p a = true) -> filter p l = l.
Proof.
  induction l as [|a l IH]; intros H; [reflexivity|]. cbn [filter].
  rewrite (H a) by (left; reflexivity). f_equal.
  apply IH. intros b Hb. apply H. right. exact Hb.
Qed.

(** X26: labels with the same normal form are similar.  Two labels that
    are the same once lower-cased and stripped of filler phrases,
    punctuation and outer white space, a label and itself among them, are
    judged similar by [areSimilarThemes]: the ratio is exactly one.  (An
    array has fewer than 2^32 items.) *)
Theorem areSimilarThemes_same_normal_form
    (toLowerCase : jsstring -> jsstring) (theme1 theme2 : jsstring) :
  Themes.normalizeTheme toLowerCase theme1
  = Themes.normalizeTheme toLowerCase theme2 ->
  (Z.of_nat (length (splitWs (Themes.normalizeTheme toLowerCase theme1)))
   < 2 ^ 32)%Z ->
  Themes.areSimilarThemes toLowerCase theme1 theme2 = true.
Proof.
  intros Hsame Hlen. unfold Themes.areSimilarThemes. cbv zeta.
  rewrite <- Hsame.
  pose proof (@splitWs_not_empty (Themes.normalizeTheme toLowerCase theme1))
    as Hne.
  destruct (splitWs (Themes.normalizeTheme toLowerCase theme1))
    as [|x r]; [contradiction|].
  change ((length (x :: r) =? 0)%nat || (length (x :: r) =? 0)%nat)
    with false. cbv iota.
  rewrite (filter_all _ _ (@includes_In (x :: r))).
  replace (Z.of_nat (length (x :: r)) + Z.of_nat (length (x :: r)))%Z
    with (2 * Z.of_nat (length (x :: r)))%Z by lia.
  rewrite leb_spec, ofZ_div_self by (cbn [length] in *; lia).
  destruct (Nat.min _ _ <=? 3)%nat; reflexivity.
Qed.

Lemma areSimilarThemes_same_normal_form_witness :
  Themes.areSimilarThemes Themes.toLowerCaseAscii (js "The Cats!")
    (js " the cats") = true.
Proof.
  apply (@areSimilarThemes_same_normal_form Themes.toLowerCaseAscii
           (js "The Cats!") (js " the cats")).
  - vm_compute. reflexivity.
  - vm_compute. reflexivity.
Defined.
